(** * Tubify: the Spotify connection backend ([backend/spotify_auth.py])

    A shallow embedding of the FastAPI handlers of
    [src/tubify-core/src/backend/spotify_auth.py] and the properties of the
    token life cycle that the specification states about them.

    Handlers are functions in a state-and-exception monad over a [World]:
    the two database tables the module touches, the heap of
    [MemoryCacheHandler] objects, the provider (Spotify) as an oracle,
    the wall clock, the console of the process, and a trace of the calls
    that leave the process. *)

From Stdlib Require Import ZArith Lia String Ascii List.
From stdpp Require Import base strings list gmap pretty.

Set Warnings "-register-all".
Open Scope Z_scope.

(** ** Python values *)

(** The exceptions that can travel through the handlers. *)
Inductive Exception :=
| HTTPException (status_code : Z) (detail : string)
| RequestValidationError (missing : list string)
| ValueError (msg : string)
| KeyError (key : string)
| TypeError (msg : string)
| IndexError (msg : string)
| SpotifyException (msg : string)
| SpotifyOauthError (msg : string)
| DatabaseError (msg : string)
| EOFError (msg : string).

(** [str(e)], as the f-strings of the handlers render an exception. *)
Definition str_exception (e : Exception) : string :=
  match e with
  | HTTPException status_code detail => pretty status_code +:+ ": " +:+ detail
  | RequestValidationError _ => "validation error"
  | KeyError key => "'" +:+ key +:+ "'"
  | ValueError msg | TypeError msg | IndexError msg
  | SpotifyException msg | SpotifyOauthError msg | DatabaseError msg
  | EOFError msg => msg
  end.

(** What a call produces: a value, or a raised exception. *)
Inductive Outcome (A : Type) :=
| Ok (a : A)
| Raise (e : Exception).
Arguments Ok {A} a.
Arguments Raise {A} e.

(** *** Text

    A [string] holds a Python [str] in UTF-8: one character of the [str]
    is one to four bytes of the [string].  The literals of the module are
    ASCII, where the two coincide; the texts that come from outside (query
    parameters, the provider's JSON) may hold any character. *)

Definition byte (c : ascii) : Z := Z.of_N (N_of_ascii c).

(** The number of bytes of the character that starts with the byte [c]. *)
Definition width (c : ascii) : nat :=
  if byte c <? 0xC0 then 1%nat
  else if byte c <? 0xE0 then 2%nat
  else if byte c <? 0xF0 then 3%nat
  else 4%nat.

(** The characters of a text, each with the bytes that encode it: what
    [for ch in s] yields. *)
Fixpoint chars (s : string) : list string :=
  match s with
  | EmptyString => []
  | String c0 r0 =>
      match width c0, r0 with
      | 2%nat, String c1 r1 =>
          String c0 (String c1 EmptyString) :: chars r1
      | 3%nat, String c1 (String c2 r2) =>
          String c0 (String c1 (String c2 EmptyString)) :: chars r2
      | 4%nat, String c1 (String c2 (String c3 r3)) =>
          String c0 (String c1 (String c2 (String c3 EmptyString))) :: chars r3
      | _, _ => String c0 EmptyString :: chars r0
      end
  end.

(** The payload of a continuation byte (10xxxxxx). *)
Definition continuation (c : ascii) : option Z :=
  if (0x80 <=? byte c) && (byte c <? 0xC0) then Some (byte c - 0x80) else None.

(** [ord(ch)]: the code point of one character; [None] for bytes that are
    no well-formed UTF-8 (a stray continuation byte, an overlong form, a
    surrogate, a value beyond U+10FFFF). *)
Definition ord (ch : string) : option Z :=
  match ch with
  | String c0 EmptyString =>
      if byte c0 <? 0x80 then Some (byte c0) else None
  | String c0 (String c1 EmptyString) =>
      x1 ← continuation c1;
      let cp := (byte c0 - 0xC0) * 64 + x1 in
      if (0xC0 <=? byte c0) && (byte c0 <? 0xE0) && (0x80 <=? cp)
      then Some cp else None
  | String c0 (String c1 (String c2 EmptyString)) =>
      x1 ← continuation c1;
      x2 ← continuation c2;
      let cp := (byte c0 - 0xE0) * 4096 + x1 * 64 + x2 in
      if (0xE0 <=? byte c0) && (byte c0 <? 0xF0) && (0x800 <=? cp)
         && negb ((0xD800 <=? cp) && (cp <=? 0xDFFF))
      then Some cp else None
  | String c0 (String c1 (String c2 (String c3 EmptyString))) =>
      x1 ← continuation c1;
      x2 ← continuation c2;
      x3 ← continuation c3;
      let cp := (byte c0 - 0xF0) * 262144 + x1 * 4096 + x2 * 64 + x3 in
      if (0xF0 <=? byte c0) && (0x10000 <=? cp) && (cp <=? 0x10FFFF)
      then Some cp else None
  | _ => None
  end.

(** Parsed JSON, as the provider's client library hands it over. *)
Inductive JSON :=
| JNull
| JBool (b : bool)
| JInt (n : Z)
| JStr (s : string)
| JList (l : list JSON)
| JDict (d : list (string * JSON)).

(** Truthiness of a Python value ([if x:], [while x:]). *)
Definition truthy (v : JSON) : bool :=
  match v with
  | JNull => false
  | JBool b => b
  | JInt n => negb (n =? 0)
  | JStr s => negb (String.eqb s EmptyString)
  | JList l => match l with [] => false | _ => true end
  | JDict d => match d with [] => false | _ => true end
  end.

Fixpoint assoc (k : string) (d : list (string * JSON)) : option JSON :=
  match d with
  | [] => None
  | (k', v) :: rest => if String.eqb k k' then Some v else assoc k rest
  end.

(** [v[k]] for a string key. *)
Definition subscript (v : JSON) (k : string) : Outcome JSON :=
  match v with
  | JDict d => match assoc k d with Some x => Ok x | None => Raise (KeyError k) end
  | JStr _ | JList _ => Raise (TypeError "indices must be integers")
  | _ => Raise (TypeError "object is not subscriptable")
  end.

(** [v[0]]. *)
Definition first_item (v : JSON) : Outcome JSON :=
  match v with
  | JList (x :: _) => Ok x
  | JList [] => Raise (IndexError "list index out of range")
  | JStr s =>
      match chars s with
      | ch :: _ => Ok (JStr ch)
      | [] => Raise (IndexError "string index out of range")
      end
  | JDict _ => Raise (KeyError "0")
  | _ => Raise (TypeError "object is not subscriptable")
  end.

(** [v.get(k)] and [v.get(k, default)] on a dict. *)
Definition dict_get (v : JSON) (k : string) (default : JSON) : Outcome JSON :=
  match v with
  | JDict d => Ok (match assoc k d with Some x => x | None => default end)
  | _ => Raise (TypeError "object has no attribute get")
  end.

(** *** [int(s)] on a string

    The builtin as CPython 3.11 runs it, with the interpreter's default
    settings and its Unicode tables (Unicode 14.0): white space and
    decimal digits of any script are first brought to ASCII, then the
    ASCII text is read as a signed decimal numeral. *)

(** [Py_ISSPACE]: the white space of ASCII text. *)
Definition is_space (c : ascii) : bool :=
  let n := nat_of_ascii c in
  ((9 <=? n) && (n <=? 13) || (n =? 32))%nat.

Definition is_digit (c : ascii) : bool :=
  let n := nat_of_ascii c in ((48 <=? n) && (n <=? 57))%nat.

Definition digit_value (c : ascii) : Z := Z.of_nat (nat_of_ascii c) - 48.

(** [Py_UNICODE_ISSPACE]: the characters [str.isspace] accepts. *)
Definition Py_UNICODE_ISSPACE (cp : Z) : bool :=
  (9 <=? cp) && (cp <=? 13) || (0x1C <=? cp) && (cp <=? 0x20)
  || (cp =? 0x85) || (cp =? 0xA0) || (cp =? 0x1680)
  || (0x2000 <=? cp) && (cp <=? 0x200A)
  || (cp =? 0x2028) || (cp =? 0x2029) || (cp =? 0x202F)
  || (cp =? 0x205F) || (cp =? 0x3000).

(** The digit zero of every run of decimal digits (general category Nd):
    the ten digits of a script are consecutive code points. *)
Definition decimal_zeros : list Z :=
  [ 0x30; 0x660; 0x6F0; 0x7C0; 0x966; 0x9E6; 0xA66; 0xAE6; 0xB66; 0xBE6;
    0xC66; 0xCE6; 0xD66; 0xDE6; 0xE50; 0xED0; 0xF20; 0x1040; 0x1090;
    0x17E0; 0x1810; 0x1946; 0x19D0; 0x1A80; 0x1A90; 0x1B50; 0x1BB0;
    0x1C40; 0x1C50; 0xA620; 0xA8D0; 0xA900; 0xA9D0; 0xA9F0; 0xAA50;
    0xABF0; 0xFF10; 0x104A0; 0x10D30; 0x11066; 0x110F0; 0x11136; 0x111D0;
    0x112F0; 0x11450; 0x114D0; 0x11650; 0x116C0; 0x11730; 0x118E0;
    0x11950; 0x11C50; 0x11D50; 0x11DA0; 0x16A60; 0x16AC0; 0x16B50;
    0x1D7CE; 0x1D7D8; 0x1D7E2; 0x1D7EC; 0x1D7F6; 0x1E140; 0x1E2F0;
    0x1E950; 0x1FBF0 ].

(** [Py_UNICODE_TODECIMAL]: the value of a decimal digit of any script. *)
Definition Py_UNICODE_TODECIMAL (cp : Z) : option Z :=
  (fun zero => cp - zero)
    <$> find (fun zero => (zero <=? cp) && (cp <? zero + 10)) decimal_zeros.

(** One character of [_PyUnicode_TransformDecimalAndSpaceToASCII]: code
    points below 127 stay, white space becomes a blank, a decimal digit
    its ASCII digit; anything else makes the text no numeral. *)
Definition to_ascii (cp : Z) : option ascii :=
  if cp <? 127 then Some (ascii_of_N (Z.to_N cp))
  else if Py_UNICODE_ISSPACE cp then Some " "%char
  else (fun d => ascii_of_N (Z.to_N (48 + d))) <$> Py_UNICODE_TODECIMAL cp.

Fixpoint transform_decimal_and_space_to_ascii (chs : list string)
    : option string :=
  match chs with
  | [] => Some EmptyString
  | ch :: rest =>
      c ← ord ch ≫= to_ascii;
      String c <$> transform_decimal_and_space_to_ascii rest
  end.

Fixpoint lstrip (s : string) : string :=
  match s with
  | String c rest => if is_space c then lstrip rest else s
  | EmptyString => EmptyString
  end.

(** The text without its trailing white space; [None] when it is all
    white space. *)
Fixpoint rstrip_nonempty (s : string) : option string :=
  match s with
  | EmptyString => None
  | String c rest =>
      match rstrip_nonempty rest with
      | Some rest' => Some (String c rest')
      | None => if is_space c then None else Some (String c EmptyString)
      end
  end.

(** Decimal digits, single underscores allowed between two digits. *)
Fixpoint digits (acc : Z) (after_digit : bool) (s : string) : option Z :=
  match s with
  | EmptyString => if after_digit then Some acc else None
  | String c rest =>
      if is_digit c then digits (acc * 10 + digit_value c) true rest
      else if Ascii.eqb c "_"%char && after_digit then digits acc false rest
      else None
  end.

(** How many digits a numeral has, leading zeros included, underscores
    not. *)
Fixpoint count_digits (s : string) : nat :=
  match s with
  | EmptyString => 0%nat
  | String c rest =>
      if is_digit c then S (count_digits rest) else count_digits rest
  end.

(** [sys.get_int_max_str_digits()], as the interpreter starts. *)
Definition int_max_str_digits : nat := 4300%nat.

(** The numeral after white space and sign are taken off: longer than
    the limit it is refused, whatever its value. *)
Definition numeral (body : string) : option Z :=
  if (int_max_str_digits <? count_digits body)%nat then None
  else digits 0 false body.

(** [int(s)]: [None] stands for the [ValueError] Python raises. *)
Definition int (s : string) : option Z :=
  text ← transform_decimal_and_space_to_ascii (chars s);
  match rstrip_nonempty (lstrip text) with
  | None => None
  | Some (String "-"%char body) => Z.opp <$> numeral body
  | Some (String "+"%char body) => numeral body
  | Some body => numeral body
  end.

(** [str(n)] on an integer. *)
Definition str (n : Z) : string := pretty n.

(** An f-string field holding an optional value: [None] prints as "None". *)
Definition fstr (s : option string) : string :=
  match s with Some x => x | None => "None" end.

(** ** The world a request runs in *)

(** Instants on one time line, in microseconds since the epoch (the
    resolution of [datetime]); time zones are not modelled. *)
Definition Timestamp := Z.

(** [timedelta(seconds=n)]. *)
Definition timedelta_seconds (n : Z) : Z := n * 1000000.

(** [datetime.fromtimestamp(t)] for [t] in whole seconds. *)
Definition datetime_fromtimestamp (t : Z) : Timestamp := t * 1000000.

(** *** Database tables *)

(** Modelled from the spec: the schema of [spotify_credentials] is not
    part of the sources.  A row holds the Credential fields of the spec
    (owner, provider id, tokens, expiry, sync status, sync counter), under
    the column names the statements of the module use.  The two
    [liked_songs_*] columns and [last_used_at] are nullable as far as the
    module can tell: the upsert guards the status with [COALESCE]. *)
Record Credential := {
  cred_id : Z;
  cred_user_id : Z;
  cred_spotify_id : string;
  cred_access_token : string;
  cred_refresh_token : string;
  cred_token_expires_at : Timestamp;
  cred_last_used_at : option Timestamp;
  cred_liked_songs_sync_status : option string;
  cred_liked_songs_count : option Z;
}.

(** Modelled from the spec: the [playlists] table of the application, not
    part of the sources, with the two columns the module reads. *)
Record Playlist := {
  pl_user_id : Z;
  pl_spotify_playlist_id : option string;
}.

(** The SQL statements of the module. *)
Inductive Statement :=
| SelectCredentials      (* SELECT * FROM spotify_credentials WHERE user_id *)
| UpdateTokens           (* UPDATE spotify_credentials SET ... WHERE user_id *)
| SelectCredentialId     (* SELECT id FROM spotify_credentials WHERE user_id *)
| UpsertCredentials      (* INSERT ... ON CONFLICT (user_id) DO UPDATE *)
| DeleteCredentials      (* DELETE FROM spotify_credentials WHERE user_id *)
| SelectImported.        (* SELECT spotify_playlist_id FROM playlists ... *)

Definition is_write (s : Statement) : bool :=
  match s with
  | UpdateTokens | UpsertCredentials | DeleteCredentials => true
  | _ => false
  end.

Definition on_credentials (s : Statement) : bool :=
  match s with SelectImported => false | _ => true end.

(** *** The provider *)

(** The JSON body of the provider's token endpoint. *)
Record TokenResponse := {
  resp_access_token : string;
  resp_refresh_token : option string;
  resp_expires_in : Z;
}.

(** The [token_info] dict of the OAuth client library: the response plus
    the values the library adds ([expires_at] in whole seconds, [scope]). *)
Record TokenInfo := {
  tok_access_token : string;
  tok_refresh_token : option string;
  tok_expires_in : Z;
  tok_expires_at : Z;
  tok_scope : list string;
}.

(** The provider's playlist listing as the client sees it: a page of
    items, and what following its [next] cursor yields.  A listing is a
    finite chain of pages. *)
Inductive Paging :=
| LastPage (items : list JSON)                   (* "next": null *)
| MorePages (items : list JSON) (rest : Paging)  (* "next": url, served *)
| BrokenPage (items : list JSON) (e : Exception). (* "next": url, request fails *)

Definition paging_items (p : Paging) : list JSON :=
  match p with
  | LastPage items | MorePages items _ | BrokenPage items _ => items
  end.

Inductive Grant :=
| AuthorizationCode (code : string)
| RefreshToken (refresh_token : string).

(** Spotify, as an oracle: what each request of the module is answered. *)
Record Provider := {
  token_endpoint : Grant -> Outcome TokenResponse;
  api_me : string -> Outcome JSON;
  api_me_playlists : string -> Z -> Outcome Paging;
  api_recently_played : string -> Z -> Outcome JSON;
}.

(** *** Observable calls *)

Inductive Event :=
| Database (s : Statement) (user_id : Z)
| TokenRequest (g : Grant)
| ApiRequest (endpoint : string) (auth : string)
| CacheRead (handler : nat)
| CacheWrite (handler : nat)
| Printed (msg : string)
| AuthPrompt.            (* the library asks for a code interactively *)

Definition is_network (e : Event) : bool :=
  match e with TokenRequest _ | ApiRequest _ _ => true | _ => false end.

Definition is_api_request (e : Event) : bool :=
  match e with ApiRequest _ _ => true | _ => false end.

Definition is_refresh (e : Event) : bool :=
  match e with TokenRequest (RefreshToken _) => true | _ => false end.

Definition touches_credentials (e : Event) : bool :=
  match e with Database s _ => on_credentials s | _ => false end.

Definition is_db_write (e : Event) : bool :=
  match e with Database s _ => is_write s | _ => false end.

(** *** Configuration and state *)

(** The environment variables read at import. *)
Record Config := {
  FRONTEND_URL : option string;
  SPOTIFY_CLIENT_ID : option string;
  SPOTIFY_CLIENT_SECRET : option string;
  SPOTIFY_REDIRECT_URI : option string;
}.

(** A background task handed to the framework:
    [sync_liked_songs_background(user_id, sp)]. *)
Record Task := {
  task_user_id : Z;
  task_auth : string;
}.

Record World := {
  config : Config;
  provider : Provider;
  (** the wall clock: the instant the n-th reading returns *)
  clock : nat -> Timestamp;
  (** which statements the database rejects, and with what message *)
  db_fault : Statement -> option string;
  (** what asking for an authorization code interactively comes to: the
      code entered at the browser or console of the process, or the
      exception of the attempt *)
  auth_response : Outcome string;
  spotify_credentials : list Credential;
  next_credential_id : Z;
  playlists : list Playlist;
  (** the [MemoryCacheHandler] objects alive in the process, by address;
      each holds its [token_info] attribute *)
  handlers : list (option TokenInfo);
  clock_reads : nat;
  background : list Task;
  trace : list Event;
}.

Definition set_credentials (t : list Credential) (w : World) : World :=
  {| config := config w; provider := provider w; clock := clock w;
     db_fault := db_fault w; auth_response := auth_response w;
     spotify_credentials := t; next_credential_id := next_credential_id w;
     playlists := playlists w; handlers := handlers w;
     clock_reads := clock_reads w; background := background w;
     trace := trace w |}.

Definition set_next_credential_id (n : Z) (w : World) : World :=
  {| config := config w; provider := provider w; clock := clock w;
     db_fault := db_fault w; auth_response := auth_response w;
     spotify_credentials := spotify_credentials w; next_credential_id := n;
     playlists := playlists w; handlers := handlers w;
     clock_reads := clock_reads w; background := background w;
     trace := trace w |}.

Definition set_handlers (h : list (option TokenInfo)) (w : World) : World :=
  {| config := config w; provider := provider w; clock := clock w;
     db_fault := db_fault w; auth_response := auth_response w;
     spotify_credentials := spotify_credentials w;
     next_credential_id := next_credential_id w;
     playlists := playlists w; handlers := h;
     clock_reads := clock_reads w; background := background w;
     trace := trace w |}.

Definition set_clock_reads (n : nat) (w : World) : World :=
  {| config := config w; provider := provider w; clock := clock w;
     db_fault := db_fault w; auth_response := auth_response w;
     spotify_credentials := spotify_credentials w;
     next_credential_id := next_credential_id w;
     playlists := playlists w; handlers := handlers w;
     clock_reads := n; background := background w;
     trace := trace w |}.

Definition set_background (b : list Task) (w : World) : World :=
  {| config := config w; provider := provider w; clock := clock w;
     db_fault := db_fault w; auth_response := auth_response w;
     spotify_credentials := spotify_credentials w;
     next_credential_id := next_credential_id w;
     playlists := playlists w; handlers := handlers w;
     clock_reads := clock_reads w; background := b;
     trace := trace w |}.

Definition set_trace (t : list Event) (w : World) : World :=
  {| config := config w; provider := provider w; clock := clock w;
     db_fault := db_fault w; auth_response := auth_response w;
     spotify_credentials := spotify_credentials w;
     next_credential_id := next_credential_id w;
     playlists := playlists w; handlers := handlers w;
     clock_reads := clock_reads w; background := background w;
     trace := t |}.

Definition set_db_fault (f : Statement -> option string) (w : World) : World :=
  {| config := config w; provider := provider w; clock := clock w;
     db_fault := f; auth_response := auth_response w;
     spotify_credentials := spotify_credentials w;
     next_credential_id := next_credential_id w;
     playlists := playlists w; handlers := handlers w;
     clock_reads := clock_reads w; background := background w;
     trace := trace w |}.

(** ** The monad of the handlers *)

Definition M (A : Type) : Type := World -> Outcome A * World.

Definition ret {A} (a : A) : M A := fun w => (Ok a, w).

Definition bind {A B} (m : M A) (k : A -> M B) : M B :=
  fun w => match m w with
           | (Ok a, w') => k a w'
           | (Raise e, w') => (Raise e, w')
           end.

Definition raise {A} (e : Exception) : M A := fun w => (Raise e, w).

(** [try: body except Exception as e: handler]. *)
Definition try_except {A} (body : M A) (handler : Exception -> M A) : M A :=
  fun w => match body w with
           | (Ok a, w') => (Ok a, w')
           | (Raise e, w') => handler e w'
           end.

(** A pure computation that may raise. *)
Definition lift {A} (o : Outcome A) : M A := fun w => (o, w).

Declare Scope py_scope.
Delimit Scope py_scope with py.
Notation "x <- m ;; k" := (bind m (fun x => k))
  (at level 100, m at next level, right associativity) : py_scope.
Notation "m ;; k" := (bind m (fun _ => k))
  (at level 100, right associativity) : py_scope.
Open Scope py_scope.

Definition get {A} (f : World -> A) : M A := fun w => (Ok (f w), w).

Definition emit (e : Event) : M unit :=
  fun w => (Ok tt, set_trace (trace w ++ [e]) w).

(** [datetime.now(timezone.utc)]. *)
Definition datetime_now : M Timestamp :=
  fun w => (Ok (clock w (clock_reads w)), set_clock_reads (S (clock_reads w)) w).

(** [int(time.time())]: the clock in whole seconds. *)
Definition time_time : M Z :=
  now <- datetime_now ;; ret (now / 1000000).

(** [print(msg)]. *)
Definition print (msg : string) : M unit := emit (Printed msg).

(** ** The database *)

(** Modelled from the spec: [database], the connection object of the
    application ([from database import database]), whose module is not
    part of the sources; the relational database is an external
    collaborator.  Every statement is logged, and either rejected by the
    database ([db_fault]) or run on the tables. *)
Definition execute {A} (s : Statement) (user_id : Z) (run : M A) : M A :=
  emit (Database s user_id) ;;
  fault <- get (fun w => db_fault w s) ;;
  match fault with
  | Some msg => raise (DatabaseError msg)
  | None => run
  end.

Definition owned_by (user_id : Z) (r : Credential) : bool :=
  cred_user_id r =? user_id.

(** [fetch_one("SELECT * FROM spotify_credentials WHERE user_id = :user_id")]. *)
Definition select_credentials (user_id : Z) : M (option Credential) :=
  execute SelectCredentials user_id
    (get (fun w => find (owned_by user_id) (spotify_credentials w))).

(** [execute("SELECT id FROM spotify_credentials WHERE user_id = :user_id")]:
    the first column of the first row, or [None]. *)
Definition select_credential_id (user_id : Z) : M (option Z) :=
  execute SelectCredentialId user_id
    (get (fun w => cred_id <$> find (owned_by user_id) (spotify_credentials w))).

(** Truthiness of the value [execute] returns ([if result:],
    [bool(result)]): [None] and [0] are falsy. *)
Definition truthy_result (result : option Z) : bool :=
  match result with
  | None => false
  | Some n => negb (n =? 0)
  end.

Definition refreshed (access_token refresh_token : string)
    (expires_at now : Timestamp) (r : Credential) : Credential :=
  {| cred_id := cred_id r;
     cred_user_id := cred_user_id r;
     cred_spotify_id := cred_spotify_id r;
     cred_access_token := access_token;
     cred_refresh_token := refresh_token;
     cred_token_expires_at := expires_at;
     cred_last_used_at := Some now;
     cred_liked_songs_sync_status := cred_liked_songs_sync_status r;
     cred_liked_songs_count := cred_liked_songs_count r |}.

(** [UPDATE spotify_credentials SET access_token, refresh_token,
    token_expires_at, last_used_at = CURRENT_TIMESTAMP WHERE user_id]. *)
Definition update_tokens (user_id : Z) (access_token refresh_token : string)
    (expires_at : Timestamp) : M unit :=
  execute UpdateTokens user_id
    (now <- datetime_now ;;
     fun w => (Ok tt,
       set_credentials
         (map (fun r => if owned_by user_id r
                        then refreshed access_token refresh_token expires_at now r
                        else r)
              (spotify_credentials w)) w)).

(** SQL comparison with a literal: unknown (not true) on NULL. *)
Definition sql_eq (v : option string) (lit : string) : bool :=
  match v with
  | Some s => String.eqb s lit
  | None => false
  end.

Definition COALESCE (v : option string) (lit : string) : string :=
  match v with Some s => s | None => lit end.

(** The [CASE] of the upsert: the status the conflicting row gets. *)
Definition relinked_status (status : option string) : option string :=
  if sql_eq status "completed" then Some "needs_update"
  else Some (COALESCE status "not_started").

(** The [DO UPDATE SET] of the upsert on the conflicting row. *)
Definition relinked (spotify_id access_token refresh_token : string)
    (expires_at now : Timestamp) (r : Credential) : Credential :=
  {| cred_id := cred_id r;
     cred_user_id := cred_user_id r;
     cred_spotify_id := spotify_id;
     cred_access_token := access_token;
     cred_refresh_token := refresh_token;
     cred_token_expires_at := expires_at;
     cred_last_used_at := Some now;
     cred_liked_songs_sync_status :=
       relinked_status (cred_liked_songs_sync_status r);
     cred_liked_songs_count := cred_liked_songs_count r |}.

(** The row the [INSERT] proposes.  [id] comes from the table's sequence;
    [last_used_at] is not listed by the statement and is left NULL. *)
Definition inserted (id user_id : Z) (spotify_id access_token refresh_token : string)
    (expires_at : Timestamp) : Credential :=
  {| cred_id := id;
     cred_user_id := user_id;
     cred_spotify_id := spotify_id;
     cred_access_token := access_token;
     cred_refresh_token := refresh_token;
     cred_token_expires_at := expires_at;
     cred_last_used_at := None;
     cred_liked_songs_sync_status := Some "not_started";
     cred_liked_songs_count := Some 0 |}.

(** [INSERT ... ON CONFLICT (user_id) DO UPDATE SET ...] on the table. *)
Definition upsert (id user_id : Z) (spotify_id access_token refresh_token : string)
    (expires_at now : Timestamp) (table : list Credential) : list Credential :=
  if existsb (owned_by user_id) table
  then map (fun r => if owned_by user_id r
                     then relinked spotify_id access_token refresh_token expires_at now r
                     else r) table
  else table ++ [inserted id user_id spotify_id access_token refresh_token expires_at].

(** A query argument bound to a text column must be a [str]; the driver
    refuses anything else before the statement is sent.  Its message goes
    on to name the argument and the value, which is not modelled. *)
Definition as_text (v : JSON) : Outcome string :=
  match v with
  | JStr s => Ok s
  | _ => Raise (DatabaseError "invalid input for query argument")
  end.

Definition upsert_credentials (user_id : Z) (spotify_id : JSON)
    (access_token refresh_token : string) (expires_at : Timestamp) : M unit :=
  execute UpsertCredentials user_id
    (spotify_id <- lift (as_text spotify_id) ;;
     now <- datetime_now ;;
     fun w => (Ok tt,
       set_next_credential_id (next_credential_id w + 1)
         (set_credentials
            (upsert (next_credential_id w) user_id spotify_id access_token
                    refresh_token expires_at now (spotify_credentials w)) w))).

(** [DELETE FROM spotify_credentials WHERE user_id = :user_id]. *)
Definition delete_credentials (user_id : Z) : M unit :=
  execute DeleteCredentials user_id
    (fun w => (Ok tt,
       set_credentials
         (filter (fun r => negb (owned_by user_id r)) (spotify_credentials w)) w)).

(** [fetch_all("SELECT spotify_playlist_id FROM playlists WHERE user_id =
    :user_id AND spotify_playlist_id IS NOT NULL")]. *)
Definition imported_of (user_id : Z) (table : list Playlist) : list string :=
  omap (fun p => if pl_user_id p =? user_id then pl_spotify_playlist_id p else None)
       table.

Definition select_imported (user_id : Z) : M (list string) :=
  execute SelectImported user_id
    (get (fun w => imported_of user_id (playlists w))).

(** ** [MemoryCacheHandler] (lines 43-51)

    An object is an address in [handlers]; the cell holds its
    [token_info] attribute. *)

(** [MemoryCacheHandler()]: a new object with [token_info = None]. *)
Definition MemoryCacheHandler : M nat :=
  fun w => (Ok (length (handlers w)), set_handlers (handlers w ++ [None]) w).

Definition get_cached_token (self : nat) : M (option TokenInfo) :=
  emit (CacheRead self) ;;
  get (fun w => default None (handlers w !! self)).

Definition save_token_to_cache (self : nat) (token_info : TokenInfo) : M unit :=
  emit (CacheWrite self) ;;
  fun w => (Ok tt, set_handlers (<[self := Some token_info]> (handlers w)) w).

(** ** The OAuth client library ([spotipy.oauth2.SpotifyOAuth])

    An external library, modelled as far as it talks to the token endpoint
    and to the cache handler it was given: a helper keeps a reference to
    its cache handler, consults it before an authorization-code exchange,
    and stores every token it obtains in it. *)
Record SpotifyOAuth := {
  oauth_client_id : option string;
  oauth_client_secret : option string;
  oauth_redirect_uri : option string;
  oauth_scope : list string;
  oauth_show_dialog : bool;
  oauth_cache_handler : nat;
}.

(** The authorize URL, by its query parameters. *)
Record AuthorizeUrl := {
  url_client_id : option string;
  url_redirect_uri : option string;
  url_scope : list string;
  url_state : string;
  url_show_dialog : bool;
}.

Definition get_authorize_url (self : SpotifyOAuth) (state : string) : AuthorizeUrl :=
  {| url_client_id := oauth_client_id self;
     url_redirect_uri := oauth_redirect_uri self;
     url_scope := oauth_scope self;
     url_state := state;
     url_show_dialog := oauth_show_dialog self |}.

(** A POST to the token endpoint. *)
Definition post_token (g : Grant) : M TokenResponse :=
  emit (TokenRequest g) ;;
  p <- get provider ;;
  lift (token_endpoint p g).

(** The library completes the response with [expires_at] and its own
    [scope]. *)
Definition add_custom_values (self : SpotifyOAuth) (r : TokenResponse)
    (refresh_token : option string) : M TokenInfo :=
  now <- time_time ;;
  ret {| tok_access_token := resp_access_token r;
         tok_refresh_token := refresh_token;
         tok_expires_in := resp_expires_in r;
         tok_expires_at := now + resp_expires_in r;
         tok_scope := oauth_scope self |}.

(** [token_info["refresh_token"]]. *)
Definition refresh_token_of (token_info : TokenInfo) : M string :=
  match tok_refresh_token token_info with
  | Some t => ret t
  | None => raise (KeyError "refresh_token")
  end.

(** [refresh_access_token(refresh_token)]: one refresh grant; a response
    without a refresh token keeps the one that was sent. *)
Definition refresh_access_token (self : SpotifyOAuth) (refresh_token : string)
    : M TokenInfo :=
  r <- post_token (RefreshToken refresh_token) ;;
  token_info <- add_custom_values self r
    (Some (default refresh_token (resp_refresh_token r))) ;;
  save_token_to_cache (oauth_cache_handler self) token_info ;;
  ret token_info.

Definition is_scope_subset (needle haystack : list string) : bool :=
  forallb (fun s => existsb (String.eqb s) haystack) needle.

Definition is_token_expired (token_info : TokenInfo) : M bool :=
  now <- time_time ;;
  ret (tok_expires_at token_info - now <? 60).

Definition validate_token (self : SpotifyOAuth) (cached : option TokenInfo)
    : M (option TokenInfo) :=
  match cached with
  | None => ret None
  | Some token_info =>
      if negb (is_scope_subset (oauth_scope self) (tok_scope token_info))
      then ret None
      else
        expired <- is_token_expired token_info ;;
        if expired : bool then
          rt <- refresh_token_of token_info ;;
          token_info <- refresh_access_token self rt ;;
          ret (Some token_info)
        else ret (Some token_info)
  end.

(** [get_auth_response()]: the library asks for an authorization code
    itself, through a browser, a local server or the console.  A server
    process has no terminal, and the prompt ends in [EOFError]. *)
Definition get_auth_response : M string :=
  emit AuthPrompt ;;
  response <- get auth_response ;;
  lift response.

(** [get_access_token(code, as_dict=True)]: a valid cached token is
    returned as it is; only without one is a code exchanged, the one
    given or, when that is empty, the one of [get_auth_response]
    ([code or self.get_auth_response()]). *)
Definition get_access_token (self : SpotifyOAuth) (code : string) : M TokenInfo :=
  cached <- get_cached_token (oauth_cache_handler self) ;;
  valid <- validate_token self cached ;;
  match valid with
  | Some token_info =>
      expired <- is_token_expired token_info ;;
      if expired : bool then
        rt <- refresh_token_of token_info ;;
        refresh_access_token self rt
      else ret token_info
  | None =>
      code <- (if String.eqb code EmptyString
               then get_auth_response
               else ret code) ;;
      r <- post_token (AuthorizationCode code) ;;
      token_info <- add_custom_values self r (resp_refresh_token r) ;;
      save_token_to_cache (oauth_cache_handler self) token_info ;;
      ret token_info
  end.

(** ** The API client ([spotipy.Spotify]) *)

Record Spotify := { auth : string }.

Definition current_user (sp : Spotify) : M JSON :=
  emit (ApiRequest "me" (auth sp)) ;;
  p <- get provider ;;
  lift (api_me p (auth sp)).

Definition current_user_playlists (sp : Spotify) (limit : Z) : M Paging :=
  emit (ApiRequest "me/playlists" (auth sp)) ;;
  p <- get provider ;;
  lift (api_me_playlists p (auth sp) limit).

Definition current_user_recently_played (sp : Spotify) (limit : Z) : M JSON :=
  emit (ApiRequest "me/player/recently-played" (auth sp)) ;;
  p <- get provider ;;
  lift (api_recently_played p (auth sp) limit).

(** ** The module [spotify_auth] *)

Definition SPOTIFY_SCOPES : list string :=
  [ "user-read-private"; "user-read-email"; "user-top-read";
    "playlist-modify-public"; "playlist-modify-private"; "user-follow-read";
    "user-library-read"; "user-library-modify"; "user-read-currently-playing";
    "user-read-playback-state"; "user-read-recently-played" ].

(** [all([...])] on environment variables: set and not empty. *)
Definition all_set (vars : list (option string)) : bool :=
  forallb (fun v => match v with
                    | Some s => negb (String.eqb s EmptyString)
                    | None => false
                    end) vars.

(** The address of the cache handler created at line 61, the first object
    the process allocates. *)
Definition sp_oauth_cache : nat := 0%nat.

(** Import of the module (lines 16-62): the environment is checked and the
    process-wide [sp_oauth] is created with its own [MemoryCacheHandler]. *)
Definition import_module (w : World) : Outcome World :=
  if negb (all_set [ SPOTIFY_CLIENT_ID (config w);
                     SPOTIFY_CLIENT_SECRET (config w);
                     SPOTIFY_REDIRECT_URI (config w) ])
  then Raise (ValueError "missing required spotify environment variables")
  else Ok (set_handlers [None] w).

(** The process-wide helper (lines 55-62). *)
Definition sp_oauth (w : World) : SpotifyOAuth :=
  {| oauth_client_id := SPOTIFY_CLIENT_ID (config w);
     oauth_client_secret := SPOTIFY_CLIENT_SECRET (config w);
     oauth_redirect_uri := SPOTIFY_REDIRECT_URI (config w);
     oauth_scope := SPOTIFY_SCOPES;
     oauth_show_dialog := true;
     oauth_cache_handler := sp_oauth_cache |}.

(** A key of the users table: an integer column holds 64 bits at most. *)
Definition is_key (n : Z) : bool := (- 2 ^ 63 <=? n) && (n <? 2 ^ 63).

(** Modelled from the spec: [auth.User], which the sources import but do
    not contain; the current authenticated user (id, username) that
    [get_current_user] yields.  The id is the user's key in the users
    table. *)
Record User := {
  uid : Z;
  username : string;
  uid_is_key : Is_true (is_key uid);
}.

(** What a handler returns. *)
Record PlaylistInfo := {
  info_id : JSON;
  info_name : JSON;
  info_description : JSON;
  info_is_imported : bool;
}.

Record TrackInfo := {
  track_name : JSON;
  artist_name : list JSON;
  album_name : JSON;
  played_at : JSON;
  spotify_url : JSON;
  album_art_url : JSON;
}.

Inductive Response :=
| RedirectResponse (url : string)
| ConnectUrl (url : AuthorizeUrl)              (* {"url": auth_url} *)
| ConnectionStatus (is_connected : bool)       (* {"is_connected": ...} *)
| Message (message : string)                   (* {"message": ...} *)
| Playlists (l : list PlaylistInfo)
| RecentlyPlayed (recently_played : list TrackInfo).

(** The status line the framework answers with. *)
Definition http_status (o : Outcome Response) : Z :=
  match o with
  | Ok (RedirectResponse _) => 307
  | Ok _ => 200
  | Raise (HTTPException status_code _) => status_code
  | Raise (RequestValidationError _) => 422
  | Raise _ => 500
  end.

(** *** [get_spotify_client] (lines 66-107) *)
Definition get_spotify_client (user : User) : M Spotify :=
  spotify_creds <- select_credentials (uid user) ;;
  match spotify_creds with
  | None => raise (HTTPException 401 "spotify account not connected")
  | Some spotify_creds =>
      now <- datetime_now ;;
      if cred_token_expires_at spotify_creds <=? now then
        cache_handler <- MemoryCacheHandler ;;
        cfg <- get config ;;
        let user_oauth :=
          {| oauth_client_id := SPOTIFY_CLIENT_ID cfg;
             oauth_client_secret := SPOTIFY_CLIENT_SECRET cfg;
             oauth_redirect_uri := SPOTIFY_REDIRECT_URI cfg;
             oauth_scope := SPOTIFY_SCOPES;
             oauth_show_dialog := false;
             oauth_cache_handler := cache_handler |} in
        token_info <- refresh_access_token user_oauth
                        (cred_refresh_token spotify_creds) ;;
        refresh_token <- refresh_token_of token_info ;;
        now' <- datetime_now ;;
        update_tokens (uid user) (tok_access_token token_info) refresh_token
          (now' + timedelta_seconds (tok_expires_in token_info)) ;;
        ret {| auth := tok_access_token token_info |}
      else ret {| auth := cred_access_token spotify_creds |}
  end.

(** *** [spotify_connect] (lines 115-130) *)
Definition spotify_connect (current_user : User) : M Response :=
  result <- select_credential_id (uid current_user) ;;
  if truthy_result result
  then raise (HTTPException 400 "spotify already connected")
  else
    oauth <- get sp_oauth ;;
    let auth_url := get_authorize_url oauth (str (uid current_user)) in
    ret (ConnectUrl auth_url).

(** *** [spotify_callback] (lines 133-207) *)

(** [if error:] on an optional string. *)
Definition error_given (error : option string) : bool :=
  match error with
  | Some e => negb (String.eqb e EmptyString)
  | None => false
  end.

(** [background_tasks] is [true] when the framework injected a
    [BackgroundTasks] object, [false] for [None]. *)
Definition spotify_callback (code state : string) (error : option string)
    (background_tasks : bool) : M Response :=
  if error_given error
  then raise (HTTPException 400 ("spotify auth error: " +:+ fstr error))
  else
    match int state with
    | None => raise (HTTPException 400 "invalid state parameter")
    | Some user_id =>
        try_except
          (oauth <- get sp_oauth ;;
           token_info <- get_access_token oauth code ;;
           let sp := {| auth := tok_access_token token_info |} in
           spotify_user <- current_user sp ;;
           let expires_at := datetime_fromtimestamp (tok_expires_at token_info) in
           try_except
             (spotify_id <- lift (subscript spotify_user "id") ;;
              refresh_token <- refresh_token_of token_info ;;
              upsert_credentials user_id spotify_id
                (tok_access_token token_info) refresh_token expires_at)
             (fun e => print ("error: " +:+ str_exception e)) ;;
           (if background_tasks
            then fun w => (Ok tt,
                   set_background
                     (background w ++ [{| task_user_id := user_id;
                                          task_auth := auth sp |}]) w)
            else ret tt) ;;
           url <- get (fun w => fstr (FRONTEND_URL (config w))) ;;
           ret (RedirectResponse (url +:+ "?spotify_connected=true")))
          (fun e =>
             url <- get (fun w => fstr (FRONTEND_URL (config w))) ;;
             ret (RedirectResponse (url +:+ "?spotify_error=" +:+ str_exception e)))
    end.

(** The query parameters of a request to [/callback]. *)
Record CallbackQuery := {
  q_code : option string;
  q_state : option string;
  q_error : option string;
}.

(** The framework binds the parameters of the signature (lines 134-139):
    [code] and [state] have no default and are required; a request without
    one of them is answered 422 and the handler is not called. *)
Definition GET_callback (q : CallbackQuery) : M Response :=
  match q_code q, q_state q with
  | Some code, Some state => spotify_callback code state (q_error q) true
  | None, Some _ => raise (RequestValidationError ["code"])
  | Some _, None => raise (RequestValidationError ["state"])
  | None, None => raise (RequestValidationError ["code"; "state"])
  end.

(** *** [spotify_connection_status] and [spotify_disconnect] (lines 210-227) *)
Definition spotify_connection_status (current_user : User) : M Response :=
  result <- select_credential_id (uid current_user) ;;
  ret (ConnectionStatus (truthy_result result)).

Definition spotify_disconnect (current_user : User) : M Response :=
  delete_credentials (uid current_user) ;;
  ret (Message "spotify disconnected successfully").

(** *** [get_spotify_playlists] (lines 230-274) *)

(** The loop of lines 242-244 on the page just received: while the page
    has a [next] cursor, follow it and extend [playlists] with the items
    of the page it yields. *)
Fixpoint follow_pages (sp : Spotify) (results : Paging) (playlists : list JSON)
    : M (list JSON) :=
  match results with
  | LastPage _ => ret playlists
  | MorePages _ results' =>
      emit (ApiRequest "next" (auth sp)) ;;
      follow_pages sp results' (playlists ++ paging_items results')
  | BrokenPage _ e =>
      emit (ApiRequest "next" (auth sp)) ;;
      raise e
  end.

(** [x in ids] for a set of strings: lists and dicts are unhashable. *)
Definition contains (ids : gset string) (x : JSON) : Outcome bool :=
  match x with
  | JStr s => Ok (bool_decide (s ∈ ids))
  | JList _ | JDict _ => Raise (TypeError "unhashable type")
  | _ => Ok false
  end.

Definition and_then {A B} (o : Outcome A) (k : A -> Outcome B) : Outcome B :=
  match o with
  | Ok a => k a
  | Raise e => Raise e
  end.

(** One record of the comprehension of lines 262-270. *)
Definition format_playlist (imported_playlist_ids : gset string) (playlist : JSON)
    : Outcome PlaylistInfo :=
  and_then (subscript playlist "id") (fun id =>
  and_then (subscript playlist "name") (fun name =>
  and_then (dict_get playlist "description" JNull) (fun description =>
  and_then (subscript playlist "id") (fun id' =>
  and_then (contains imported_playlist_ids id') (fun is_imported =>
  Ok {| info_id := id;
        info_name := name;
        info_description := description;
        info_is_imported := is_imported |}))))).

Fixpoint traverse {A B} (f : A -> Outcome B) (l : list A) : Outcome (list B) :=
  match l with
  | [] => Ok []
  | x :: rest =>
      and_then (f x) (fun y =>
      and_then (traverse f rest) (fun ys => Ok (y :: ys)))
  end.

Definition get_spotify_playlists (current_user : User) (sp : Spotify) : M Response :=
  try_except
    (results <- current_user_playlists sp 50 ;;
     let playlists := paging_items results in
     playlists <- follow_pages sp results playlists ;;
     imported_playlists <- select_imported (uid current_user) ;;
     let imported_playlist_ids : gset string := list_to_set imported_playlists in
     formatted <- lift (traverse (format_playlist imported_playlist_ids) playlists) ;;
     ret (Playlists formatted))
    (fun e => raise (HTTPException 500
                       ("failed to fetch spotify playlists: " +:+ str_exception e))).

(** *** [get_recently_played_tracks] (lines 278-311) *)

(** [for x in v]. *)
Definition iterate (v : JSON) : Outcome (list JSON) :=
  match v with
  | JList l => Ok l
  | JDict d => Ok (map (fun kv => JStr (fst kv)) d)
  | JStr s => Ok (map JStr (chars s))
  | _ => Raise (TypeError "object is not iterable")
  end.

Definition path2 (v : JSON) (a b : string) : Outcome JSON :=
  and_then (subscript v a) (fun x => subscript x b).

Definition path3 (v : JSON) (a b c : string) : Outcome JSON :=
  and_then (path2 v a b) (fun x => subscript x c).

Definition format_track (item : JSON) : Outcome TrackInfo :=
  and_then (path2 item "track" "name") (fun name =>
  and_then (path2 item "track" "artists") (fun artists =>
  and_then (iterate artists) (fun artists =>
  and_then (traverse (fun artist => subscript artist "name") artists) (fun artist_names =>
  and_then (path3 item "track" "album" "name") (fun album =>
  and_then (subscript item "played_at") (fun played =>
  and_then (path3 item "track" "external_urls" "spotify") (fun url =>
  and_then (path3 item "track" "album" "images") (fun images =>
  and_then (if truthy images
            then and_then (path3 item "track" "album" "images") (fun images' =>
                 and_then (first_item images') (fun image => subscript image "url"))
            else Ok JNull) (fun art =>
  Ok {| track_name := name;
        artist_name := artist_names;
        album_name := album;
        played_at := played;
        spotify_url := url;
        album_art_url := art |}))))))))).

Definition get_recently_played_tracks (limit : Z) (user : User) (sp : Spotify)
    : M Response :=
  try_except
    (response <- current_user_recently_played sp limit ;;
     tracks <- lift (dict_get response "items" (JList [])) ;;
     tracks <- lift (iterate tracks) ;;
     formatted_tracks <- lift (traverse format_track tracks) ;;
     ret (RecentlyPlayed formatted_tracks))
    (fun e => raise (HTTPException 500
                       ("Failed to fetch recently played tracks: " +:+ str_exception e))).

(** *** Routes with dependencies

    [Depends(get_spotify_client)] is resolved before the handler is
    called; what it raises is the answer of the request. *)
Definition GET_playlists (current_user : User) : M Response :=
  sp <- get_spotify_client current_user ;;
  get_spotify_playlists current_user sp.

Definition GET_recently_played (limit : Z) (user : User) : M Response :=
  sp <- get_spotify_client user ;;
  get_recently_played_tracks limit user sp.

(** ** Worlds to run the handlers in *)

Definition demo_page1 : list JSON :=
  [ JDict [("id", JStr "p1"); ("name", JStr "Road trip");
           ("description", JStr "for the car"); ("public", JBool true)] ].

Definition demo_page2 : list JSON :=
  [ JDict [("id", JStr "p2"); ("name", JStr "Focus")] ].

(** A provider that grants one-hour tokens named after the grant, knows
    one profile per token and lists two pages of playlists. *)
Definition demo_provider : Provider :=
  {| token_endpoint := fun g =>
       match g with
       | AuthorizationCode code =>
           Ok {| resp_access_token := "access-" +:+ code;
                 resp_refresh_token := Some ("refresh-" +:+ code);
                 resp_expires_in := 3600 |}
       | RefreshToken refresh_token =>
           Ok {| resp_access_token := "renewed-" +:+ refresh_token;
                 resp_refresh_token := None;
                 resp_expires_in := 3600 |}
       end;
     api_me := fun auth => Ok (JDict [("id", JStr ("user-of-" +:+ auth))]);
     api_me_playlists := fun _ _ => Ok (MorePages demo_page1 (LastPage demo_page2));
     api_recently_played := fun _ _ => Ok (JDict [("items", JList [])]) |}.

Definition demo_config : Config :=
  {| FRONTEND_URL := Some "https://tubify.test";
     SPOTIFY_CLIENT_ID := Some "client";
     SPOTIFY_CLIENT_SECRET := Some "secret";
     SPOTIFY_REDIRECT_URI := Some "https://tubify.test/api/spotify/callback" |}.

(** Ten o'clock of some day, then one second per reading. *)
Definition demo_clock (n : nat) : Timestamp :=
  timedelta_seconds (36000 + Z.of_nat n).

(** The process right after import, on an empty database. *)
Definition fresh_world : World :=
  {| config := demo_config;
     provider := demo_provider;
     clock := demo_clock;
     db_fault := fun _ => None;
     auth_response := Raise (EOFError "EOF when reading a line");
     spotify_credentials := [];
     next_credential_id := 1;
     playlists := [ {| pl_user_id := 7; pl_spotify_playlist_id := Some "p1" |};
                    {| pl_user_id := 8; pl_spotify_playlist_id := Some "p2" |};
                    {| pl_user_id := 7; pl_spotify_playlist_id := None |} ];
     handlers := [None];
     clock_reads := 0;
     background := [];
     trace := [] |}.

(** User 7 linked an account; [expires_at] and [status] are the row's
    expiry and sync status. *)
Definition linked_row (expires_at : Timestamp) (status : option string) : Credential :=
  {| cred_id := 1;
     cred_user_id := 7;
     cred_spotify_id := "ann";
     cred_access_token := "access-old";
     cred_refresh_token := "refresh-old";
     cred_token_expires_at := expires_at;
     cred_last_used_at := None;
     cred_liked_songs_sync_status := status;
     cred_liked_songs_count := Some 12 |}.

Definition linked_world (expires_at : Timestamp) (status : option string) : World :=
  set_next_credential_id 2
    (set_credentials [linked_row expires_at status] fresh_world).

Definition ann : User := {| uid := 7; username := "ann"; uid_is_key := I |}.
Definition bob : User := {| uid := 8; username := "bob"; uid_is_key := I |}.

(** ** Vocabulary of the properties *)

(** How many logged calls satisfy [p]. *)
Definition calls (p : Event -> bool) (w : World) : nat :=
  length (List.filter p (trace w)).

(** The Credential row of a user, if the user linked an account. *)
Definition credential_of (user_id : Z) (w : World) : option Credential :=
  find (owned_by user_id) (spotify_credentials w).

(** How many Credential rows a user owns. *)
Definition rows_of (user_id : Z) (table : list Credential) : nat :=
  length (List.filter (owned_by user_id) table).

(** [UNIQUE (user_id)], the constraint [ON CONFLICT (user_id)] relies on. *)
Definition unique_users (table : list Credential) : Prop :=
  NoDup (map cred_user_id table).

(** Row ids are drawn from the table's sequence, which starts at 1. *)
Definition serial_ids (table : list Credential) : Prop :=
  Forall (fun r => 0 < cred_id r) table.

(** The listing made of a first page and the pages that follow it. *)
Fixpoint listing (first : list JSON) (more : list (list JSON)) : Paging :=
  match more with
  | [] => LastPage first
  | page :: pages => MorePages first (listing page pages)
  end.

(** The playlists table has a row of this user for this provider id. *)
Definition imported (user_id : Z) (table : list Playlist) (spotify_playlist_id : string)
    : Prop :=
  exists row, In row table /\ pl_user_id row = user_id /\
              pl_spotify_playlist_id row = Some spotify_playlist_id.

(** A wall clock that is set back two hours after its first reading
    (10:00:00, then 08:00:01, 08:00:02, ...), in a process where the token
    of user 7 expires at 10:00:00. *)
Definition set_back_clock (n : nat) : Timestamp :=
  match n with
  | O => timedelta_seconds 36000
  | S _ => timedelta_seconds (28800 + Z.of_nat n)
  end.

Definition set_back_world : World :=
  {| config := demo_config;
     provider := demo_provider;
     clock := set_back_clock;
     db_fault := fun _ => None;
     auth_response := Raise (EOFError "EOF when reading a line");
     spotify_credentials := [linked_row (timedelta_seconds 36000) (Some "completed")];
     next_credential_id := 2;
     playlists := [];
     handlers := [None];
     clock_reads := 0;
     background := [];
     trace := [] |}.

(** What a call that stays out of the database leaves alone. *)
Definition same_database (w w' : World) : Prop :=
  spotify_credentials w' = spotify_credentials w /\
  next_credential_id w' = next_credential_id w /\
  playlists w' = playlists w /\
  db_fault w' = db_fault w /\
  config w' = config w.

(** Cache events on one handler object. *)
Definition uses_handler (h : nat) (e : Event) : bool :=
  match e with
  | CacheRead h' | CacheWrite h' => Nat.eqb h' h
  | _ => false
  end.

(** A computation that stays out of the database. *)
Definition quiet {A} (m : M A) : Prop :=
  forall w, same_database w (snd (m w)).

(** The exchange of one authorization code. *)
Definition exchanges (code : string) (e : Event) : bool :=
  match e with
  | TokenRequest (AuthorizationCode c) => String.eqb c code
  | _ => false
  end.

(** What a request added to the trace of the world it started in. *)
Definition logged (w w' : World) : list Event :=
  drop (length (trace w)) (trace w').

(** ** Vocabulary of the further properties *)

(** Every byte of a string satisfies [p]. *)
Fixpoint all_chars (p : ascii -> bool) (s : string) : bool :=
  match s with
  | EmptyString => true
  | String c rest => p c && all_chars p rest
  end.

(** A computation that leaves one component of the world as it was. *)
Definition keeps {A B} (f : World -> B) (m : M A) : Prop :=
  forall w, f (snd (m w)) = f w.

(** A provider that rejects every grant and every request, and the fresh
    process talking to it. *)
Definition rejecting_provider : Provider :=
  {| token_endpoint := fun _ => Raise (SpotifyOauthError "invalid_grant");
     api_me := fun _ => Raise (SpotifyException "401 unauthorized");
     api_me_playlists := fun _ _ => Raise (SpotifyException "503 unavailable");
     api_recently_played := fun _ _ => Raise (SpotifyException "503 unavailable") |}.

Definition set_provider (p : Provider) (w : World) : World :=
  {| config := config w; provider := p; clock := clock w;
     db_fault := db_fault w; auth_response := auth_response w;
     spotify_credentials := spotify_credentials w;
     next_credential_id := next_credential_id w;
     playlists := playlists w; handlers := handlers w;
     clock_reads := clock_reads w; background := background w;
     trace := trace w |}.

(** The database rejecting one kind of statement. *)
Definition rejecting (s : Statement) (msg : string) (s' : Statement) : option string :=
  match s, s' with
  | SelectCredentials, SelectCredentials | UpdateTokens, UpdateTokens
  | SelectCredentialId, SelectCredentialId | UpsertCredentials, UpsertCredentials
  | DeleteCredentials, DeleteCredentials | SelectImported, SelectImported => Some msg
  | _, _ => None
  end.

(** The ways the statements of lines 162-192 can raise: the profile has no
    [id], the token has no refresh token, the database rejects the
    upsert, or the id is no text. *)
Inductive store_fails (w : World) (profile : JSON) (token_info : TokenInfo)
    : Exception -> Prop :=
| no_profile_id (e : Exception) :
    subscript profile "id" = Raise e ->
    store_fails w profile token_info e
| no_refresh_token (spotify_id : JSON) :
    subscript profile "id" = Ok spotify_id ->
    tok_refresh_token token_info = None ->
    store_fails w profile token_info (KeyError "refresh_token")
| statement_rejected (spotify_id : JSON) (refresh_token msg : string) :
    subscript profile "id" = Ok spotify_id ->
    tok_refresh_token token_info = Some refresh_token ->
    db_fault w UpsertCredentials = Some msg ->
    store_fails w profile token_info (DatabaseError msg)
| id_not_text (spotify_id : JSON) (refresh_token : string) (e : Exception) :
    subscript profile "id" = Ok spotify_id ->
    tok_refresh_token token_info = Some refresh_token ->
    db_fault w UpsertCredentials = None ->
    as_text spotify_id = Raise e ->
    store_fails w profile token_info e.

(** A listing whose pages are served until one [next] cursor fails: the
    first page, further pages, and the exception of the request after
    them. *)
Fixpoint broken_listing (first : list JSON) (more : list (list JSON))
    (e : Exception) : Paging :=
  match more with
  | [] => BrokenPage first e
  | page :: pages => MorePages first (broken_listing page pages e)
  end.

(** A statement sent to the database. *)
Definition is_statement (e : Event) : bool :=
  match e with Database _ _ => true | _ => false end.

(** An item of the recently-played response, with or without album
    images. *)
Definition demo_track (images : JSON) : JSON :=
  JDict [ ("track",
           JDict [ ("name", JStr "So What");
                   ("artists", JList [JDict [("name", JStr "Miles Davis")]]);
                   ("album", JDict [("name", JStr "Kind of Blue");
                                    ("images", images)]);
                   ("external_urls", JDict [("spotify", JStr "https://open.spotify.test/t1")]) ]);
          ("played_at", JStr "2025-03-01T10:00:00Z") ].

(** The constraints of [spotify_credentials] the module relies on: one row
    per owner, ids drawn from a sequence that starts at 1 and is still
    ahead of them. *)
Definition consistent (w : World) : Prop :=
  unique_users (spotify_credentials w) /\
  serial_ids (spotify_credentials w) /\
  0 < next_credential_id w.

(** * Properties *)

(** ** Stepping through the monad *)

Ltac step :=
  unfold bind, ret, raise, lift, get, emit, execute, try_except in *; cbn.

Lemma find_owned (user_id : Z) (table : list Credential) (row : Credential) :
  find (owned_by user_id) table = Some row ->
  In row table /\ cred_user_id row = user_id.
Proof.
  intros H. apply find_some in H as [Hin Hown].
  split; [exact Hin | now apply Z.eqb_eq in Hown].
Qed.

Lemma calls_snoc (p : Event -> bool) (w : World) (e : Event) :
  calls p (set_trace (trace w ++ [e]) w) =
  (calls p w + (if p e then 1 else 0))%nat.
Proof.
  unfold calls; cbn. rewrite List.filter_app, length_app; cbn.
  destruct (p e); reflexivity.
Qed.

(** ** The callback rejects provider errors and malformed states *)

(** C2 (as the code has it): a callback whose [error] parameter is present
    and not empty fails with HTTP 400, the detail carrying the provider's
    error string; it is no redirect.  The world is left as it was, so the
    Credential Store is neither read nor written. *)
Theorem callback_error_is_bad_request
    (code state : string) (error : option string) (bg : bool) (w : World) :
  error_given error = true ->
  let '(r, w') := spotify_callback code state error bg w in
  r = Raise (HTTPException 400 ("spotify auth error: " +:+ fstr error)) /\
  http_status r = 400 /\
  w' = w /\
  spotify_credentials w' = spotify_credentials w /\
  calls touches_credentials w' = calls touches_credentials w.
Proof.
  intros Herr. unfold spotify_callback. rewrite Herr.
  unfold raise. repeat split.
Qed.

Lemma callback_error_is_bad_request_witness :
  error_given (Some "access_denied") = true /\
  let '(r, w') := spotify_callback "c0de" "7" (Some "access_denied") true fresh_world in
  r = Raise (HTTPException 400 ("spotify auth error: " +:+ fstr (Some "access_denied"))) /\
  http_status r = 400 /\
  w' = fresh_world /\
  spotify_credentials w' = spotify_credentials fresh_world /\
  calls touches_credentials w' = calls touches_credentials fresh_world.
Proof.
  split; [reflexivity |].
  apply (callback_error_is_bad_request "c0de" "7" (Some "access_denied") true fresh_world).
  reflexivity.
Defined.

(** C2 as stated fails: with [error=access_denied] the handler answers no
    redirect at all, it raises the 400. *)
Lemma callback_error_no_redirect :
  ~ (exists url w',
       spotify_callback "c0de" "7" (Some "access_denied") true fresh_world
       = (Ok (RedirectResponse url), w')).
Proof.
  intros (url & w' & H).
  apply (f_equal fst) in H. cbn in H. discriminate H.
Qed.

(** C6: a callback without [error] whose [state] is no integer fails with
    HTTP 400 and leaves the world as it was: no token exchange and no API
    request was made before. *)
Theorem callback_bad_state_is_bad_request
    (code state : string) (error : option string) (bg : bool) (w : World) :
  error_given error = false ->
  int state = None ->
  let '(r, w') := spotify_callback code state error bg w in
  r = Raise (HTTPException 400 "invalid state parameter") /\
  http_status r = 400 /\
  w' = w /\
  calls is_network w' = calls is_network w.
Proof.
  intros Herr Hint. unfold spotify_callback. rewrite Herr, Hint.
  unfold raise. repeat split.
Qed.

Lemma callback_bad_state_is_bad_request_witness :
  error_given None = false /\ int "seven" = None /\
  let '(r, w') := spotify_callback "c0de" "seven" None true fresh_world in
  r = Raise (HTTPException 400 "invalid state parameter") /\
  http_status r = 400 /\
  w' = fresh_world /\
  calls is_network w' = calls is_network fresh_world.
Proof.
  split; [reflexivity |]. split; [reflexivity |].
  apply (callback_bad_state_is_bad_request "c0de" "seven" None true fresh_world);
    reflexivity.
Defined.

(** C10: [code] and [state] are required parameters.  A callback request
    with [error] set is answered by parameter validation (422), the world
    untouched and the handler not run, as soon as [code] or [state] is
    missing; the 400 with the provider's error string is the answer
    exactly when both are supplied. *)
Theorem callback_requires_code_and_state (q : CallbackQuery) (w : World) :
  error_given (q_error q) = true ->
  (q_code q = None \/ q_state q = None ->
     exists missing,
       GET_callback q w = (Raise (RequestValidationError missing), w) /\
       http_status (Raise (RequestValidationError missing)) = 422) /\
  (forall detail,
     fst (GET_callback q w) = Raise (HTTPException 400 detail) ->
     detail = "spotify auth error: " +:+ fstr (q_error q) /\
     exists code state, q_code q = Some code /\ q_state q = Some state) /\
  (forall code state,
     q_code q = Some code -> q_state q = Some state ->
     GET_callback q w =
       (Raise (HTTPException 400 ("spotify auth error: " +:+ fstr (q_error q))), w)).
Proof.
  intros Herr. unfold GET_callback, spotify_callback. rewrite Herr.
  destruct (q_code q) as [code|], (q_state q) as [state|]; unfold raise; cbn.
  - split; [intros [H|H]; discriminate H |].
    split; [intros detail H; injection H as <-; eauto |].
    intros c s Hc Hs; reflexivity.
  - split; [intros _; eexists; split; reflexivity |].
    split; [intros detail H; discriminate H | intros c s _ H; discriminate H].
  - split; [intros _; eexists; split; reflexivity |].
    split; [intros detail H; discriminate H | intros c s H; discriminate H].
  - split; [intros _; eexists; split; reflexivity |].
    split; [intros detail H; discriminate H | intros c s H; discriminate H].
Qed.

Lemma callback_requires_code_and_state_witness :
  let q := {| q_code := None; q_state := Some "7"; q_error := Some "access_denied" |} in
  error_given (q_error q) = true /\
  exists missing,
    GET_callback q fresh_world = (Raise (RequestValidationError missing), fresh_world) /\
    http_status (Raise (RequestValidationError missing)) = 422.
Proof.
  split; [reflexivity |].
  destruct (callback_requires_code_and_state
              {| q_code := None; q_state := Some "7"; q_error := Some "access_denied" |}
              fresh_world eq_refl) as [Hmissing _].
  apply Hmissing. left; reflexivity.
Defined.

(** ** The token refresh gate *)

(** C5: for a user without a Credential row, [get_spotify_client] raises
    HTTP 401, and so do the routes that depend on it ([/recently-played],
    [/playlists]); the only call made is the SELECT, so no request reaches
    the provider. *)
Theorem unlinked_user_is_unauthorized (user : User) (limit : Z) (w : World) :
  db_fault w SelectCredentials = None ->
  credential_of (uid user) w = None ->
  let w' := set_trace (trace w ++ [Database SelectCredentials (uid user)]) w in
  get_spotify_client user w
    = (Raise (HTTPException 401 "spotify account not connected"), w') /\
  GET_recently_played limit user w
    = (Raise (HTTPException 401 "spotify account not connected"), w') /\
  GET_playlists user w
    = (Raise (HTTPException 401 "spotify account not connected"), w') /\
  http_status (fst (GET_recently_played limit user w)) = 401 /\
  http_status (fst (GET_playlists user w)) = 401 /\
  calls is_network w' = calls is_network w /\
  calls is_api_request w' = calls is_api_request w.
Proof.
  intros Hdb Hnone.
  assert (Hclient : get_spotify_client user w
    = (Raise (HTTPException 401 "spotify account not connected"),
       set_trace (trace w ++ [Database SelectCredentials (uid user)]) w)).
  { unfold get_spotify_client, select_credentials. step.
    rewrite Hdb. unfold credential_of in Hnone. cbn. rewrite Hnone. reflexivity. }
  cbn zeta. unfold GET_recently_played, GET_playlists, bind.
  rewrite Hclient.
  repeat split; rewrite calls_snoc; cbn; lia.
Qed.

Lemma unlinked_user_is_unauthorized_witness :
  db_fault fresh_world SelectCredentials = None /\
  credential_of (uid bob) fresh_world = None /\
  GET_recently_played 50 bob fresh_world
    = (Raise (HTTPException 401 "spotify account not connected"),
       set_trace (trace fresh_world ++ [Database SelectCredentials (uid bob)]) fresh_world).
Proof.
  split; [reflexivity |]. split; [reflexivity |].
  apply (unlinked_user_is_unauthorized bob 50 fresh_world); reflexivity.
Defined.

(** C8: for a user who already has a Credential row, whatever its tokens
    and expiry, [/connect] raises HTTP 400 after the one SELECT; no
    authorize URL is returned. *)
Theorem connect_when_linked_is_bad_request (user : User) (w : World) (row : Credential) :
  db_fault w SelectCredentialId = None ->
  serial_ids (spotify_credentials w) ->
  credential_of (uid user) w = Some row ->
  let '(r, w') := spotify_connect user w in
  r = Raise (HTTPException 400 "spotify already connected") /\
  http_status r = 400 /\
  (forall url, r <> Ok (ConnectUrl url)) /\
  w' = set_trace (trace w ++ [Database SelectCredentialId (uid user)]) w.
Proof.
  intros Hdb Hids Hrow.
  unfold spotify_connect, select_credential_id. step. rewrite Hdb. cbn.
  unfold credential_of in Hrow. rewrite Hrow. cbn.
  apply find_owned in Hrow as [Hin _].
  unfold serial_ids in Hids. rewrite List.Forall_forall in Hids.
  specialize (Hids row Hin).
  destruct (Z.eqb_spec (cred_id row) 0) as [H0|H0]; [lia |]. cbn.
  repeat split. intros url H. discriminate H.
Qed.

Lemma connect_when_linked_is_bad_request_witness :
  let w := linked_world 0 (Some "completed") in
  db_fault w SelectCredentialId = None /\
  serial_ids (spotify_credentials w) /\
  credential_of (uid ann) w = Some (linked_row 0 (Some "completed")) /\
  let '(r, w') := spotify_connect ann w in
  r = Raise (HTTPException 400 "spotify already connected") /\
  http_status r = 400 /\
  (forall url, r <> Ok (ConnectUrl url)) /\
  w' = set_trace (trace w ++ [Database SelectCredentialId (uid ann)]) w.
Proof.
  assert (Hids : serial_ids (spotify_credentials (linked_world 0 (Some "completed")))).
  { repeat constructor. }
  split; [reflexivity |]. split; [exact Hids |]. split; [reflexivity |].
  exact (connect_when_linked_is_bad_request ann (linked_world 0 (Some "completed"))
           (linked_row 0 (Some "completed")) eq_refl Hids eq_refl).
Defined.

(** C9: while the stored token has not expired, [get_spotify_client]
    returns a client carrying the stored access token; it runs the SELECT
    and reads the clock, nothing else: no statement that writes is issued
    and the table (every field of every row) is what it was. *)
Theorem valid_token_is_read_only (user : User) (w : World) (row : Credential) :
  db_fault w SelectCredentials = None ->
  credential_of (uid user) w = Some row ->
  clock w (clock_reads w) < cred_token_expires_at row ->
  let '(r, w') := get_spotify_client user w in
  r = Ok {| auth := cred_access_token row |} /\
  w' = set_clock_reads (S (clock_reads w))
         (set_trace (trace w ++ [Database SelectCredentials (uid user)]) w) /\
  spotify_credentials w' = spotify_credentials w /\
  credential_of (uid user) w' = Some row /\
  calls is_db_write w' = calls is_db_write w /\
  calls is_network w' = calls is_network w.
Proof.
  intros Hdb Hrow Hfresh.
  unfold get_spotify_client, select_credentials, datetime_now. step.
  rewrite Hdb. cbn. unfold credential_of in Hrow. rewrite Hrow. cbn.
  destruct (Z.leb_spec (cred_token_expires_at row) (clock w (clock_reads w)));
    [lia |].
  cbn. repeat split; try assumption.
  - unfold calls; cbn. rewrite List.filter_app, length_app; cbn. lia.
  - unfold calls; cbn. rewrite List.filter_app, length_app; cbn. lia.
Qed.

Lemma valid_token_is_read_only_witness :
  let w := linked_world (timedelta_seconds 40000) (Some "completed") in
  let row := linked_row (timedelta_seconds 40000) (Some "completed") in
  db_fault w SelectCredentials = None /\
  credential_of (uid ann) w = Some row /\
  clock w (clock_reads w) < cred_token_expires_at row /\
  let '(r, w') := get_spotify_client ann w in
  r = Ok {| auth := cred_access_token row |} /\
  w' = set_clock_reads (S (clock_reads w))
         (set_trace (trace w ++ [Database SelectCredentials (uid ann)]) w) /\
  spotify_credentials w' = spotify_credentials w /\
  credential_of (uid ann) w' = Some row /\
  calls is_db_write w' = calls is_db_write w /\
  calls is_network w' = calls is_network w.
Proof.
  split; [reflexivity |]. split; [reflexivity |]. split; [reflexivity |].
  exact (valid_token_is_read_only ann
           (linked_world (timedelta_seconds 40000) (Some "completed"))
           (linked_row (timedelta_seconds 40000) (Some "completed"))
           eq_refl eq_refl eq_refl).
Defined.

Lemma find_owned_map (user_id : Z) (f : Credential -> Credential)
    (table : list Credential) :
  (forall r, cred_user_id (f r) = cred_user_id r) ->
  find (owned_by user_id)
       (map (fun r => if owned_by user_id r then f r else r) table)
  = f <$> find (owned_by user_id) table.
Proof.
  intros Hkey. induction table as [|r table IH]; [reflexivity |].
  cbn. destruct (owned_by user_id r) eqn:Hown.
  - unfold owned_by in *. rewrite Hkey, Hown. reflexivity.
  - rewrite Hown. exact IH.
Qed.

(** C3 (as the code has it): with a Credential row, [get_spotify_client]
    issues no refresh grant while [now < token_expires_at] and exactly one
    when [now >= token_expires_at]; when that grant succeeds and the
    UPDATE is accepted, the stored expiry is the clock's reading before
    the UPDATE plus the granted [expires_in], which is later than the old
    expiry whenever [expires_in] is positive and the clock has not run
    backwards since the comparison. *)
Theorem token_refresh_gate (user : User) (w : World) (row : Credential) :
  db_fault w SelectCredentials = None ->
  credential_of (uid user) w = Some row ->
  let now := clock w (clock_reads w) in
  let now' := clock w (S (S (clock_reads w))) in
  let '(r, w') := get_spotify_client user w in
  (now < cred_token_expires_at row ->
     calls is_refresh w' = calls is_refresh w) /\
  (cred_token_expires_at row <= now ->
     calls is_refresh w' = S (calls is_refresh w) /\
     forall resp,
       token_endpoint (provider w) (RefreshToken (cred_refresh_token row)) = Ok resp ->
       db_fault w UpdateTokens = None ->
       r = Ok {| auth := resp_access_token resp |} /\
       exists row',
         credential_of (uid user) w' = Some row' /\
         cred_access_token row' = resp_access_token resp /\
         cred_token_expires_at row'
           = now' + timedelta_seconds (resp_expires_in resp) /\
         (0 < resp_expires_in resp -> now <= now' ->
            cred_token_expires_at row < cred_token_expires_at row')).
Proof.
  intros Hdb Hrow. cbn zeta.
  unfold get_spotify_client, select_credentials, datetime_now. step.
  rewrite Hdb. cbn. unfold credential_of in Hrow. rewrite Hrow. cbn.
  destruct (Z.leb_spec (cred_token_expires_at row) (clock w (clock_reads w)))
    as [Hexp|Hvalid].
  - unfold MemoryCacheHandler, refresh_access_token, post_token, add_custom_values,
      save_token_to_cache, time_time, datetime_now, refresh_token_of, update_tokens.
    step.
    destruct (token_endpoint (provider w) (RefreshToken (cred_refresh_token row)))
      as [resp|e] eqn:Hresp; cbn.
    + destruct (db_fault w UpdateTokens) as [msg|] eqn:Hupd; cbn.
      * split; [lia |]. intros _. split.
        { unfold calls; cbn. rewrite !List.filter_app, !length_app; cbn. lia. }
        intros resp' _ Hnone. discriminate Hnone.
      * split; [lia |]. intros _. split.
        { unfold calls; cbn. rewrite !List.filter_app, !length_app; cbn. lia. }
        intros resp' Hresp' _. injection Hresp' as <-.
        split; [reflexivity |].
        unfold credential_of; cbn.
        rewrite find_owned_map by reflexivity. rewrite Hrow. cbn.
        eexists. split; [reflexivity |]. cbn.
        split; [reflexivity |]. split; [reflexivity |].
        unfold timedelta_seconds. lia.
    + split; [lia |]. intros _. split.
      { unfold calls; cbn. rewrite !List.filter_app, !length_app; cbn. lia. }
      intros resp' Hresp'. discriminate Hresp'.
  - cbn. split; [| lia]. intros _.
    unfold calls; cbn. rewrite !List.filter_app, !length_app; cbn. lia.
Qed.

Lemma token_refresh_gate_witness :
  let w := linked_world 0 (Some "completed") in
  let row := linked_row 0 (Some "completed") in
  db_fault w SelectCredentials = None /\
  credential_of (uid ann) w = Some row /\
  let now := clock w (clock_reads w) in
  let now' := clock w (S (S (clock_reads w))) in
  let '(r, w') := get_spotify_client ann w in
  (now < cred_token_expires_at row ->
     calls is_refresh w' = calls is_refresh w) /\
  (cred_token_expires_at row <= now ->
     calls is_refresh w' = S (calls is_refresh w) /\
     forall resp,
       token_endpoint (provider w) (RefreshToken (cred_refresh_token row)) = Ok resp ->
       db_fault w UpdateTokens = None ->
       r = Ok {| auth := resp_access_token resp |} /\
       exists row',
         credential_of (uid ann) w' = Some row' /\
         cred_access_token row' = resp_access_token resp /\
         cred_token_expires_at row'
           = now' + timedelta_seconds (resp_expires_in resp) /\
         (0 < resp_expires_in resp -> now <= now' ->
            cred_token_expires_at row < cred_token_expires_at row')).
Proof.
  split; [reflexivity |]. split; [reflexivity |].
  exact (token_refresh_gate ann (linked_world 0 (Some "completed"))
           (linked_row 0 (Some "completed")) eq_refl eq_refl).
Defined.

(** C3 as stated fails: the stored token expires at 10:00:00 and the
    request starts at that instant, so the one refresh is made; the clock
    is then set back two hours, the provider grants one hour, and the
    expiry written (09:00:02) is earlier than the old one. *)
Lemma refreshed_expiry_not_greater :
  let w := set_back_world in
  let w' := snd (get_spotify_client ann w) in
  fst (get_spotify_client ann w) = Ok {| auth := "renewed-refresh-old" |} /\
  calls is_refresh w' = S (calls is_refresh w) /\
  cred_token_expires_at <$> credential_of (uid ann) w
    = Some (timedelta_seconds 36000) /\
  cred_token_expires_at <$> credential_of (uid ann) w'
    = Some (timedelta_seconds 32402) /\
  ~ (forall row row',
       credential_of (uid ann) w = Some row ->
       cred_token_expires_at row <= clock w (clock_reads w) ->
       credential_of (uid ann) w' = Some row' ->
       cred_token_expires_at row < cred_token_expires_at row').
Proof.
  cbn zeta. split; [reflexivity |]. split; [reflexivity |].
  split; [reflexivity |]. split; [reflexivity |].
  intros Hclaim.
  specialize (Hclaim
    (linked_row (timedelta_seconds 36000) (Some "completed"))
    (refreshed "renewed-refresh-old" "refresh-old" (timedelta_seconds 32402)
       (set_back_clock 3)
       (linked_row (timedelta_seconds 36000) (Some "completed")))
    eq_refl).
  cbn in Hclaim. unfold timedelta_seconds in Hclaim.
  assert (36000 * 1000000 < 32402 * 1000000) by (apply Hclaim; [lia | reflexivity]).
  lia.
Qed.

(** ** Calls that stay out of the database *)

Lemma same_database_refl (w : World) : same_database w w.
Proof. repeat split. Qed.

Lemma same_database_trans (w1 w2 w3 : World) :
  same_database w1 w2 -> same_database w2 w3 -> same_database w1 w3.
Proof.
  unfold same_database. intros (?&?&?&?&?) (?&?&?&?&?).
  repeat split; congruence.
Qed.

Section Quiet.
Context {A B : Type}.

Lemma quiet_ret (a : A) : quiet (ret a).
Proof. intros w. apply same_database_refl. Qed.

Lemma quiet_raise (e : Exception) : quiet (@raise A e).
Proof. intros w. apply same_database_refl. Qed.

Lemma quiet_lift (o : Outcome A) : quiet (lift o).
Proof. intros w. apply same_database_refl. Qed.

Lemma quiet_get (f : World -> A) : quiet (get f).
Proof. intros w. apply same_database_refl. Qed.

Lemma quiet_bind (m : M A) (k : A -> M B) :
  quiet m -> (forall a, quiet (k a)) -> quiet (bind m k).
Proof.
  intros Hm Hk w. unfold bind. specialize (Hm w).
  destruct (m w) as [[a|e] w1]; cbn in *; [| exact Hm].
  eapply same_database_trans; [exact Hm | apply Hk].
Qed.
End Quiet.

Lemma quiet_emit (e : Event) : quiet (emit e).
Proof. intros w. repeat split. Qed.

Lemma quiet_datetime_now : quiet datetime_now.
Proof. intros w. repeat split. Qed.

Lemma quiet_set_handlers (f : World -> list (option TokenInfo)) :
  quiet (fun w => (Ok tt, set_handlers (f w) w)).
Proof. intros w. repeat split. Qed.

Ltac quiet :=
  repeat match goal with
  | |- quiet (bind _ _) => apply quiet_bind; [| intros ?]
  | |- quiet (ret _) => apply quiet_ret
  | |- quiet (raise _) => apply quiet_raise
  | |- quiet (lift _) => apply quiet_lift
  | |- quiet (get _) => apply quiet_get
  | |- quiet (emit _) => apply quiet_emit
  | |- quiet datetime_now => apply quiet_datetime_now
  | |- quiet (fun w => (Ok tt, set_handlers _ w)) =>
      apply (quiet_set_handlers (fun w => _))
  | |- quiet (match ?x with _ => _ end) => destruct x
  end.

Lemma quiet_time_time : quiet time_time.
Proof. unfold time_time. quiet. Qed.

Lemma quiet_post_token (g : Grant) : quiet (post_token g).
Proof. unfold post_token. quiet. Qed.

Lemma quiet_save_token_to_cache (h : nat) (t : TokenInfo) :
  quiet (save_token_to_cache h t).
Proof.
  unfold save_token_to_cache. quiet.
Qed.

Lemma quiet_refresh_access_token (oauth : SpotifyOAuth) (rt : string) :
  quiet (refresh_access_token oauth rt).
Proof.
  unfold refresh_access_token, add_custom_values. quiet;
    auto using quiet_post_token, quiet_time_time, quiet_save_token_to_cache.
Qed.

Lemma quiet_get_access_token (oauth : SpotifyOAuth) (code : string) :
  quiet (get_access_token oauth code).
Proof.
  unfold get_access_token, get_cached_token, validate_token, is_token_expired,
    refresh_token_of, add_custom_values.
  quiet; auto using quiet_post_token, quiet_time_time, quiet_save_token_to_cache,
           quiet_refresh_access_token.
Qed.

Lemma quiet_current_user (sp : Spotify) : quiet (current_user sp).
Proof. unfold current_user. quiet. Qed.

(** ** The upsert on the table *)

Lemma rows_of_absent (user_id : Z) (table : list Credential) :
  ~ In user_id (map cred_user_id table) -> rows_of user_id table = 0%nat.
Proof.
  unfold rows_of. induction table as [|r table IH]; [reflexivity |].
  cbn. intros Hnot. unfold owned_by at 1.
  destruct (Z.eqb_spec (cred_user_id r) user_id) as [Heq|Hne].
  - exfalso. apply Hnot. left. exact Heq.
  - apply IH. intros Hin. apply Hnot. right. exact Hin.
Qed.

Lemma existsb_owned (user_id : Z) (table : list Credential) :
  existsb (owned_by user_id) table = true <-> In user_id (map cred_user_id table).
Proof.
  rewrite existsb_exists, in_map_iff. unfold owned_by.
  split; intros (r & H1 & H2).
  - exists r. apply Z.eqb_eq in H2. split; assumption.
  - exists r. split; [assumption | now apply Z.eqb_eq].
Qed.

Lemma rows_of_unique (user_id : Z) (table : list Credential) :
  unique_users table ->
  In user_id (map cred_user_id table) ->
  rows_of user_id table = 1%nat.
Proof.
  unfold unique_users. induction table as [|r table IH]; [intros _ [] |].
  cbn [map]. intros Hnd Hin. apply NoDup_cons in Hnd as [Hfresh Hnd].
  rewrite list_elem_of_In in Hfresh.
  unfold rows_of. cbn [List.filter]. unfold owned_by at 1.
  destruct (Z.eqb_spec (cred_user_id r) user_id) as [Heq|Hne].
  - cbn. f_equal. apply rows_of_absent. rewrite <- Heq. exact Hfresh.
  - destruct Hin as [Heq|Hin]; [contradiction |]. apply IH; assumption.
Qed.

Lemma map_keeps_users (user_id : Z) (f : Credential -> Credential)
    (table : list Credential) :
  (forall r, cred_user_id (f r) = cred_user_id r) ->
  map cred_user_id (map (fun r => if owned_by user_id r then f r else r) table)
  = map cred_user_id table.
Proof.
  intros Hkey. induction table as [|r table IH]; [reflexivity |].
  cbn. rewrite IH. destruct (owned_by user_id r); [rewrite Hkey |]; reflexivity.
Qed.

Lemma find_other_map (user_id other : Z) (f : Credential -> Credential)
    (table : list Credential) :
  other <> user_id ->
  (forall r, cred_user_id (f r) = cred_user_id r) ->
  find (owned_by other)
       (map (fun r => if owned_by user_id r then f r else r) table)
  = find (owned_by other) table.
Proof.
  intros Hne Hkey. induction table as [|r table IH]; [reflexivity |].
  cbn. destruct (owned_by user_id r) eqn:Hown.
  - unfold owned_by in *. rewrite Hkey. apply Z.eqb_eq in Hown.
    destruct (Z.eqb_spec (cred_user_id r) other) as [Heq|_]; [congruence |].
    exact IH.
  - rewrite IH. reflexivity.
Qed.

Lemma find_owned_absent (user_id : Z) (table : list Credential) :
  existsb (owned_by user_id) table = false ->
  find (owned_by user_id) table = None.
Proof.
  induction table as [|r table IH]; [reflexivity |].
  cbn. destruct (owned_by user_id r); [discriminate | exact IH].
Qed.

Lemma find_owned_present (user_id : Z) (table : list Credential) :
  existsb (owned_by user_id) table = true ->
  exists row, find (owned_by user_id) table = Some row.
Proof.
  induction table as [|r table IH]; [discriminate |].
  cbn. destruct (owned_by user_id r); [eauto | exact IH].
Qed.

Section Upsert.
Variables (id user_id : Z) (spotify_id access_token refresh_token : string).
Variables (expires_at now : Timestamp) (table : list Credential).

(** The row of the user after the upsert: the existing one relinked, or
    the inserted one. *)
Lemma upsert_row :
  find (owned_by user_id) (upsert id user_id spotify_id access_token refresh_token
       expires_at now table)
  = Some match find (owned_by user_id) table with
         | Some old =>
             relinked spotify_id access_token refresh_token expires_at now old
         | None =>
             inserted id user_id spotify_id access_token refresh_token expires_at
         end.
Proof.
  unfold upsert.
  destruct (existsb (owned_by user_id) table) eqn:Hex.
  - rewrite find_owned_map by reflexivity.
    apply find_owned_present in Hex as [row Hrow]. rewrite Hrow. reflexivity.
  - rewrite (find_owned_absent _ _ Hex).
    induction table as [|r t IH]; cbn.
    + unfold owned_by; cbn. rewrite Z.eqb_refl. reflexivity.
    + cbn in Hex. destruct (owned_by user_id r); [discriminate |].
      apply IH. exact Hex.
Qed.

Lemma upsert_other (other : Z) :
  other <> user_id ->
  find (owned_by other) (upsert id user_id spotify_id access_token refresh_token
       expires_at now table) = find (owned_by other) table.
Proof.
  intros Hne. unfold upsert.
  destruct (existsb (owned_by user_id) table).
  - apply find_other_map; [exact Hne | reflexivity].
  - induction table as [|r t IH]; cbn.
    + unfold owned_by; cbn.
      destruct (Z.eqb_spec user_id other); [congruence | reflexivity].
    + destruct (owned_by other r); [reflexivity | exact IH].
Qed.

Lemma upsert_unique : unique_users table -> unique_users (upsert id user_id spotify_id access_token refresh_token
       expires_at now table).
Proof.
  unfold unique_users, upsert. intros Hnd.
  destruct (existsb (owned_by user_id) table) eqn:Hex.
  - rewrite map_keeps_users by reflexivity. exact Hnd.
  - rewrite map_app; cbn.
    apply NoDup_app. split; [exact Hnd |]. split.
    + intros x Hx Hx'. apply list_elem_of_In in Hx, Hx'.
      destruct Hx' as [<-|[]].
      apply existsb_owned in Hx. congruence.
    + apply NoDup_singleton.
Qed.

Lemma upsert_one_row : unique_users table -> rows_of user_id (upsert id user_id spotify_id access_token refresh_token
       expires_at now table) = 1%nat.
Proof.
  intros Hnd. apply rows_of_unique; [apply upsert_unique, Hnd |].
  pose proof upsert_row as Hrow. apply find_owned in Hrow as [Hin Hkey].
  apply (in_map cred_user_id) in Hin. rewrite Hkey in Hin. exact Hin.
Qed.
End Upsert.

(** ** The callback stores the credentials *)

(** C4 (as the code has it): when the code exchange and the profile
    request succeed and the database accepts the upsert, the callback
    answers the success redirect and leaves exactly one row for the user
    id of [state]; the row carries the new [spotify_id], tokens and
    expiry.  A first insert stores 'not_started'; on conflict a status
    'completed' becomes 'needs_update', any other status is kept, and a
    missing (NULL) status becomes 'not_started'.  Rows of other users are
    as they were. *)
Theorem callback_upserts_credentials
    (code state : string) (error : option string) (bg : bool) (w w1 w2 : World)
    (user_id : Z) (token_info : TokenInfo) (profile : JSON)
    (spotify_id refresh_token : string) :
  error_given error = false ->
  int state = Some user_id ->
  get_access_token (sp_oauth w) code w = (Ok token_info, w1) ->
  current_user {| auth := tok_access_token token_info |} w1 = (Ok profile, w2) ->
  subscript profile "id" = Ok (JStr spotify_id) ->
  tok_refresh_token token_info = Some refresh_token ->
  db_fault w UpsertCredentials = None ->
  unique_users (spotify_credentials w) ->
  let '(r, w') := spotify_callback code state error bg w in
  r = Ok (RedirectResponse
            (fstr (FRONTEND_URL (config w)) +:+ "?spotify_connected=true")) /\
  rows_of user_id (spotify_credentials w') = 1%nat /\
  unique_users (spotify_credentials w') /\
  (forall other, other <> user_id ->
     credential_of other w' = credential_of other w) /\
  exists row',
    credential_of user_id w' = Some row' /\
    cred_spotify_id row' = spotify_id /\
    cred_access_token row' = tok_access_token token_info /\
    cred_refresh_token row' = refresh_token /\
    cred_token_expires_at row'
      = datetime_fromtimestamp (tok_expires_at token_info) /\
    cred_liked_songs_sync_status row'
      = match credential_of user_id w with
        | None => Some "not_started"
        | Some old =>
            match cred_liked_songs_sync_status old with
            | Some status =>
                if String.eqb status "completed"
                then Some "needs_update" else Some status
            | None => Some "not_started"
            end
        end.
Proof.
  intros Herr Hint Htok Hme Hid Hrt Hdb Huniq.
  pose proof (quiet_get_access_token (sp_oauth w) code w) as F1.
  rewrite Htok in F1. cbn in F1.
  pose proof (quiet_current_user {| auth := tok_access_token token_info |} w1) as F2.
  rewrite Hme in F2. cbn in F2.
  pose proof (same_database_trans _ _ _ F1 F2) as (Ftab & Fid & _ & Ffault & Fcfg).
  unfold spotify_callback. rewrite Herr, Hint.
  unfold try_except at 1. unfold bind at 1. unfold get at 1.
  unfold bind at 1. rewrite Htok.
  unfold bind at 1. rewrite Hme.
  unfold try_except, bind, lift, refresh_token_of, upsert_credentials, execute,
    bind, lift, get, emit, ret, datetime_now, print, as_text.
  rewrite Hid, Hrt. cbn. rewrite Ffault, Hdb. cbn.
  rewrite Ftab, Fid.
  set (table' := upsert _ _ _ _ _ _ _ _).
  assert (Hone : rows_of user_id table' = 1%nat)
    by (apply upsert_one_row; exact Huniq).
  assert (Huniq' : unique_users table') by (apply upsert_unique; exact Huniq).
  assert (Hother : forall other, other <> user_id ->
            find (owned_by other) table'
            = find (owned_by other) (spotify_credentials w))
    by (intros other Hne; apply upsert_other; exact Hne).
  pose proof (upsert_row (next_credential_id w) user_id spotify_id
                (tok_access_token token_info) refresh_token
                (datetime_fromtimestamp (tok_expires_at token_info))
                (clock w2 (clock_reads w2)) (spotify_credentials w)) as Hrow.
  fold table' in Hrow.
  destruct bg; cbn; rewrite Fcfg.
  all: split; [reflexivity |]; split; [exact Hone |]; split; [exact Huniq' |].
  all: split; [exact Hother |].
  all: unfold credential_of; cbn; rewrite Hrow; eexists; split; [reflexivity |].
  all: destruct (find (owned_by user_id) (spotify_credentials w)) as [old|]; cbn.
  all: repeat (split; [reflexivity |]).
  all: try reflexivity.
  all: unfold relinked_status, sql_eq, COALESCE.
  all: destruct (cred_liked_songs_sync_status old) as [status|]; [| reflexivity].
  all: destruct (String.eqb status "completed"); reflexivity.
Qed.

Lemma callback_upserts_credentials_witness :
  let w := linked_world 0 (Some "completed") in
  let token_info :=
    {| tok_access_token := "access-c0de";
       tok_refresh_token := Some "refresh-c0de";
       tok_expires_in := 3600;
       tok_expires_at := 39600;
       tok_scope := SPOTIFY_SCOPES |} in
  let w1 := snd (get_access_token (sp_oauth w) "c0de" w) in
  let profile := JDict [("id", JStr "user-of-access-c0de")] in
  let w2 := snd (current_user {| auth := "access-c0de" |} w1) in
  (error_given None = false /\
   int "7" = Some 7 /\
   get_access_token (sp_oauth w) "c0de" w = (Ok token_info, w1) /\
   current_user {| auth := tok_access_token token_info |} w1 = (Ok profile, w2) /\
   subscript profile "id" = Ok (JStr "user-of-access-c0de") /\
   tok_refresh_token token_info = Some "refresh-c0de" /\
   db_fault w UpsertCredentials = None /\
   unique_users (spotify_credentials w)) /\
  let '(r, w') := spotify_callback "c0de" "7" None true w in
  r = Ok (RedirectResponse
            (fstr (FRONTEND_URL (config w)) +:+ "?spotify_connected=true")) /\
  rows_of 7 (spotify_credentials w') = 1%nat /\
  unique_users (spotify_credentials w') /\
  (forall other, other <> 7 ->
     credential_of other w' = credential_of other w) /\
  exists row',
    credential_of 7 w' = Some row' /\
    cred_spotify_id row' = "user-of-access-c0de" /\
    cred_access_token row' = tok_access_token token_info /\
    cred_refresh_token row' = "refresh-c0de" /\
    cred_token_expires_at row'
      = datetime_fromtimestamp (tok_expires_at token_info) /\
    cred_liked_songs_sync_status row'
      = match credential_of 7 w with
        | None => Some "not_started"
        | Some old =>
            match cred_liked_songs_sync_status old with
            | Some status =>
                if String.eqb status "completed"
                then Some "needs_update" else Some status
            | None => Some "not_started"
            end
        end.
Proof.
  cbn zeta.
  assert (Huniq : unique_users
            (spotify_credentials (linked_world 0 (Some "completed"))))
    by apply NoDup_singleton.
  split.
  { repeat (split; [reflexivity |]). exact Huniq. }
  exact (callback_upserts_credentials "c0de" "7" None true
           (linked_world 0 (Some "completed")) _ _ 7 _ _
           "user-of-access-c0de" "refresh-c0de"
           eq_refl eq_refl eq_refl eq_refl eq_refl eq_refl eq_refl Huniq).
Defined.

(** C4 as stated fails: the row of user 7 has no sync status (NULL), which
    is not 'completed'; after a successful callback the status of the row
    is 'not_started': the existing status was not left unchanged. *)
Lemma relink_sets_missing_status :
  let w := linked_world 0 None in
  let w' := snd (spotify_callback "c0de" "7" None true w) in
  fst (spotify_callback "c0de" "7" None true w)
    = Ok (RedirectResponse "https://tubify.test?spotify_connected=true") /\
  rows_of 7 (spotify_credentials w) = 1%nat /\
  cred_liked_songs_sync_status <$> credential_of 7 w = Some None /\
  cred_liked_songs_sync_status <$> credential_of 7 w' = Some (Some "not_started") /\
  ~ (forall old new,
       credential_of 7 w = Some old -> credential_of 7 w' = Some new ->
       cred_liked_songs_sync_status old <> Some "completed" ->
       cred_liked_songs_sync_status new = cred_liked_songs_sync_status old).
Proof.
  cbn zeta. split; [reflexivity |]. split; [reflexivity |].
  split; [reflexivity |]. split; [reflexivity |].
  intros Hclaim.
  destruct (credential_of 7 (snd (spotify_callback "c0de" "7" None true
                                    (linked_world 0 None))))
    as [new|] eqn:Hnew; [| discriminate Hnew].
  specialize (Hclaim (linked_row 0 None) new eq_refl eq_refl).
  assert (Hstatus : cred_liked_songs_sync_status <$> Some new
                    = Some (Some "not_started"))
    by (rewrite <- Hnew; reflexivity).
  cbn in Hstatus. injection Hstatus as Hstatus.
  rewrite Hstatus in Hclaim. cbn in Hclaim.
  assert (Some "not_started" = None :> option string)
    by (apply Hclaim; discriminate).
  discriminate.
Qed.

(** ** The OAuth helpers and their caches *)

(** The refresh grant of [get_spotify_client] runs on a helper of its own:
    its cache handler is an object created by this request, the handlers
    that existed before keep their contents and are neither read nor
    written. *)
Lemma refresh_uses_fresh_cache (user : User) (w : World) (row : Credential) :
  db_fault w SelectCredentials = None ->
  credential_of (uid user) w = Some row ->
  cred_token_expires_at row <= clock w (clock_reads w) ->
  let w' := snd (get_spotify_client user w) in
  length (handlers w') = S (length (handlers w)) /\
  take (length (handlers w)) (handlers w') = handlers w /\
  forall h, (h < length (handlers w))%nat ->
            calls (uses_handler h) w' = calls (uses_handler h) w.
Proof.
  intros Hdb Hrow Hexp. cbn zeta.
  unfold get_spotify_client, select_credentials, datetime_now. step.
  rewrite Hdb. cbn. unfold credential_of in Hrow. rewrite Hrow. cbn.
  destruct (Z.leb_spec (cred_token_expires_at row) (clock w (clock_reads w)));
    [| lia].
  unfold MemoryCacheHandler, refresh_access_token, post_token, add_custom_values,
    save_token_to_cache, time_time, datetime_now, refresh_token_of, update_tokens.
  step.
  destruct (token_endpoint (provider w) (RefreshToken (cred_refresh_token row)))
    as [resp|e]; cbn.
  - destruct (db_fault w UpdateTokens); cbn.
    all: rewrite length_insert, length_app; cbn.
    all: split; [lia |].
    all: split;
      [ rewrite take_insert_ge by lia; rewrite take_app_length; reflexivity |].
    all: intros h Hlt; unfold calls; cbn.
    all: rewrite <- !app_assoc; cbn.
    all: rewrite !List.filter_app, !length_app; cbn.
    all: destruct (Nat.eqb_spec (length (handlers w)) h); [lia | cbn; lia].
  - rewrite length_app; cbn. split; [lia |].
    split; [rewrite take_app_length; reflexivity |].
    intros h Hlt. unfold calls; cbn.
    rewrite !List.filter_app, !length_app; cbn. lia.
Qed.

(** C1 fails on the callback: two callbacks in one process, for users 7
    and 8 with codes of their own.  Both run on the process-wide
    [sp_oauth]; no handler object is created.  The first stores the token
    it obtained in the handler's cell; the second reads that cell, makes
    no exchange for its own code, and stores the token and the provider
    identity of user 7 in the row of user 8. *)
Theorem second_callback_reuses_cached_token :
  let w0 := fresh_world in
  let w1 := snd (spotify_callback "code-ann" "7" None true w0) in
  let w2 := snd (spotify_callback "code-bob" "8" None true w1) in
  oauth_cache_handler (sp_oauth w0) = oauth_cache_handler (sp_oauth w1) /\
  length (handlers w0) = 1%nat /\ length (handlers w2) = 1%nat /\
  logged w0 w1 = [ CacheRead sp_oauth_cache;
                   TokenRequest (AuthorizationCode "code-ann");
                   CacheWrite sp_oauth_cache;
                   ApiRequest "me" "access-code-ann";
                   Database UpsertCredentials 7 ] /\
  tok_access_token <$> default None (handlers w1 !! sp_oauth_cache)
    = Some "access-code-ann" /\
  fst (spotify_callback "code-bob" "8" None true w1)
    = Ok (RedirectResponse "https://tubify.test?spotify_connected=true") /\
  logged w1 w2 = [ CacheRead sp_oauth_cache;
                   ApiRequest "me" "access-code-ann";
                   Database UpsertCredentials 8 ] /\
  calls (exchanges "code-bob") w2 = 0%nat /\
  cred_access_token <$> credential_of 8 w2 = Some "access-code-ann" /\
  cred_refresh_token <$> credential_of 8 w2 = Some "refresh-code-ann" /\
  cred_spotify_id <$> credential_of 8 w2 = Some "user-of-access-code-ann" /\
  cred_access_token <$> credential_of 7 w2 = Some "access-code-ann".
Proof. cbn zeta. repeat split; reflexivity. Qed.

(** ** Listing the playlists *)

Lemma follow_pages_listing (sp : Spotify) (more : list (list JSON)) :
  forall (first acc : list JSON) (w : World),
    follow_pages sp (listing first more) acc w
    = (Ok (acc ++ concat more),
       set_trace (trace w ++ repeat (ApiRequest "next" (auth sp)) (length more)) w).
Proof.
  induction more as [|page pages IH]; intros first acc w; cbn.
  - unfold ret. rewrite !app_nil_r. destruct w; reflexivity.
  - unfold bind, emit. rewrite IH. cbn.
    rewrite <- !app_assoc. cbn.
    replace (paging_items (listing page pages)) with page
      by (destruct pages; reflexivity).
    reflexivity.
Qed.

Lemma traverse_Forall2 {A B} (f : A -> Outcome B) (l : list A) (l' : list B) :
  traverse f l = Ok l' -> Forall2 (fun x y => f x = Ok y) l l'.
Proof.
  revert l'. induction l as [|x l IH]; intros l' H; cbn in H.
  - injection H as <-. constructor.
  - destruct (f x) as [y|e] eqn:Hx; cbn in H; [| discriminate H].
    destruct (traverse f l) as [ys|e]; cbn in H; [| discriminate H].
    injection H as <-. constructor; [exact Hx | apply IH; reflexivity].
Qed.

Lemma imported_of_spec (user_id : Z) (table : list Playlist) (s : string) :
  s ∈ (list_to_set (imported_of user_id table) : gset string)
  <-> imported user_id table s.
Proof.
  rewrite elem_of_list_to_set. unfold imported_of, imported.
  rewrite list_elem_of_omap. split.
  - intros (row & Hin & Hrow). exists row.
    apply list_elem_of_In in Hin.
    destruct (Z.eqb_spec (pl_user_id row) user_id); [auto | discriminate Hrow].
  - intros (row & Hin & Huser & Hid). exists row.
    split; [apply list_elem_of_In; exact Hin |].
    rewrite Huser, Z.eqb_refl. exact Hid.
Qed.

Lemma contains_true (ids : gset string) (v : JSON) (b : bool) :
  contains ids v = Ok b ->
  (b = true <-> exists s, v = JStr s /\ s ∈ ids).
Proof.
  destruct v; cbn; intros H; try discriminate H; injection H as <-.
  all: try (split; [discriminate | intros (s' & Hs & _); discriminate Hs]).
  rewrite bool_decide_eq_true. split.
  - intros Hin. eauto.
  - intros (s' & Hs & Hin). injection Hs as ->. exact Hin.
Qed.

Lemma format_playlist_spec (ids : gset string) (p : JSON) (rec : PlaylistInfo) :
  format_playlist ids p = Ok rec ->
  subscript p "id" = Ok (info_id rec) /\
  subscript p "name" = Ok (info_name rec) /\
  dict_get p "description" JNull = Ok (info_description rec) /\
  contains ids (info_id rec) = Ok (info_is_imported rec).
Proof.
  unfold format_playlist, and_then. intros H.
  destruct (subscript p "id") as [id|]; [| discriminate H].
  destruct (subscript p "name") as [name|]; [| discriminate H].
  destruct (dict_get p "description" JNull) as [description|]; [| discriminate H].
  destruct (contains ids id) as [is_imported|] eqn:Hin; [| discriminate H].
  injection H as <-. cbn. repeat split. exact Hin.
Qed.

Lemma traverse_Forall {A B} (f : A -> Outcome B) (l : list A) :
  Forall (fun x => exists y, f x = Ok y) l -> exists l', traverse f l = Ok l'.
Proof.
  induction 1 as [|x l (y & Hx) _ (l' & IH)]; cbn.
  - eexists; reflexivity.
  - rewrite Hx, IH. cbn. eexists; reflexivity.
Qed.

(** An item that is an object with a name and a hashable id is
    formatted, whatever else it holds. *)
Lemma format_playlist_item (ids : gset string) (d : list (string * JSON))
    (id name : JSON) :
  assoc "id" d = Some id -> assoc "name" d = Some name ->
  (forall l, id <> JList l) -> (forall d', id <> JDict d') ->
  exists is_imported,
    format_playlist ids (JDict d)
    = Ok {| info_id := id; info_name := name;
            info_description := default JNull (assoc "description" d);
            info_is_imported := is_imported |}.
Proof.
  intros Hid Hname Hlist Hdict.
  unfold format_playlist, and_then, subscript, dict_get.
  rewrite Hid, Hname.
  destruct id; cbn; try (eexists; reflexivity).
  - exfalso. eapply Hlist. reflexivity.
  - exfalso. eapply Hdict. reflexivity.
Qed.

(** What [format_playlist] returns is read off the item. *)
Lemma format_playlist_record (ids : gset string) (p : JSON) (rec : PlaylistInfo) :
  format_playlist ids p = Ok rec ->
  exists d,
    p = JDict d /\
    assoc "id" d = Some (info_id rec) /\
    assoc "name" d = Some (info_name rec) /\
    info_description rec = default JNull (assoc "description" d) /\
    (info_is_imported rec = true <->
     exists s, info_id rec = JStr s /\ s ∈ ids).
Proof.
  intros H. apply format_playlist_spec in H as (Hid & Hname & Hdesc & Hin).
  destruct p as [| | | | |d]; try discriminate Hid.
  exists d. split; [reflexivity |].
  cbn in Hid, Hname, Hdesc.
  destruct (assoc "id" d) as [id|]; [| discriminate Hid].
  destruct (assoc "name" d) as [name|]; [| discriminate Hname].
  injection Hid as Hid. injection Hname as Hname. injection Hdesc as Hdesc.
  split; [congruence |]. split; [congruence |].
  split; [symmetry; exact Hdesc |].
  apply (contains_true _ _ _ Hin).
Qed.

(** C7: for a listing served as a first page and any number of further
    pages, [get_spotify_playlists] makes one request per page (the first,
    then one per [next] cursor, until a page has none) and then reads the
    ids the user imported from the local playlists table.  When the items
    are objects with a name and a hashable id, it returns records; the
    records it returns are one per item of all pages, in order, with the
    item's id, name and description, and [is_imported] holds exactly when
    the id is a string that the local playlists table stores as
    [spotify_playlist_id] of a row of this user: nothing else of the
    provider's item enters it. *)
Theorem playlists_follow_every_page
    (current_user : User) (sp : Spotify) (w : World)
    (first : list JSON) (more : list (list JSON)) :
  api_me_playlists (provider w) (auth sp) 50 = Ok (listing first more) ->
  db_fault w SelectImported = None ->
  let items := first ++ concat more in
  let well_formed (p : JSON) :=
    exists d id name,
      p = JDict d /\ assoc "id" d = Some id /\ assoc "name" d = Some name /\
      (forall l, id <> JList l) /\ (forall d', id <> JDict d') in
  let record_of (p : JSON) (rec : PlaylistInfo) :=
    exists d,
      p = JDict d /\
      assoc "id" d = Some (info_id rec) /\
      assoc "name" d = Some (info_name rec) /\
      info_description rec = default JNull (assoc "description" d) /\
      (info_is_imported rec = true <->
       exists s, info_id rec = JStr s /\
                 imported (uid current_user) (playlists w) s) in
  let '(r, w') := get_spotify_playlists current_user sp w in
  logged w w'
  = ApiRequest "me/playlists" (auth sp)
    :: repeat (ApiRequest "next" (auth sp)) (length more)
    ++ [Database SelectImported (uid current_user)] /\
  calls is_api_request w' = (calls is_api_request w + S (length more))%nat /\
  (Forall well_formed items -> exists l, r = Ok (Playlists l)) /\
  (forall l, r = Ok (Playlists l) -> Forall2 record_of items l).
Proof.
  intros Hpages Hdb. cbn zeta.
  unfold get_spotify_playlists, current_user_playlists, select_imported.
  unfold try_except, bind at 1. unfold bind at 1, emit at 1.
  unfold bind at 1, get at 1, lift at 1. cbn [provider set_trace].
  rewrite Hpages.
  replace (paging_items (listing first more)) with first
    by (destruct more; reflexivity).
  unfold bind at 1. rewrite follow_pages_listing.
  unfold bind, execute, emit, get, lift, ret, raise. cbn -[imported_of].
  rewrite Hdb. cbn -[imported_of].
  set (ids := list_to_set (imported_of (uid current_user) (playlists w))).
  assert (Hnext : forall n,
            length (List.filter is_api_request
                      (repeat (ApiRequest "next" (auth sp)) n)) = n)
    by (induction n; cbn; congruence).
  assert (Hok : Forall
                  (fun p => exists d id name,
                     p = JDict d /\ assoc "id" d = Some id /\
                     assoc "name" d = Some name /\
                     (forall l, id <> JList l) /\ (forall d', id <> JDict d'))
                  (first ++ concat more) ->
                exists l, traverse (format_playlist ids) (first ++ concat more)
                          = Ok l).
  { intros Hitems. apply traverse_Forall. eapply Forall_impl; [exact Hitems |].
    intros p (d & id & name & -> & Hid & Hname & Hlist & Hdict).
    destruct (format_playlist_item ids d id name Hid Hname Hlist Hdict)
      as (b & Hb).
    eexists; exact Hb. }
  destruct (traverse (format_playlist ids) (first ++ concat more))
    as [l|e] eqn:Hfmt; cbn.
  all: split;
    [unfold logged; cbn; rewrite <- !app_assoc; rewrite drop_app_length;
     reflexivity |].
  all: split;
    [unfold calls; cbn; rewrite !List.filter_app, !length_app; cbn;
     rewrite Hnext; lia |].
  2: { split; [| intros l H; discriminate H].
       intros Hitems. destruct (Hok Hitems) as (l & Hl). discriminate Hl. }
  split; [intros _; exists l; reflexivity |].
  intros l' H. injection H as <-.
  apply traverse_Forall2 in Hfmt.
  eapply Forall2_impl; [exact Hfmt |].
  intros p rec Hone. cbn beta in Hone.
  apply format_playlist_record in Hone as (d & Hp & Hid & Hname & Hdesc & Hin).
  exists d. repeat (split; [assumption |]).
  rewrite Hin.
  split; intros (s & Hs & Hmem); exists s; (split; [exact Hs |]);
    apply imported_of_spec; exact Hmem.
Qed.

Lemma playlists_follow_every_page_witness :
  let w := linked_world (timedelta_seconds 40000) (Some "completed") in
  let sp := {| auth := "access-old" |} in
  let items := demo_page1 ++ concat [demo_page2] in
  let well_formed (p : JSON) :=
    exists d id name,
      p = JDict d /\ assoc "id" d = Some id /\ assoc "name" d = Some name /\
      (forall l, id <> JList l) /\ (forall d', id <> JDict d') in
  let record_of (p : JSON) (rec : PlaylistInfo) :=
    exists d,
      p = JDict d /\
      assoc "id" d = Some (info_id rec) /\
      assoc "name" d = Some (info_name rec) /\
      info_description rec = default JNull (assoc "description" d) /\
      (info_is_imported rec = true <->
       exists s, info_id rec = JStr s /\ imported (uid ann) (playlists w) s) in
  (api_me_playlists (provider w) (auth sp) 50 = Ok (listing demo_page1 [demo_page2]) /\
   db_fault w SelectImported = None /\
   Forall well_formed items) /\
  let '(r, w') := get_spotify_playlists ann sp w in
  logged w w'
  = [ ApiRequest "me/playlists" "access-old"; ApiRequest "next" "access-old";
      Database SelectImported 7 ] /\
  calls is_api_request w' = (calls is_api_request w + 2)%nat /\
  exists l, r = Ok (Playlists l) /\ Forall2 record_of items l.
Proof.
  cbn zeta.
  assert (Hitems :
    Forall (fun p => exists d id name,
              p = JDict d /\ assoc "id" d = Some id /\ assoc "name" d = Some name /\
              (forall l, id <> JList l) /\ (forall d', id <> JDict d'))
           (demo_page1 ++ concat [demo_page2])).
  { repeat constructor.
    all: eexists _, _, _; split; [reflexivity |]; split; [reflexivity |].
    all: split; [reflexivity |]; split; intros; discriminate. }
  split; [split; [reflexivity | split; [reflexivity | exact Hitems]] |].
  pose proof (playlists_follow_every_page ann {| auth := "access-old" |}
                (linked_world (timedelta_seconds 40000) (Some "completed"))
                demo_page1 [demo_page2] eq_refl eq_refl) as H.
  cbn zeta in H.
  destruct (get_spotify_playlists ann {| auth := "access-old" |}
              (linked_world (timedelta_seconds 40000) (Some "completed")))
    as [r w'].
  destruct H as (Hlog & Hcalls & Hsome & Hall).
  split; [exact Hlog |]. split; [exact Hcalls |].
  destruct (Hsome Hitems) as (l & ->).
  exists l. split; [reflexivity | apply Hall; reflexivity].
Defined.

(** The listing of the demonstration provider for user 7, who imported
    "p1" only: both pages are returned, "p1" is marked. *)
Example playlists_of_ann :
  fst (GET_playlists ann (linked_world (timedelta_seconds 40000) (Some "completed")))
  = Ok (Playlists
          [ {| info_id := JStr "p1"; info_name := JStr "Road trip";
               info_description := JStr "for the car"; info_is_imported := true |};
            {| info_id := JStr "p2"; info_name := JStr "Focus";
               info_description := JNull; info_is_imported := false |} ]).
Proof. vm_compute. reflexivity. Qed.

(** ** Further facts about the model *)

(** The sequence keeps the ids positive. *)
Lemma upsert_serial_ids (id user_id : Z) (spotify_id access_token refresh_token : string)
    (expires_at now : Timestamp) (table : list Credential) :
  0 < id -> serial_ids table ->
  serial_ids (upsert id user_id spotify_id access_token refresh_token
                expires_at now table).
Proof.
  unfold serial_ids, upsert. intros Hid Hids.
  destruct (existsb (owned_by user_id) table).
  - rewrite List.Forall_forall in *. intros r Hin.
    apply in_map_iff in Hin as (r0 & <- & Hin0).
    destruct (owned_by user_id r0); [cbn |]; apply Hids; exact Hin0.
  - apply Forall_app. split; [exact Hids |]. repeat constructor. exact Hid.
Qed.

(** A rejected upsert is swallowed: the callback still answers the success
    redirect, and the table is what it was. *)
Lemma callback_swallows_database_error :
  let w := set_db_fault (fun s => match s with
                                  | UpsertCredentials => Some "connection lost"
                                  | _ => None
                                  end) fresh_world in
  fst (spotify_callback "c0de" "7" None true w)
    = Ok (RedirectResponse "https://tubify.test?spotify_connected=true") /\
  spotify_credentials (snd (spotify_callback "c0de" "7" None true w)) = [] /\
  last (trace (snd (spotify_callback "c0de" "7" None true w)))
    = Some (Printed "error: connection lost").
Proof. cbn zeta. repeat split; reflexivity. Qed.

(** Disconnecting twice: no error either time, and [/status] reports no
    connection afterwards. *)
Lemma disconnect_twice :
  let w := linked_world 0 (Some "completed") in
  let w1 := snd (spotify_disconnect ann w) in
  let w2 := snd (spotify_disconnect ann w1) in
  fst (spotify_disconnect ann w) = Ok (Message "spotify disconnected successfully") /\
  fst (spotify_disconnect ann w1) = Ok (Message "spotify disconnected successfully") /\
  fst (spotify_connection_status ann w1) = Ok (ConnectionStatus false) /\
  fst (spotify_connection_status ann w2) = Ok (ConnectionStatus false).
Proof. cbn zeta. repeat split; reflexivity. Qed.

(** [int] and [str] on a few inputs.  White space and decimal digits of
    any script are read as Python reads them; the separators U+001C to
    U+001F, a NUL and a numeral of more than 4300 digits are refused. *)
Example int_examples :
  int "42" = Some 42 /\ int " -7 " = Some (-7) /\ int "1_000" = Some 1000 /\
  int "abc" = None /\ int "1__0" = None /\ int "12_" = None /\
  int "+" = None /\ int "007" = Some 7 /\ int (str 15) = Some 15 /\
  str (-3) = "-3" /\
  int "٣" = Some 3 /\ int "-４２" = Some (-42) /\
  int (String "194" (String "160" "7")) = Some 7 /\
  int (String "028" "7") = None /\ int (String "7" (String "000" EmptyString)) = None /\
  int (String "160" "7") = None /\ int "７seven" = None /\
  int (string_of_list_ascii (repeat "1"%char 4301)) = None /\
  int (string_of_list_ascii (repeat "0"%char 4300)) = Some 0.
Proof. vm_compute. repeat split; reflexivity. Qed.
(** * Further properties of the module *)

(** ** The state of the authorize URL parses back *)

Lemma pretty_N_char_digit (d : N) :
  (d < 10)%N ->
  is_digit (pretty_N_char d) = true /\ digit_value (pretty_N_char d) = Z.of_N d.
Proof.
  intros Hd.
  assert (H : (d = 0 \/ d = 1 \/ d = 2 \/ d = 3 \/ d = 4 \/ d = 5 \/ d = 6 \/
               d = 7 \/ d = 8 \/ d = 9)%N) by lia.
  repeat (destruct H as [-> | H]; [split; reflexivity |]).
  subst d. split; reflexivity.
Qed.

Lemma digit_not_space (c : ascii) : is_digit c = true -> is_space c = false.
Proof.
  unfold is_digit, is_space. cbn zeta. intros H.
  apply andb_true_iff in H as [H1 H2].
  apply Nat.leb_le in H1, H2.
  destruct (Nat.leb_spec 9 (nat_of_ascii c)), (Nat.leb_spec (nat_of_ascii c) 13),
    (Nat.eqb_spec (nat_of_ascii c) 32);
    cbn; try reflexivity; lia.
Qed.

Lemma digit_is_ascii (c : ascii) : is_digit c = true -> (byte c <? 127) = true.
Proof.
  unfold is_digit, byte, nat_of_ascii. cbn zeta. intros H.
  apply andb_true_iff in H as [_ H]. apply Nat.leb_le in H.
  apply Z.ltb_lt. lia.
Qed.

(** ASCII text is its own UTF-8, and [int] reads it as it is. *)
Lemma transform_ascii (s : string) :
  all_chars (fun c => byte c <? 127) s = true ->
  transform_decimal_and_space_to_ascii (chars s) = Some s.
Proof.
  induction s as [|c rest IH]; [reflexivity |]. cbn [all_chars]. intros H.
  apply andb_true_iff in H as [Hc Hrest]. apply Z.ltb_lt in Hc.
  assert (Hw : width c = 1%nat).
  { unfold width. destruct (Z.ltb_spec (byte c) 0xC0); [reflexivity | lia]. }
  cbn [chars]. rewrite Hw. cbn [transform_decimal_and_space_to_ascii ord].
  destruct (Z.ltb_spec (byte c) 0x80) as [_|]; [| lia].
  cbn [mbind option_bind]. unfold to_ascii.
  destruct (Z.ltb_spec (byte c) 127) as [_|]; [| lia].
  cbn [mbind option_bind]. rewrite IH by exact Hrest. cbn [fmap option_fmap option_map].
  unfold byte. rewrite N2Z.id, ascii_N_embedding. reflexivity.
Qed.

Lemma all_digits_ascii (s : string) :
  all_chars is_digit s = true -> all_chars (fun c => byte c <? 127) s = true.
Proof.
  induction s as [|c rest IH]; [reflexivity |]. cbn. intros H.
  apply andb_true_iff in H as [Hc Hrest].
  rewrite (digit_is_ascii _ Hc), IH by exact Hrest. reflexivity.
Qed.

Lemma count_digits_length (s : string) : (count_digits s <= String.length s)%nat.
Proof.
  induction s as [|c rest IH]; [reflexivity |]. cbn.
  destruct (is_digit c); lia.
Qed.

(** A number below [10 ^ k] is written with [k] digits at most. *)
Lemma pretty_N_go_length (k : nat) :
  forall (x : N) (s : string),
    (x < 10 ^ N.of_nat k)%N ->
    (String.length (pretty_N_go x s) <= k + String.length s)%nat.
Proof.
  induction k as [|k IH]; intros x s Hx.
  - assert (x = 0%N) as -> by (cbn in Hx; lia).
    rewrite pretty_N_go_0. cbn. lia.
  - destruct (N.eq_dec x 0%N) as [-> | Hne]; [rewrite pretty_N_go_0; lia |].
    rewrite pretty_N_go_step by lia.
    etransitivity; [apply IH |]; [| cbn; lia].
    rewrite Nat2N.inj_succ, N.pow_succ_r' in Hx.
    apply N.Div0.div_lt_upper_bound. exact Hx.
Qed.

Lemma pretty_N_go_digits (x : N) :
  forall s, all_chars is_digit s = true ->
            all_chars is_digit (pretty_N_go x s) = true.
Proof.
  induction (N.lt_wf_0 x) as [x _ IH]. intros s Hs.
  destruct (N.eq_dec x 0%N) as [-> | Hx]; [rewrite pretty_N_go_0; exact Hs |].
  rewrite pretty_N_go_step by lia.
  apply IH; [apply N.div_lt; lia |].
  cbn. rewrite Hs, andb_true_r.
  apply pretty_N_char_digit. apply N.mod_lt. discriminate.
Qed.

(** Reading the digits that [pretty_N_go] wrote in front of [s]. *)
Lemma digits_pretty_N_go (x : N) :
  (0 < x)%N ->
  exists p, forall acc b s,
    digits acc b (pretty_N_go x s) = digits (acc * p + Z.of_N x) true s.
Proof.
  induction (N.lt_wf_0 x) as [x _ IH]. intros Hx.
  assert (Hmod : (x `mod` 10 < 10)%N) by (apply N.mod_lt; discriminate).
  destruct (pretty_N_char_digit _ Hmod) as [Hdig Hval].
  destruct (N.eq_dec (x `div` 10)%N 0%N) as [Hq | Hq].
  - exists 10. intros acc b s.
    rewrite pretty_N_go_step, Hq, pretty_N_go_0 by exact Hx.
    cbn. rewrite Hdig, Hval. f_equal.
    apply N.div_small_iff in Hq; [| discriminate].
    rewrite N.mod_small by exact Hq. reflexivity.
  - destruct (IH (x `div` 10)%N) as [p Hp];
      [apply N.div_lt; lia | apply N.neq_0_lt_0; exact Hq |].
    exists (p * 10). intros acc b s.
    rewrite pretty_N_go_step, Hp by exact Hx.
    cbn. rewrite Hdig, Hval. f_equal.
    assert (Hsplit : Z.of_N x
                     = 10 * Z.of_N (x `div` 10) + Z.of_N (x `mod` 10)).
    { rewrite (N.div_mod x 10) at 1 by discriminate.
      rewrite N2Z.inj_add, N2Z.inj_mul. reflexivity. }
    lia.
Qed.

Lemma lstrip_id (c : ascii) (rest : string) :
  is_space c = false -> lstrip (String c rest) = String c rest.
Proof. intros H. cbn. rewrite H. reflexivity. Qed.

Lemma rstrip_nonempty_id (s : string) :
  s <> EmptyString ->
  all_chars (fun c => negb (is_space c)) s = true ->
  rstrip_nonempty s = Some s.
Proof.
  induction s as [|c rest IH]; [congruence |]. intros _ Hall.
  cbn in Hall. apply andb_true_iff in Hall as [Hc Hrest].
  cbn. destruct rest as [|c' rest'].
  - cbn. apply negb_true_iff in Hc. rewrite Hc. reflexivity.
  - rewrite IH by (congruence || exact Hrest). reflexivity.
Qed.

Lemma all_digits_no_space (s : string) :
  all_chars is_digit s = true ->
  all_chars (fun c => negb (is_space c)) s = true.
Proof.
  induction s as [|c rest IH]; [reflexivity |]. cbn. intros H.
  apply andb_true_iff in H as [Hc Hrest].
  rewrite (digit_not_space _ Hc), IH by exact Hrest. reflexivity.
Qed.

(** On a string of digits [int] is the digit reader, up to the limit on
    their number. *)
Lemma int_of_digits (c : ascii) (rest : string) :
  all_chars is_digit (String c rest) = true ->
  int (String c rest) = numeral (String c rest).
Proof.
  intros Hall. pose proof Hall as Hall'. cbn in Hall'.
  apply andb_true_iff in Hall' as [Hc _].
  unfold int. rewrite transform_ascii by (apply all_digits_ascii, Hall).
  cbn [mbind option_bind].
  rewrite lstrip_id by (apply digit_not_space; exact Hc).
  rewrite rstrip_nonempty_id by (congruence || apply all_digits_no_space, Hall).
  destruct c as [[] [] [] [] [] [] [] []]; try discriminate Hc; reflexivity.
Qed.

Lemma numeral_short (s : string) :
  (String.length s <= 19)%nat -> numeral s = digits 0 false s.
Proof.
  intros Hlen. unfold numeral.
  pose proof (count_digits_length s) as Hcount.
  destruct (Nat.ltb_spec int_max_str_digits (count_digits s)) as [Hlt|];
    [| reflexivity].
  exfalso. apply (Nat.lt_irrefl 19).
  eapply Nat.lt_le_trans; [| etransitivity; [exact Hcount | exact Hlen]].
  eapply Nat.le_lt_trans; [| exact Hlt].
  unfold int_max_str_digits. apply Nat.leb_le. vm_compute. reflexivity.
Qed.

Lemma int_pretty_N (x : N) :
  (0 < x < 10 ^ 19)%N -> int (pretty_N_go x EmptyString) = Some (Z.of_N x).
Proof.
  intros [Hx Hmax]. destruct (digits_pretty_N_go x Hx) as [p Hp].
  assert (Hread : digits 0 false (pretty_N_go x EmptyString) = Some (Z.of_N x))
    by (rewrite Hp; cbn; reflexivity).
  pose proof (pretty_N_go_digits x EmptyString eq_refl) as Hall.
  pose proof (pretty_N_go_length 19 x EmptyString Hmax) as Hlen.
  destruct (pretty_N_go x EmptyString) as [|c rest]; [discriminate Hread |].
  rewrite int_of_digits by exact Hall.
  rewrite numeral_short by exact Hlen. exact Hread.
Qed.

Lemma int_minus_pretty_N (x : N) :
  (0 < x < 10 ^ 19)%N ->
  int (String "-"%char (pretty_N_go x EmptyString)) = Some (- Z.of_N x).
Proof.
  intros [Hx Hmax]. destruct (digits_pretty_N_go x Hx) as [p Hp].
  assert (Hread : digits 0 false (pretty_N_go x EmptyString) = Some (Z.of_N x))
    by (rewrite Hp; cbn; reflexivity).
  pose proof (pretty_N_go_digits x EmptyString eq_refl) as Hall.
  pose proof (pretty_N_go_length 19 x EmptyString Hmax) as Hlen.
  unfold int.
  rewrite transform_ascii by (cbn [all_chars]; apply all_digits_ascii, Hall).
  cbn [mbind option_bind].
  rewrite lstrip_id by reflexivity.
  rewrite rstrip_nonempty_id;
    [| congruence | cbn; apply all_digits_no_space, Hall].
  rewrite numeral_short by exact Hlen.
  destruct (pretty_N_go x EmptyString) as [|c rest]; [discriminate Hread |].
  cbn -[digits]. rewrite Hread. reflexivity.
Qed.

(** The key of a user, written by [str], is read back by [int]. *)
Lemma int_str (n : Z) : Is_true (is_key n) -> int (str n) = Some n.
Proof.
  unfold is_key. intros Hkey. apply Is_true_true in Hkey.
  apply andb_true_iff in Hkey as [Hlo Hhi].
  apply Z.leb_le in Hlo. apply Z.ltb_lt in Hhi.
  assert (Hpow : Z.pow 2 63 < Z.of_N (10 ^ 19)) by (vm_compute; reflexivity).
  assert (Hmax : forall x, Z.pos x <= Z.pow 2 63 -> (0 < N.pos x < 10 ^ 19)%N).
  { intros y Hy. split; [reflexivity |]. apply N2Z.inj_lt.
    eapply Z.le_lt_trans; [exact Hy | exact Hpow]. }
  unfold str, pretty, pretty_Z. destruct n as [|x|x].
  - vm_compute. reflexivity.
  - unfold pretty, pretty_positive, pretty, pretty_N.
    rewrite decide_False by discriminate.
    rewrite int_pretty_N by (apply Hmax, Z.lt_le_incl; exact Hhi). reflexivity.
  - unfold pretty, pretty_positive, pretty, pretty_N.
    rewrite decide_False by discriminate.
    change ("-" +:+ pretty_N_go (N.pos x) EmptyString)
      with (String "-"%char (pretty_N_go (N.pos x) EmptyString)).
    rewrite int_minus_pretty_N
      by (apply Hmax; apply Z.opp_le_mono; exact Hlo).
    reflexivity.
Qed.

Lemma connect_url_state (user : User) (w w1 : World) (url : AuthorizeUrl) :
  spotify_connect user w = (Ok (ConnectUrl url), w1) ->
  url_state url = str (uid user).
Proof.
  unfold spotify_connect, select_credential_id. step.
  destruct (db_fault w SelectCredentialId); cbn; [discriminate |].
  destruct (truthy_result _); cbn; [discriminate |].
  intros H. injection H as <- _. reflexivity.
Qed.

(** X1: the [state] of the authorize URL survives the round trip.  The
    state that [/connect] issues for a user is read by [int(state)], as
    the callback does, as the id of that user; the callback never answers
    'invalid state parameter' to it, and users with different ids are
    issued different states. *)
Theorem connect_state_round_trip
    (user : User) (w w1 : World) (url : AuthorizeUrl) :
  spotify_connect user w = (Ok (ConnectUrl url), w1) ->
  int (url_state url) = Some (uid user) /\
  (forall other w2 w3 url',
     spotify_connect other w2 = (Ok (ConnectUrl url'), w3) ->
     url_state url' = url_state url -> uid other = uid user) /\
  forall code error bg w2,
    fst (spotify_callback code (url_state url) error bg w2)
    <> Raise (HTTPException 400 "invalid state parameter").
Proof.
  intros Hconnect. apply connect_url_state in Hconnect as Hstate.
  assert (Hint : int (url_state url) = Some (uid user))
    by (rewrite Hstate; apply int_str, uid_is_key).
  split; [exact Hint |]. split.
  - intros other w2 w3 url' Hother Heq.
    apply connect_url_state in Hother.
    assert (H : int (url_state url') = Some (uid other))
      by (rewrite Hother; apply int_str, uid_is_key).
    rewrite Heq, Hint in H. injection H as ->. reflexivity.
  - intros code error bg w2. unfold spotify_callback.
    destruct (error_given error); [cbn; intros H; discriminate H |].
    rewrite Hint. unfold try_except at 1.
    match goal with
    | |- fst (match ?body with _ => _ end) <> _ =>
        destruct body as [[a|e] w']
    end; cbn; discriminate.
Qed.

Lemma connect_state_round_trip_witness :
  let url := get_authorize_url (sp_oauth fresh_world) "8" in
  spotify_connect bob fresh_world
  = (Ok (ConnectUrl url),
     set_trace [Database SelectCredentialId 8] fresh_world) /\
  int (url_state url) = Some 8 /\
  fst (spotify_callback "c0de" (url_state url) None true fresh_world)
  <> Raise (HTTPException 400 "invalid state parameter").
Proof.
  cbn zeta. split; [reflexivity |].
  destruct (connect_state_round_trip bob fresh_world _ _ eq_refl)
    as (Hint & _ & Hcallback).
  split; [exact Hint | apply Hcallback].
Defined.

(** ** Connecting, status and disconnecting *)

Ltac count_calls :=
  unfold calls; cbn; rewrite ?List.filter_app, ?length_app; cbn; lia.

Lemma find_filter_own (user_id : Z) (table : list Credential) :
  find (owned_by user_id)
       (filter (fun r => negb (owned_by user_id r)) table) = None.
Proof.
  induction table as [|r table IH]; [reflexivity |].
  rewrite filter_cons. destruct (decide _) as [Hkeep|Hdrop]; [| exact IH].
  cbn. destruct (owned_by user_id r); [destruct Hkeep | exact IH].
Qed.

Lemma find_filter_other (user_id other : Z) (table : list Credential) :
  other <> user_id ->
  find (owned_by other)
       (filter (fun r => negb (owned_by user_id r)) table)
  = find (owned_by other) table.
Proof.
  intros Hne. induction table as [|r table IH]; [reflexivity |].
  rewrite filter_cons. destruct (decide _) as [Hkeep|Hdrop]; cbn.
  - destruct (owned_by other r); [reflexivity | exact IH].
  - destruct (owned_by user_id r) eqn:Hown; [| destruct Hdrop; exact I].
    unfold owned_by in *. apply Z.eqb_eq in Hown.
    destruct (Z.eqb_spec (cred_user_id r) other); [congruence | exact IH].
Qed.

Lemma filter_own_twice (user_id : Z) (table : list Credential) :
  filter (fun r => negb (owned_by user_id r))
    (filter (fun r => negb (owned_by user_id r)) table)
  = filter (fun r => negb (owned_by user_id r)) table.
Proof.
  induction table as [|r table IH]; [reflexivity |].
  rewrite filter_cons. destruct (decide _) as [Hkeep|Hdrop]; [| exact IH].
  rewrite filter_cons, decide_True by exact Hkeep. rewrite IH. reflexivity.
Qed.

Lemma rows_of_find_none (user_id : Z) (table : list Credential) :
  find (owned_by user_id) table = None -> rows_of user_id table = 0%nat.
Proof.
  unfold rows_of. induction table as [|r table IH]; [reflexivity |].
  cbn. destruct (owned_by user_id r); [discriminate | exact IH].
Qed.

(** X2: [/disconnect] answers the success message and removes the rows of
    the calling user: afterwards the user has no Credential row, while the
    row of every other user and the playlists table are what they were;
    no request leaves for the provider. *)
Theorem disconnect_removes_only_own_rows (user : User) (w : World) :
  db_fault w DeleteCredentials = None ->
  let '(r, w') := spotify_disconnect user w in
  r = Ok (Message "spotify disconnected successfully") /\
  credential_of (uid user) w' = None /\
  rows_of (uid user) (spotify_credentials w') = 0%nat /\
  (forall other, other <> uid user ->
     credential_of other w' = credential_of other w) /\
  playlists w' = playlists w /\
  calls is_network w' = calls is_network w.
Proof.
  intros Hdb. unfold spotify_disconnect, delete_credentials. step.
  rewrite Hdb. cbn. unfold credential_of; cbn.
  split; [reflexivity |]. split; [apply find_filter_own |].
  split; [apply rows_of_find_none, find_filter_own |].
  split; [intros other Hne; apply find_filter_other; exact Hne |].
  split; [reflexivity |].
  count_calls.
Qed.

Lemma disconnect_removes_only_own_rows_witness :
  let w := linked_world 0 (Some "completed") in
  db_fault w DeleteCredentials = None /\
  let '(r, w') := spotify_disconnect ann w in
  r = Ok (Message "spotify disconnected successfully") /\
  credential_of (uid ann) w' = None /\
  rows_of (uid ann) (spotify_credentials w') = 0%nat /\
  (forall other, other <> uid ann ->
     credential_of other w' = credential_of other w) /\
  playlists w' = playlists w /\
  calls is_network w' = calls is_network w.
Proof.
  split; [reflexivity |].
  exact (disconnect_removes_only_own_rows ann
           (linked_world 0 (Some "completed")) eq_refl).
Defined.

(** X3: disconnecting is idempotent.  A second [/disconnect] answers the
    same success message and leaves the table as the first left it, also
    for a user who never linked an account; [/status] reports
    [is_connected = false] after either call. *)
Theorem disconnect_is_idempotent (user : User) (w : World) :
  db_fault w DeleteCredentials = None ->
  db_fault w SelectCredentialId = None ->
  let w1 := snd (spotify_disconnect user w) in
  let w2 := snd (spotify_disconnect user w1) in
  fst (spotify_disconnect user w)
    = Ok (Message "spotify disconnected successfully") /\
  fst (spotify_disconnect user w1)
    = Ok (Message "spotify disconnected successfully") /\
  spotify_credentials w2 = spotify_credentials w1 /\
  fst (spotify_connection_status user w1) = Ok (ConnectionStatus false) /\
  fst (spotify_connection_status user w2) = Ok (ConnectionStatus false).
Proof.
  intros Hdel Hsel. cbn zeta.
  unfold spotify_disconnect, spotify_connection_status, delete_credentials,
    select_credential_id.
  step. rewrite Hdel. cbn. rewrite Hdel. cbn. rewrite Hsel. cbn.
  rewrite filter_own_twice, find_filter_own. cbn.
  repeat split.
Qed.

Lemma disconnect_is_idempotent_witness :
  let w := fresh_world in
  let w1 := snd (spotify_disconnect bob w) in
  let w2 := snd (spotify_disconnect bob w1) in
  (db_fault w DeleteCredentials = None /\
   db_fault w SelectCredentialId = None) /\
  fst (spotify_disconnect bob w)
    = Ok (Message "spotify disconnected successfully") /\
  fst (spotify_disconnect bob w1)
    = Ok (Message "spotify disconnected successfully") /\
  spotify_credentials w2 = spotify_credentials w1 /\
  fst (spotify_connection_status bob w1) = Ok (ConnectionStatus false) /\
  fst (spotify_connection_status bob w2) = Ok (ConnectionStatus false).
Proof.
  split; [split; reflexivity |].
  exact (disconnect_is_idempotent bob fresh_world eq_refl eq_refl).
Defined.

(** X4: [/status] is a pure read.  It reports [is_connected = true]
    exactly when the user has a Credential row (row ids being those of
    the table's sequence), leaves both tables as they were, issues no
    writing statement and no request to the provider. *)
Theorem status_reports_the_link (user : User) (w : World) :
  db_fault w SelectCredentialId = None ->
  serial_ids (spotify_credentials w) ->
  let '(r, w') := spotify_connection_status user w in
  r = Ok (ConnectionStatus
            match credential_of (uid user) w with
            | Some _ => true
            | None => false
            end) /\
  w' = set_trace (trace w ++ [Database SelectCredentialId (uid user)]) w /\
  spotify_credentials w' = spotify_credentials w /\
  calls is_db_write w' = calls is_db_write w /\
  calls is_network w' = calls is_network w.
Proof.
  intros Hdb Hids.
  unfold spotify_connection_status, select_credential_id. step.
  rewrite Hdb. cbn. unfold credential_of.
  assert (Hflag : truthy_result
            (cred_id <$> find (owned_by (uid user)) (spotify_credentials w))
          = match find (owned_by (uid user)) (spotify_credentials w) with
            | Some _ => true
            | None => false
            end).
  { destruct (find (owned_by (uid user)) (spotify_credentials w)) as [row|] eqn:Hrow;
      [| reflexivity].
    apply find_owned in Hrow as [Hin _].
    unfold serial_ids in Hids. rewrite List.Forall_forall in Hids.
    specialize (Hids row Hin). cbn.
    destruct (Z.eqb_spec (cred_id row) 0); [lia | reflexivity]. }
  rewrite Hflag. split; [reflexivity |]. split; [reflexivity |].
  split; [reflexivity |].
  split; count_calls.
Qed.

Lemma status_reports_the_link_witness :
  let w := linked_world 0 (Some "completed") in
  (db_fault w SelectCredentialId = None /\
   serial_ids (spotify_credentials w)) /\
  fst (spotify_connection_status ann w) = Ok (ConnectionStatus true) /\
  fst (spotify_connection_status bob w) = Ok (ConnectionStatus false).
Proof.
  assert (Hids : serial_ids (spotify_credentials (linked_world 0 (Some "completed"))))
    by (repeat constructor).
  split; [split; [reflexivity | exact Hids] |].
  split.
  - pose proof (status_reports_the_link ann (linked_world 0 (Some "completed"))
                  eq_refl Hids) as H.
    destruct (spotify_connection_status ann (linked_world 0 (Some "completed")))
      as [r w']. destruct H as [-> _]. reflexivity.
  - reflexivity.
Defined.

(** X5: for a user without a Credential row, [/connect] returns the
    authorize URL of the process-wide helper: client id and redirect URI of
    the configuration, the eleven scopes, [show_dialog] set, and a state
    that parses back to the user's id.  The only call is the SELECT: no
    row is written, no cache is touched, nothing is sent to the
    provider. *)
Theorem connect_returns_authorize_url (user : User) (w : World) :
  db_fault w SelectCredentialId = None ->
  credential_of (uid user) w = None ->
  let '(r, w') := spotify_connect user w in
  (exists url,
     r = Ok (ConnectUrl url) /\
     url_state url = str (uid user) /\
     int (url_state url) = Some (uid user) /\
     url_scope url = SPOTIFY_SCOPES /\ length (url_scope url) = 11%nat /\
     url_show_dialog url = true /\
     url_client_id url = SPOTIFY_CLIENT_ID (config w) /\
     url_redirect_uri url = SPOTIFY_REDIRECT_URI (config w)) /\
  w' = set_trace (trace w ++ [Database SelectCredentialId (uid user)]) w /\
  spotify_credentials w' = spotify_credentials w /\
  handlers w' = handlers w /\
  calls is_network w' = calls is_network w.
Proof.
  intros Hdb Hnone.
  unfold spotify_connect, select_credential_id. step.
  rewrite Hdb. cbn. unfold credential_of in Hnone. rewrite Hnone. cbn.
  split.
  { eexists. split; [reflexivity |]. cbn.
    split; [reflexivity |]. split; [apply int_str, uid_is_key |]. repeat split. }
  split; [reflexivity |]. split; [reflexivity |]. split; [reflexivity |].
  count_calls.
Qed.

Lemma connect_returns_authorize_url_witness :
  db_fault fresh_world SelectCredentialId = None /\
  credential_of (uid bob) fresh_world = None /\
  let '(r, w') := spotify_connect bob fresh_world in
  (exists url,
     r = Ok (ConnectUrl url) /\
     url_state url = str (uid bob) /\
     int (url_state url) = Some (uid bob) /\
     url_scope url = SPOTIFY_SCOPES /\ length (url_scope url) = 11%nat /\
     url_show_dialog url = true /\
     url_client_id url = SPOTIFY_CLIENT_ID (config fresh_world) /\
     url_redirect_uri url = SPOTIFY_REDIRECT_URI (config fresh_world)) /\
  w' = set_trace (trace fresh_world ++ [Database SelectCredentialId (uid bob)])
         fresh_world /\
  spotify_credentials w' = spotify_credentials fresh_world /\
  handlers w' = handlers fresh_world /\
  calls is_network w' = calls is_network fresh_world.
Proof.
  split; [reflexivity |]. split; [reflexivity |].
  exact (connect_returns_authorize_url bob fresh_world eq_refl eq_refl).
Defined.

(** ** What the callback answers *)

Section Keeps.
Context {A B C : Type} (f : World -> C).

Lemma keeps_bind (m : M A) (k : A -> M B) :
  keeps f m -> (forall a, keeps f (k a)) -> keeps f (bind m k).
Proof.
  intros Hm Hk w. unfold bind. specialize (Hm w).
  destruct (m w) as [[a|e] w1]; cbn in *; [| exact Hm].
  rewrite Hk. exact Hm.
Qed.

Lemma keeps_try_except (body : M A) (handler : Exception -> M A) :
  keeps f body -> (forall e, keeps f (handler e)) ->
  keeps f (try_except body handler).
Proof.
  intros Hm Hk w. unfold try_except. specialize (Hm w).
  destruct (body w) as [[a|e] w1]; cbn in *; [exact Hm |].
  rewrite Hk. exact Hm.
Qed.
End Keeps.

(** Leaves of the monad are settled by computation. *)
Ltac keeps :=
  repeat match goal with
  | |- keeps _ (bind _ _) => apply keeps_bind; [| intros ?]
  | |- keeps _ (try_except _ _) => apply keeps_try_except; [| intros ?]
  | |- keeps _ (match ?x with _ => _ end) => destruct x
  | |- keeps _ _ => solve [intros ?; reflexivity]
  end.

Lemma get_access_token_keeps_background (oauth : SpotifyOAuth) (code : string) :
  keeps background (get_access_token oauth code).
Proof.
  unfold get_access_token, get_cached_token, validate_token, is_token_expired,
    refresh_token_of, refresh_access_token, add_custom_values, post_token,
    save_token_to_cache, time_time.
  keeps.
Qed.

Lemma current_user_keeps_background (sp : Spotify) :
  keeps background (current_user sp).
Proof. unfold current_user. keeps. Qed.

(** X6: when nothing is cached and the provider rejects the authorization
    code, the callback answers a redirect to the frontend carrying
    [spotify_error] with the text of the exception, not an HTTP error; no
    database statement is issued, the table and the cache are as they
    were and no background task is scheduled.  An empty code is not sent
    to the provider at all: the library asks for one interactively, and
    the failure of that attempt is what the redirect carries. *)
Theorem callback_exchange_failure_redirects
    (code state : string) (error : option string) (bg : bool) (w : World)
    (user_id : Z) (e : Exception) :
  error_given error = false ->
  int state = Some user_id ->
  default None (handlers w !! sp_oauth_cache) = None ->
  (if String.eqb code EmptyString
   then auth_response w = Raise e
   else token_endpoint (provider w) (AuthorizationCode code) = Raise e) ->
  let '(r, w') := spotify_callback code state error bg w in
  r = Ok (RedirectResponse
            (fstr (FRONTEND_URL (config w)) +:+ "?spotify_error="
             +:+ str_exception e)) /\
  http_status r = 307 /\
  spotify_credentials w' = spotify_credentials w /\
  handlers w' = handlers w /\
  background w' = background w /\
  logged w w' = [ CacheRead sp_oauth_cache;
                  if String.eqb code EmptyString
                  then AuthPrompt
                  else TokenRequest (AuthorizationCode code) ].
Proof.
  intros Herr Hint Hcache Hreject.
  unfold spotify_callback. rewrite Herr, Hint.
  unfold get_access_token, get_cached_token, validate_token, post_token,
    get_auth_response.
  step. cbn in Hcache. rewrite Hcache. cbn.
  destruct (String.eqb code EmptyString); cbn; rewrite Hreject; cbn.
  all: repeat split.
  all: unfold logged; cbn; rewrite <- app_assoc; rewrite drop_app_length;
    reflexivity.
Qed.

Lemma callback_exchange_failure_redirects_witness :
  let w := set_provider rejecting_provider fresh_world in
  (error_given None = false /\ int "7" = Some 7 /\
   default None (handlers w !! sp_oauth_cache) = None /\
   token_endpoint (provider w) (AuthorizationCode "c0de")
     = Raise (SpotifyOauthError "invalid_grant") /\
   auth_response fresh_world = Raise (EOFError "EOF when reading a line")) /\
  fst (spotify_callback "c0de" "7" None true w)
    = Ok (RedirectResponse "https://tubify.test?spotify_error=invalid_grant") /\
  fst (spotify_callback EmptyString "7" None true fresh_world)
    = Ok (RedirectResponse
            "https://tubify.test?spotify_error=EOF when reading a line") /\
  calls is_network (snd (spotify_callback EmptyString "7" None true fresh_world))
    = 0%nat.
Proof.
  split; [repeat split |].
  pose proof (callback_exchange_failure_redirects "c0de" "7" None true
                (set_provider rejecting_provider fresh_world) 7
                (SpotifyOauthError "invalid_grant")
                eq_refl eq_refl eq_refl eq_refl) as H.
  pose proof (callback_exchange_failure_redirects EmptyString "7" None true
                fresh_world 7 (EOFError "EOF when reading a line")
                eq_refl eq_refl eq_refl eq_refl) as H'.
  destruct (spotify_callback "c0de" "7" None true
              (set_provider rejecting_provider fresh_world)) as [r w'].
  destruct (spotify_callback EmptyString "7" None true fresh_world) as [r' w''].
  destruct H as [-> _]. destruct H' as (-> & _ & _ & _ & _ & Hlog).
  split; [reflexivity |]. split; [reflexivity |].
  unfold logged in Hlog. change (trace w'' = [CacheRead sp_oauth_cache; AuthPrompt]) in Hlog.
  unfold calls. cbn [snd]. rewrite Hlog. reflexivity.
Defined.

(** X7: once the code exchange and the profile request have succeeded, the
    callback answers the success redirect whatever becomes of the upsert,
    and hands the sync task (user id of [state], client of the new token)
    to the framework exactly when a task queue was injected. *)
Theorem callback_redirects_after_profile
    (code state : string) (error : option string) (bg : bool) (w w1 w2 : World)
    (user_id : Z) (token_info : TokenInfo) (profile : JSON) :
  error_given error = false ->
  int state = Some user_id ->
  get_access_token (sp_oauth w) code w = (Ok token_info, w1) ->
  current_user {| auth := tok_access_token token_info |} w1 = (Ok profile, w2) ->
  let '(r, w') := spotify_callback code state error bg w in
  r = Ok (RedirectResponse
            (fstr (FRONTEND_URL (config w)) +:+ "?spotify_connected=true")) /\
  http_status r = 307 /\
  background w'
    = background w
      ++ (if bg
          then [ {| task_user_id := user_id;
                    task_auth := tok_access_token token_info |} ]
          else []).
Proof.
  intros Herr Hint Htok Hme.
  pose proof (quiet_get_access_token (sp_oauth w) code w) as F1.
  rewrite Htok in F1. cbn in F1.
  pose proof (quiet_current_user {| auth := tok_access_token token_info |} w1) as F2.
  rewrite Hme in F2. cbn in F2.
  pose proof (same_database_trans _ _ _ F1 F2) as (_ & _ & _ & _ & Fcfg).
  pose proof (get_access_token_keeps_background (sp_oauth w) code w) as B1.
  rewrite Htok in B1. cbn in B1.
  pose proof (current_user_keeps_background
                {| auth := tok_access_token token_info |} w1) as B2.
  rewrite Hme in B2. cbn in B2.
  unfold spotify_callback. rewrite Herr, Hint.
  unfold try_except at 1. unfold bind at 1. unfold get at 1.
  unfold bind at 1. rewrite Htok.
  unfold bind at 1. rewrite Hme.
  unfold try_except, bind, lift, refresh_token_of, upsert_credentials, execute,
    bind, lift, get, emit, ret, raise, datetime_now, print, as_text.
  destruct (subscript profile "id") as [[]|]; cbn;
    destruct (tok_refresh_token token_info); cbn;
    destruct (db_fault w2 UpsertCredentials); cbn;
    destruct bg; cbn; rewrite Fcfg, B2, B1;
    (split; [reflexivity |]; split; [reflexivity |]);
    rewrite ?app_nil_r; reflexivity.
Qed.

Lemma callback_redirects_after_profile_witness :
  let w := set_db_fault (rejecting UpsertCredentials "connection lost") fresh_world in
  let token_info :=
    {| tok_access_token := "access-c0de";
       tok_refresh_token := Some "refresh-c0de";
       tok_expires_in := 3600;
       tok_expires_at := 39600;
       tok_scope := SPOTIFY_SCOPES |} in
  let w1 := snd (get_access_token (sp_oauth w) "c0de" w) in
  let profile := JDict [("id", JStr "user-of-access-c0de")] in
  let w2 := snd (current_user {| auth := "access-c0de" |} w1) in
  (error_given None = false /\ int "7" = Some 7 /\
   get_access_token (sp_oauth w) "c0de" w = (Ok token_info, w1) /\
   current_user {| auth := tok_access_token token_info |} w1 = (Ok profile, w2)) /\
  let '(r, w') := spotify_callback "c0de" "7" None true w in
  r = Ok (RedirectResponse
            (fstr (FRONTEND_URL (config w)) +:+ "?spotify_connected=true")) /\
  http_status r = 307 /\
  background w'
    = background w
      ++ [ {| task_user_id := 7; task_auth := tok_access_token token_info |} ].
Proof.
  cbn zeta. split; [repeat split |].
  exact (callback_redirects_after_profile "c0de" "7" None true
           (set_db_fault (rejecting UpsertCredentials "connection lost") fresh_world)
           _ _ 7 _ _ eq_refl eq_refl eq_refl eq_refl).
Defined.

(** X8: an exception of the store step is swallowed.  When the profile has
    no [id], the token no refresh token, the database rejects the upsert
    or the id is no text, the callback prints a line that starts with
    "error: " (for a missing key, the key in quotes) and still answers
    the success redirect; the table is what it was, so the user is told
    the account is connected although no Credential row was written. *)
Theorem callback_swallows_store_failure
    (code state : string) (error : option string) (bg : bool) (w w1 w2 : World)
    (user_id : Z) (token_info : TokenInfo) (profile : JSON) (e : Exception) :
  error_given error = false ->
  int state = Some user_id ->
  get_access_token (sp_oauth w) code w = (Ok token_info, w1) ->
  current_user {| auth := tok_access_token token_info |} w1 = (Ok profile, w2) ->
  store_fails w profile token_info e ->
  let '(r, w') := spotify_callback code state error bg w in
  r = Ok (RedirectResponse
            (fstr (FRONTEND_URL (config w)) +:+ "?spotify_connected=true")) /\
  spotify_credentials w' = spotify_credentials w /\
  credential_of user_id w' = credential_of user_id w /\
  exists text,
    last (trace w') = Some (Printed ("error: " +:+ text)) /\
    forall key, e = KeyError key -> text = "'" +:+ key +:+ "'".
Proof.
  intros Herr Hint Htok Hme Hfail.
  pose proof (quiet_get_access_token (sp_oauth w) code w) as F1.
  rewrite Htok in F1. cbn in F1.
  pose proof (quiet_current_user {| auth := tok_access_token token_info |} w1) as F2.
  rewrite Hme in F2. cbn in F2.
  pose proof (same_database_trans _ _ _ F1 F2) as (Ftab & _ & _ & Ffault & Fcfg).
  unfold spotify_callback. rewrite Herr, Hint.
  unfold try_except at 1. unfold bind at 1. unfold get at 1.
  unfold bind at 1. rewrite Htok.
  unfold bind at 1. rewrite Hme.
  unfold try_except, bind, lift, refresh_token_of, upsert_credentials, execute,
    bind, lift, get, emit, ret, raise, datetime_now, print.
  unfold credential_of.
  destruct Hfail as [e Hid | sid Hid Hrt | sid rt msg Hid Hrt Hdb
                     | sid rt e Hid Hrt Hdb Htext];
    rewrite Hid; cbn; rewrite ?Hrt; cbn; rewrite ?Ffault, ?Hdb; cbn;
    rewrite ?Htext; cbn;
    destruct bg; cbn; rewrite Fcfg, Ftab;
    (split; [reflexivity |]; split; [reflexivity |]; split; [reflexivity |]);
    (eexists; split; [apply last_snoc |]);
    intros key Hkey; try discriminate Hkey; try (injection Hkey as <-);
    subst; reflexivity.
Qed.

Lemma callback_swallows_store_failure_witness :
  let w := set_db_fault (rejecting UpsertCredentials "connection lost") fresh_world in
  let token_info :=
    {| tok_access_token := "access-c0de";
       tok_refresh_token := Some "refresh-c0de";
       tok_expires_in := 3600;
       tok_expires_at := 39600;
       tok_scope := SPOTIFY_SCOPES |} in
  let w1 := snd (get_access_token (sp_oauth w) "c0de" w) in
  let profile := JDict [("id", JStr "user-of-access-c0de")] in
  let w2 := snd (current_user {| auth := "access-c0de" |} w1) in
  (error_given None = false /\ int "7" = Some 7 /\
   get_access_token (sp_oauth w) "c0de" w = (Ok token_info, w1) /\
   current_user {| auth := tok_access_token token_info |} w1 = (Ok profile, w2) /\
   store_fails w profile token_info (DatabaseError "connection lost")) /\
  let '(r, w') := spotify_callback "c0de" "7" None true w in
  r = Ok (RedirectResponse
            (fstr (FRONTEND_URL (config w)) +:+ "?spotify_connected=true")) /\
  spotify_credentials w' = spotify_credentials w /\
  credential_of 7 w' = credential_of 7 w /\
  exists text,
    last (trace w') = Some (Printed ("error: " +:+ text)) /\
    forall key, DatabaseError "connection lost" = KeyError key ->
                text = "'" +:+ key +:+ "'".
Proof.
  cbn zeta.
  assert (Hfail : store_fails
            (set_db_fault (rejecting UpsertCredentials "connection lost") fresh_world)
            (JDict [("id", JStr "user-of-access-c0de")])
            {| tok_access_token := "access-c0de";
               tok_refresh_token := Some "refresh-c0de";
               tok_expires_in := 3600;
               tok_expires_at := 39600;
               tok_scope := SPOTIFY_SCOPES |}
            (DatabaseError "connection lost"))
    by (eapply statement_rejected; reflexivity).
  split; [repeat split; exact Hfail |].
  exact (callback_swallows_store_failure "c0de" "7" None true
           (set_db_fault (rejecting UpsertCredentials "connection lost") fresh_world)
           _ _ 7 _ _ _ eq_refl eq_refl eq_refl eq_refl Hfail).
Defined.

(** X9: the callback has four answers and no other: the two 400s of
    lines 141-148, the success redirect, or a redirect carrying
    [spotify_error]; whatever the provider or the database do, it never
    answers a 5xx.  The redirects start with FRONTEND_URL as rendered by
    the f-string, "None" when the variable is unset (the import check does
    not cover it). *)
Theorem callback_answers
    (code state : string) (error : option string) (bg : bool) (w : World) :
  let r := fst (spotify_callback code state error bg w) in
  let front := fstr (FRONTEND_URL (config w)) in
  (r = Raise (HTTPException 400 ("spotify auth error: " +:+ fstr error)) \/
   r = Raise (HTTPException 400 "invalid state parameter") \/
   r = Ok (RedirectResponse (front +:+ "?spotify_connected=true")) \/
   exists e,
     r = Ok (RedirectResponse (front +:+ "?spotify_error=" +:+ str_exception e)))
  /\ (http_status r = 400 \/ http_status r = 307).
Proof.
  cbn zeta.
  assert (Hfour :
    let r := fst (spotify_callback code state error bg w) in
    let front := fstr (FRONTEND_URL (config w)) in
    r = Raise (HTTPException 400 ("spotify auth error: " +:+ fstr error)) \/
    r = Raise (HTTPException 400 "invalid state parameter") \/
    r = Ok (RedirectResponse (front +:+ "?spotify_connected=true")) \/
    exists e,
      r = Ok (RedirectResponse (front +:+ "?spotify_error=" +:+ str_exception e))).
  { cbn zeta. unfold spotify_callback.
    destruct (error_given error); [left; reflexivity |].
    destruct (int state) as [user_id|]; [| right; left; reflexivity].
    right; right.
    match goal with |- fst ?run = _ \/ _ => remember (fst run) as r eqn:Hr end.
    unfold try_except at 1 in Hr. unfold bind at 1 in Hr. unfold get at 1 in Hr.
    unfold bind at 1 in Hr.
    pose proof (quiet_get_access_token (sp_oauth w) code w) as F1.
    destruct (get_access_token (sp_oauth w) code w) as [[token_info|e] w1]
      eqn:Htok.
    2: { right. exists e. cbn in F1. destruct F1 as (_ & _ & _ & _ & Fcfg).
         unfold bind, get, ret in Hr. cbn in Hr. rewrite Fcfg in Hr. exact Hr. }
    unfold bind at 1 in Hr.
    pose proof (quiet_current_user {| auth := tok_access_token token_info |} w1)
      as F2.
    destruct (current_user {| auth := tok_access_token token_info |} w1)
      as [[profile|e] w2] eqn:Hme.
    2: { right. exists e. cbn in F1, F2.
         destruct F1 as (_ & _ & _ & _ & Fcfg1).
         destruct F2 as (_ & _ & _ & _ & Fcfg2).
         unfold bind, get, ret in Hr. cbn in Hr. rewrite Fcfg2, Fcfg1 in Hr.
         exact Hr. }
    left. cbn in F1, F2.
    destruct F1 as (_ & _ & _ & _ & Fcfg1). destruct F2 as (_ & _ & _ & _ & Fcfg2).
    unfold try_except, bind, lift, refresh_token_of, upsert_credentials, execute,
      bind, lift, get, emit, ret, raise, datetime_now, print, as_text in Hr.
    destruct (subscript profile "id") as [[]|]; cbn in Hr;
      destruct (tok_refresh_token token_info); cbn in Hr;
      destruct (db_fault w2 UpsertCredentials); cbn in Hr;
      destruct bg; cbn in Hr; rewrite Fcfg2, Fcfg1 in Hr; exact Hr. }
  split; [exact Hfour |].
  cbn zeta in Hfour.
  destruct Hfour as [-> | [-> | [-> | [e ->]]]]; cbn; auto.
Qed.

(** ** Refreshing the token *)

(** X10: a refresh that the provider rejects is not retried and not
    handled: [get_spotify_client] raises what the library raised after
    exactly one request to the token endpoint, without writing to the
    table; the routes that depend on it end with the same exception
    before any request to the API. *)
Theorem refresh_failure_propagates
    (user : User) (limit : Z) (w : World) (row : Credential) (e : Exception) :
  db_fault w SelectCredentials = None ->
  credential_of (uid user) w = Some row ->
  cred_token_expires_at row <= clock w (clock_reads w) ->
  token_endpoint (provider w) (RefreshToken (cred_refresh_token row)) = Raise e ->
  let '(r, w') := get_spotify_client user w in
  r = Raise e /\
  fst (GET_playlists user w) = Raise e /\
  fst (GET_recently_played limit user w) = Raise e /\
  logged w w' = [ Database SelectCredentials (uid user);
                  TokenRequest (RefreshToken (cred_refresh_token row)) ] /\
  spotify_credentials w' = spotify_credentials w /\
  snd (GET_playlists user w) = w' /\
  snd (GET_recently_played limit user w) = w'.
Proof.
  intros Hdb Hrow Hexp Hreject.
  assert (Hrun : exists w', get_spotify_client user w = (Raise e, w') /\
            logged w w' = [ Database SelectCredentials (uid user);
                            TokenRequest (RefreshToken (cred_refresh_token row)) ] /\
            spotify_credentials w' = spotify_credentials w).
  { unfold get_spotify_client, select_credentials, datetime_now. step.
    rewrite Hdb. cbn. unfold credential_of in Hrow. rewrite Hrow. cbn.
    destruct (Z.leb_spec (cred_token_expires_at row) (clock w (clock_reads w)));
      [| lia].
    unfold MemoryCacheHandler, refresh_access_token, post_token. step.
    rewrite Hreject. cbn. eexists. split; [reflexivity |].
    split; [| reflexivity].
    unfold logged. cbn. rewrite <- app_assoc, drop_app_length. reflexivity. }
  destruct Hrun as (w' & Hrun & Hlog & Htab).
  unfold GET_playlists, GET_recently_played, bind. rewrite Hrun. cbn.
  repeat split; assumption.
Qed.

Lemma refresh_failure_propagates_witness :
  let w := set_provider rejecting_provider (linked_world 0 (Some "completed")) in
  let row := linked_row 0 (Some "completed") in
  (db_fault w SelectCredentials = None /\
   credential_of (uid ann) w = Some row /\
   cred_token_expires_at row <= clock w (clock_reads w) /\
   token_endpoint (provider w) (RefreshToken (cred_refresh_token row))
     = Raise (SpotifyOauthError "invalid_grant")) /\
  fst (GET_recently_played 50 ann w) = Raise (SpotifyOauthError "invalid_grant") /\
  http_status (fst (GET_recently_played 50 ann w)) = 500.
Proof.
  cbn zeta.
  assert (Hexp : cred_token_expires_at (linked_row 0 (Some "completed"))
                 <= clock (set_provider rejecting_provider
                             (linked_world 0 (Some "completed")))
                      (clock_reads (set_provider rejecting_provider
                                      (linked_world 0 (Some "completed")))))
    by (cbn; unfold demo_clock, timedelta_seconds; lia).
  split; [repeat split; exact Hexp |].
  pose proof (refresh_failure_propagates ann 50
                (set_provider rejecting_provider (linked_world 0 (Some "completed")))
                (linked_row 0 (Some "completed"))
                (SpotifyOauthError "invalid_grant")
                eq_refl eq_refl Hexp eq_refl) as H.
  destruct (get_spotify_client ann
              (set_provider rejecting_provider (linked_world 0 (Some "completed"))))
    as [r w'].
  destruct H as (_ & _ & -> & _). split; reflexivity.
Defined.

(** X11: a successful refresh rewrites the tokens, the expiry and
    [last_used_at] of the user's row and nothing else: the row keeps its
    id, owner, provider id, sync status and sync counter, the table keeps
    its length and the uniqueness of owners, and the rows of other users
    are what they were. *)
Theorem refresh_changes_only_tokens
    (user : User) (w : World) (row : Credential) (resp : TokenResponse) :
  db_fault w SelectCredentials = None ->
  db_fault w UpdateTokens = None ->
  credential_of (uid user) w = Some row ->
  cred_token_expires_at row <= clock w (clock_reads w) ->
  token_endpoint (provider w) (RefreshToken (cred_refresh_token row)) = Ok resp ->
  let w' := snd (get_spotify_client user w) in
  (exists row',
     credential_of (uid user) w' = Some row' /\
     cred_id row' = cred_id row /\
     cred_user_id row' = cred_user_id row /\
     cred_spotify_id row' = cred_spotify_id row /\
     cred_liked_songs_sync_status row' = cred_liked_songs_sync_status row /\
     cred_liked_songs_count row' = cred_liked_songs_count row /\
     cred_access_token row' = resp_access_token resp /\
     cred_refresh_token row'
       = default (cred_refresh_token row) (resp_refresh_token resp) /\
     cred_last_used_at row' = Some (clock w (3 + clock_reads w)%nat)) /\
  (forall other, other <> uid user ->
     credential_of other w' = credential_of other w) /\
  length (spotify_credentials w') = length (spotify_credentials w) /\
  (unique_users (spotify_credentials w) ->
   unique_users (spotify_credentials w')) /\
  playlists w' = playlists w.
Proof.
  intros Hdb Hupd Hrow Hexp Hresp. cbn zeta.
  unfold get_spotify_client, select_credentials, datetime_now. step.
  rewrite Hdb. cbn. unfold credential_of in Hrow. rewrite Hrow. cbn.
  destruct (Z.leb_spec (cred_token_expires_at row) (clock w (clock_reads w)));
    [| lia].
  unfold MemoryCacheHandler, refresh_access_token, post_token, add_custom_values,
    save_token_to_cache, time_time, datetime_now, refresh_token_of, update_tokens.
  step. rewrite Hresp. cbn. rewrite Hupd. cbn.
  unfold credential_of. cbn.
  split.
  { rewrite find_owned_map by reflexivity. rewrite Hrow. cbn.
    eexists. split; [reflexivity |]. cbn. repeat split. }
  split; [intros other Hne; apply find_other_map; [exact Hne | reflexivity] |].
  split; [apply length_map |].
  split; [| reflexivity].
  unfold unique_users. rewrite map_keeps_users by reflexivity. auto.
Qed.

Lemma refresh_changes_only_tokens_witness :
  let w := linked_world 0 (Some "completed") in
  let row := linked_row 0 (Some "completed") in
  let resp := {| resp_access_token := "renewed-refresh-old";
                 resp_refresh_token := None;
                 resp_expires_in := 3600 |} in
  (db_fault w SelectCredentials = None /\
   db_fault w UpdateTokens = None /\
   credential_of (uid ann) w = Some row /\
   cred_token_expires_at row <= clock w (clock_reads w) /\
   token_endpoint (provider w) (RefreshToken (cred_refresh_token row)) = Ok resp) /\
  let w' := snd (get_spotify_client ann w) in
  (exists row',
     credential_of (uid ann) w' = Some row' /\
     cred_id row' = cred_id row /\
     cred_user_id row' = cred_user_id row /\
     cred_spotify_id row' = cred_spotify_id row /\
     cred_liked_songs_sync_status row' = cred_liked_songs_sync_status row /\
     cred_liked_songs_count row' = cred_liked_songs_count row /\
     cred_access_token row' = resp_access_token resp /\
     cred_refresh_token row'
       = default (cred_refresh_token row) (resp_refresh_token resp) /\
     cred_last_used_at row' = Some (clock w (3 + clock_reads w)%nat)) /\
  (forall other, other <> uid ann ->
     credential_of other w' = credential_of other w) /\
  length (spotify_credentials w') = length (spotify_credentials w) /\
  (unique_users (spotify_credentials w) ->
   unique_users (spotify_credentials w')) /\
  playlists w' = playlists w.
Proof.
  cbn zeta.
  assert (Hexp : cred_token_expires_at (linked_row 0 (Some "completed"))
                 <= clock (linked_world 0 (Some "completed"))
                      (clock_reads (linked_world 0 (Some "completed"))))
    by (cbn; unfold demo_clock, timedelta_seconds; lia).
  split; [repeat split; exact Hexp |].
  exact (refresh_changes_only_tokens ann (linked_world 0 (Some "completed"))
           (linked_row 0 (Some "completed"))
           {| resp_access_token := "renewed-refresh-old";
              resp_refresh_token := None;
              resp_expires_in := 3600 |}
           eq_refl eq_refl eq_refl Hexp eq_refl).
Defined.

(** X12: the refresh grant of [get_spotify_client] runs on a helper of
    its own (lines 79-86): its cache handler is an object this request
    created, every handler that existed before, the one of the
    process-wide helper included, keeps its contents and is neither read
    nor written. *)
Theorem refresh_runs_on_a_fresh_cache (user : User) (w : World) (row : Credential) :
  db_fault w SelectCredentials = None ->
  credential_of (uid user) w = Some row ->
  cred_token_expires_at row <= clock w (clock_reads w) ->
  let w' := snd (get_spotify_client user w) in
  length (handlers w') = S (length (handlers w)) /\
  take (length (handlers w)) (handlers w') = handlers w /\
  forall h, (h < length (handlers w))%nat ->
            handlers w' !! h = handlers w !! h /\
            calls (uses_handler h) w' = calls (uses_handler h) w.
Proof.
  intros Hdb Hrow Hexp. cbn zeta.
  destruct (refresh_uses_fresh_cache user w row Hdb Hrow Hexp)
    as (Hlen & Htake & Hcalls).
  split; [exact Hlen |]. split; [exact Htake |].
  intros h Hlt. split; [| apply Hcalls; exact Hlt].
  rewrite <- (lookup_take_lt _ (length (handlers w))) by exact Hlt.
  rewrite Htake. reflexivity.
Qed.

Lemma refresh_runs_on_a_fresh_cache_witness :
  let w := linked_world 0 (Some "completed") in
  let row := linked_row 0 (Some "completed") in
  (db_fault w SelectCredentials = None /\
   credential_of (uid ann) w = Some row /\
   cred_token_expires_at row <= clock w (clock_reads w)) /\
  let w' := snd (get_spotify_client ann w) in
  length (handlers w') = S (length (handlers w)) /\
  take (length (handlers w)) (handlers w') = handlers w /\
  forall h, (h < length (handlers w))%nat ->
            handlers w' !! h = handlers w !! h /\
            calls (uses_handler h) w' = calls (uses_handler h) w.
Proof.
  cbn zeta.
  assert (Hexp : cred_token_expires_at (linked_row 0 (Some "completed"))
                 <= clock (linked_world 0 (Some "completed"))
                      (clock_reads (linked_world 0 (Some "completed"))))
    by (cbn; unfold demo_clock, timedelta_seconds; lia).
  split; [repeat split; exact Hexp |].
  exact (refresh_runs_on_a_fresh_cache ann (linked_world 0 (Some "completed"))
           (linked_row 0 (Some "completed")) eq_refl eq_refl Hexp).
Defined.

(** ** The cache handler *)

(** X13: [MemoryCacheHandler] keeps one token per object (lines 43-51).
    What [save_token_to_cache] stored in a handler is what
    [get_cached_token] of that handler returns, the other handlers of the
    process are unaffected, and a handler that was just created returns
    [None]. *)
Theorem cache_handler_round_trip (h : nat) (token_info : TokenInfo) (w : World) :
  (h < length (handlers w))%nat ->
  let w1 := snd (save_token_to_cache h token_info w) in
  fst (get_cached_token h w1) = Ok (Some token_info) /\
  (forall h', h' <> h -> fst (get_cached_token h' w1) = fst (get_cached_token h' w)) /\
  length (handlers w1) = length (handlers w) /\
  let '(r, w2) := MemoryCacheHandler w1 in
  r = Ok (length (handlers w1)) /\
  fst (get_cached_token (length (handlers w1)) w2) = Ok None /\
  fst (get_cached_token h w2) = Ok (Some token_info).
Proof.
  intros Hlt. cbn zeta.
  unfold save_token_to_cache, get_cached_token, MemoryCacheHandler. step.
  split.
  { try (cbn -[lookup]). rewrite list_lookup_insert_eq by exact Hlt. reflexivity. }
  split.
  { intros h' Hne. rewrite list_lookup_insert_ne by congruence. reflexivity. }
  split; [apply length_insert |].
  split; [reflexivity |].
  split.
  - rewrite lookup_app_r by reflexivity. rewrite Nat.sub_diag. reflexivity.
  - rewrite lookup_app_l by (rewrite length_insert; exact Hlt).
    rewrite list_lookup_insert_eq by exact Hlt. reflexivity.
Qed.

Lemma cache_handler_round_trip_witness :
  let token_info :=
    {| tok_access_token := "t"; tok_refresh_token := None; tok_expires_in := 1;
       tok_expires_at := 1; tok_scope := [] |} in
  (0 < length (handlers fresh_world))%nat /\
  let w1 := snd (save_token_to_cache 0 token_info fresh_world) in
  fst (get_cached_token 0 w1) = Ok (Some token_info) /\
  (forall h', h' <> 0%nat ->
     fst (get_cached_token h' w1) = fst (get_cached_token h' fresh_world)) /\
  length (handlers w1) = length (handlers fresh_world) /\
  let '(r, w2) := MemoryCacheHandler w1 in
  r = Ok (length (handlers w1)) /\
  fst (get_cached_token (length (handlers w1)) w2) = Ok None /\
  fst (get_cached_token 0 w2) = Ok (Some token_info).
Proof.
  cbn zeta. split; [cbn; lia |].
  apply (cache_handler_round_trip 0
           {| tok_access_token := "t"; tok_refresh_token := None;
              tok_expires_in := 1; tok_expires_at := 1; tok_scope := [] |}
           fresh_world).
  cbn; lia.
Defined.

(** ** The read-proxy handlers *)

(** X14: [get_recently_played_tracks] makes exactly one request, with the
    client's token, and leaves the database alone.  A failure of the
    provider becomes HTTP 500 with the text of the exception; a response
    without "items" is answered with an empty list; a list of items is
    formatted item by item, and one item that cannot be formatted turns
    the whole answer into a 500.  Nothing but an HTTP 500 is ever
    raised. *)
Theorem recently_played_answers (limit : Z) (user : User) (sp : Spotify) (w : World) :
  let '(r, w') := get_recently_played_tracks limit user sp w in
  w' = set_trace (trace w ++ [ApiRequest "me/player/recently-played" (auth sp)]) w /\
  spotify_credentials w' = spotify_credentials w /\
  (forall e,
     api_recently_played (provider w) (auth sp) limit = Raise e ->
     r = Raise (HTTPException 500
                  ("Failed to fetch recently played tracks: " +:+ str_exception e))) /\
  (forall d,
     api_recently_played (provider w) (auth sp) limit = Ok (JDict d) ->
     assoc "items" d = None ->
     r = Ok (RecentlyPlayed [])) /\
  (forall d items,
     api_recently_played (provider w) (auth sp) limit = Ok (JDict d) ->
     assoc "items" d = Some (JList items) ->
     r = match traverse format_track items with
         | Ok l => Ok (RecentlyPlayed l)
         | Raise e =>
             Raise (HTTPException 500
                      ("Failed to fetch recently played tracks: "
                       +:+ str_exception e))
         end) /\
  (forall x, r = Raise x -> exists detail, x = HTTPException 500 detail).
Proof.
  unfold get_recently_played_tracks, current_user_recently_played.
  unfold try_except, bind, emit, get, lift, ret, raise. cbn.
  destruct (api_recently_played (provider w) (auth sp) limit) as [response|e];
    cbn.
  2: { repeat split.
       - intros e' H. injection H as <-. reflexivity.
       - intros d H. discriminate H.
       - intros d items H. discriminate H.
       - intros x H. injection H as <-. eauto. }
  destruct (dict_get response "items" (JList [])) as [tracks|e] eqn:Hget; cbn.
  2: { repeat split.
       - intros e' H. discriminate H.
       - intros d H. injection H as ->. discriminate Hget.
       - intros d items H. injection H as ->. discriminate Hget.
       - intros x H. injection H as <-. eauto. }
  destruct (iterate tracks) as [items|e] eqn:Hiter; cbn.
  2: { repeat split.
       - intros e' H. discriminate H.
       - intros d H Hnone. injection H as ->. cbn in Hget. rewrite Hnone in Hget.
         injection Hget as <-. discriminate Hiter.
       - intros d items H Hsome. injection H as ->. cbn in Hget.
         rewrite Hsome in Hget. injection Hget as <-. discriminate Hiter.
       - intros x H. injection H as <-. eauto. }
  assert (Hitems : forall d items',
            response = JDict d -> assoc "items" d = Some (JList items') ->
            items = items').
  { intros d items' -> Hsome. cbn in Hget. rewrite Hsome in Hget.
    injection Hget as <-. cbn in Hiter. injection Hiter as <-. reflexivity. }
  assert (Hempty : forall d,
            response = JDict d -> assoc "items" d = None -> items = []).
  { intros d -> Hnone. cbn in Hget. rewrite Hnone in Hget.
    injection Hget as <-. cbn in Hiter. injection Hiter as <-. reflexivity. }
  destruct (traverse format_track items) as [l|e] eqn:Hfmt; cbn.
  - repeat split.
    + intros e' H. discriminate H.
    + intros d H Hnone. injection H as H.
      rewrite (Hempty d H Hnone) in Hfmt. cbn in Hfmt. injection Hfmt as <-.
      reflexivity.
    + intros d items' H Hsome. injection H as H.
      rewrite <- (Hitems d items' H Hsome), Hfmt. reflexivity.
    + intros x H. discriminate H.
  - repeat split.
    + intros e' H. discriminate H.
    + intros d H Hnone. injection H as H.
      rewrite (Hempty d H Hnone) in Hfmt. discriminate Hfmt.
    + intros d items' H Hsome. injection H as H.
      rewrite <- (Hitems d items' H Hsome), Hfmt. reflexivity.
    + intros x H. injection H as <-. eauto.
Qed.

(** X15: the album art of a formatted track (lines 297-301).  When the
    album's [images] is empty (or otherwise falsy) the record carries
    [None] and no index is taken; otherwise it carries the [url] of the
    first image.  The other fields are the track name, the names of all
    artists in order, the album name, [played_at] and the Spotify URL of
    the item. *)
Theorem track_album_art (item : JSON) (rec : TrackInfo) :
  format_track item = Ok rec ->
  (exists images,
     path3 item "track" "album" "images" = Ok images /\
     (truthy images = false -> album_art_url rec = JNull) /\
     (truthy images = true ->
      exists image,
        first_item images = Ok image /\
        subscript image "url" = Ok (album_art_url rec))) /\
  path2 item "track" "name" = Ok (track_name rec) /\
  path3 item "track" "album" "name" = Ok (album_name rec) /\
  subscript item "played_at" = Ok (played_at rec) /\
  path3 item "track" "external_urls" "spotify" = Ok (spotify_url rec) /\
  exists artists,
    and_then (path2 item "track" "artists") iterate = Ok artists /\
    traverse (fun artist => subscript artist "name") artists
      = Ok (artist_name rec).
Proof.
  unfold format_track. intros H.
  destruct (path2 item "track" "name") as [name|]; [| discriminate H].
  cbn [and_then] in H.
  destruct (path2 item "track" "artists") as [artists|]; [| discriminate H].
  cbn [and_then] in H.
  destruct (iterate artists) as [artist_list|] eqn:Hiter; [| discriminate H].
  cbn [and_then] in H.
  destruct (traverse _ artist_list) as [names|] eqn:Hnames; [| discriminate H].
  cbn [and_then] in H.
  destruct (path3 item "track" "album" "name") as [album|]; [| discriminate H].
  cbn [and_then] in H.
  destruct (subscript item "played_at") as [played|]; [| discriminate H].
  cbn [and_then] in H.
  destruct (path3 item "track" "external_urls" "spotify") as [url|];
    [| discriminate H].
  cbn [and_then] in H.
  destruct (path3 item "track" "album" "images") as [images|]; [| discriminate H].
  cbn [and_then] in H.
  destruct (truthy images) eqn:Htruthy.
  - destruct (first_item images) as [image|] eqn:Hfirst; [| discriminate H].
    cbn [and_then] in H.
    destruct (subscript image "url") as [art|] eqn:Hart; [| discriminate H].
    cbn [and_then] in H. injection H as <-. cbn.
    split.
    { exists images. split; [reflexivity |].
      split; [intros Hno; rewrite Htruthy in Hno; discriminate Hno |].
      intros _. exists image. split; [exact Hfirst | exact Hart]. }
    repeat split. exists artist_list. split; [exact Hiter | exact Hnames].
  - cbn [and_then] in H. injection H as <-. cbn.
    split.
    { exists images. split; [reflexivity |]. split; [reflexivity |].
      intros Hno. rewrite Htruthy in Hno. discriminate Hno. }
    repeat split. exists artist_list. split; [exact Hiter | exact Hnames].
Qed.

Lemma track_album_art_witness :
  let item := demo_track (JList []) in
  let rec := {| track_name := JStr "So What";
                artist_name := [JStr "Miles Davis"];
                album_name := JStr "Kind of Blue";
                played_at := JStr "2025-03-01T10:00:00Z";
                spotify_url := JStr "https://open.spotify.test/t1";
                album_art_url := JNull |} in
  format_track item = Ok rec /\
  exists images,
    path3 item "track" "album" "images" = Ok images /\
    (truthy images = false -> album_art_url rec = JNull) /\
    (truthy images = true ->
     exists image,
       first_item images = Ok image /\
       subscript image "url" = Ok (album_art_url rec)).
Proof.
  cbn zeta. split; [reflexivity |].
  apply (track_album_art (demo_track (JList []))). reflexivity.
Defined.

Lemma follow_pages_broken (sp : Spotify) (e : Exception) (more : list (list JSON)) :
  forall (first acc : list JSON) (w : World),
    follow_pages sp (broken_listing first more e) acc w
    = (Raise e,
       set_trace (trace w ++ repeat (ApiRequest "next" (auth sp)) (S (length more)))
         w).
Proof.
  induction more as [|page pages IH]; intros first acc w; cbn.
  - reflexivity.
  - unfold bind, emit. rewrite IH. cbn.
    rewrite <- !app_assoc. reflexivity.
Qed.

Lemma count_repeat_next (p : Event -> bool) (a : string) (n : nat) :
  length (List.filter p (repeat (ApiRequest "next" a) n))
  = if p (ApiRequest "next" a) then n else 0%nat.
Proof.
  induction n as [|n IH]; cbn.
  - destruct (p _); reflexivity.
  - destruct (p (ApiRequest "next" a)) eqn:Hp; cbn; rewrite IH; reflexivity.
Qed.

(** X16: when the provider fails while the playlists are listed, on the
    first request or on any [next] cursor after pages that were served,
    [get_spotify_playlists] raises HTTP 500 with the text of the
    exception; the pages already received are dropped, and the local
    playlists table is not queried at all. *)
Theorem playlists_failure_is_500
    (current_user : User) (sp : Spotify) (w : World) (e : Exception) :
  (api_me_playlists (provider w) (auth sp) 50 = Raise e \/
   exists first more,
     api_me_playlists (provider w) (auth sp) 50 = Ok (broken_listing first more e)) ->
  let '(r, w') := get_spotify_playlists current_user sp w in
  r = Raise (HTTPException 500
               ("failed to fetch spotify playlists: " +:+ str_exception e)) /\
  http_status r = 500 /\
  calls is_statement w' = calls is_statement w /\
  spotify_credentials w' = spotify_credentials w /\
  playlists w' = playlists w.
Proof.
  intros Hfail.
  unfold get_spotify_playlists, current_user_playlists.
  unfold try_except, bind at 1. unfold bind at 1, emit at 1.
  unfold bind at 1, get at 1, lift at 1. cbn [provider set_trace].
  destruct Hfail as [Hfirst | (first & more & Hpages)].
  - rewrite Hfirst. unfold raise. cbn.
    repeat split. count_calls.
  - rewrite Hpages. unfold bind at 1. rewrite follow_pages_broken.
    unfold raise. cbn. repeat split.
    unfold calls. cbn. rewrite !List.filter_app, !length_app.
    change (ApiRequest "next" (auth sp)
            :: repeat (ApiRequest "next" (auth sp)) (length more))
      with (repeat (ApiRequest "next" (auth sp)) (S (length more))).
    rewrite count_repeat_next. cbn. lia.
Qed.

Lemma playlists_failure_is_500_witness :
  let w := set_provider rejecting_provider fresh_world in
  let sp := {| auth := "access-old" |} in
  (api_me_playlists (provider w) (auth sp) 50
     = Raise (SpotifyException "503 unavailable") \/
   exists first more,
     api_me_playlists (provider w) (auth sp) 50
       = Ok (broken_listing first more (SpotifyException "503 unavailable"))) /\
  let '(r, w') := get_spotify_playlists ann sp w in
  r = Raise (HTTPException 500
               ("failed to fetch spotify playlists: "
                +:+ str_exception (SpotifyException "503 unavailable"))) /\
  http_status r = 500 /\
  calls is_statement w' = calls is_statement w /\
  spotify_credentials w' = spotify_credentials w /\
  playlists w' = playlists w.
Proof.
  cbn zeta.
  assert (H : api_me_playlists (provider (set_provider rejecting_provider fresh_world))
                (auth {| auth := "access-old" |}) 50
              = Raise (SpotifyException "503 unavailable") \/
              exists first more,
                api_me_playlists (provider (set_provider rejecting_provider fresh_world))
                  (auth {| auth := "access-old" |}) 50
                = Ok (broken_listing first more (SpotifyException "503 unavailable")))
    by (left; reflexivity).
  split; [exact H |].
  exact (playlists_failure_is_500 ann {| auth := "access-old" |}
           (set_provider rejecting_provider fresh_world)
           (SpotifyException "503 unavailable") H).
Defined.

Lemma traverse_fails {A B} (f : A -> Outcome B) (l : list A) (x : A) (e : Exception) :
  In x l -> f x = Raise e -> exists e', traverse f l = Raise e'.
Proof.
  induction l as [|y l IH]; [intros [] |].
  intros [-> | Hin] Hx; cbn.
  - rewrite Hx. cbn. eauto.
  - destruct (f y) as [b|e0]; cbn; [| eauto].
    destruct (IH Hin Hx) as [e' ->]. cbn. eauto.
Qed.

(** X17: the list of playlists is all or nothing.  If one item of any page
    cannot be formatted (no "id", no "name", not an object), the handler
    raises HTTP 500 and returns no record at all, even though every page
    was fetched and the local table was read. *)
Theorem playlists_all_or_nothing
    (current_user : User) (sp : Spotify) (w : World)
    (first : list JSON) (more : list (list JSON)) (p : JSON) (e : Exception) :
  api_me_playlists (provider w) (auth sp) 50 = Ok (listing first more) ->
  db_fault w SelectImported = None ->
  In p (first ++ concat more) ->
  format_playlist
    (list_to_set (imported_of (uid current_user) (playlists w))) p = Raise e ->
  exists detail,
    fst (get_spotify_playlists current_user sp w)
    = Raise (HTTPException 500 ("failed to fetch spotify playlists: " +:+ detail)).
Proof.
  intros Hpages Hdb Hin Hbad.
  unfold get_spotify_playlists, current_user_playlists, select_imported.
  unfold try_except, bind at 1. unfold bind at 1, emit at 1.
  unfold bind at 1, get at 1, lift at 1. cbn [provider set_trace].
  rewrite Hpages.
  replace (paging_items (listing first more)) with first
    by (destruct more; reflexivity).
  unfold bind at 1. rewrite follow_pages_listing.
  unfold bind, execute, emit, get, lift, ret, raise. cbn -[imported_of].
  rewrite Hdb. cbn -[imported_of].
  destruct (traverse_fails _ _ _ _ Hin Hbad) as [e' ->]. cbn. eauto.
Qed.

Lemma playlists_all_or_nothing_witness :
  let w := linked_world (timedelta_seconds 40000) (Some "completed") in
  let sp := {| auth := "access-old" |} in
  let nameless := JDict [("id", JStr "p9")] in
  exists detail,
    fst (get_spotify_playlists ann sp
           (set_provider
              {| token_endpoint := token_endpoint demo_provider;
                 api_me := api_me demo_provider;
                 api_me_playlists := fun _ _ => Ok (listing demo_page1 [[nameless]]);
                 api_recently_played := api_recently_played demo_provider |} w))
    = Raise (HTTPException 500 ("failed to fetch spotify playlists: " +:+ detail)).
Proof.
  cbn zeta.
  apply (playlists_all_or_nothing ann {| auth := "access-old" |} _
           demo_page1 [[JDict [("id", JStr "p9")]]]
           (JDict [("id", JStr "p9")]) (KeyError "name")).
  - reflexivity.
  - reflexivity.
  - right. left. reflexivity.
  - reflexivity.
Defined.

(** ** The table under the handlers *)

(** What the callback can have done to the table: nothing, or the one
    upsert with the id the sequence gave. *)
Lemma callback_table
    (code state : string) (error : option string) (bg : bool) (w : World) :
  let w' := snd (spotify_callback code state error bg w) in
  db_fault w' = db_fault w /\
  ((spotify_credentials w' = spotify_credentials w /\
    next_credential_id w' = next_credential_id w) \/
   exists user_id spotify_id access_token refresh_token expires_at now,
     spotify_credentials w'
     = upsert (next_credential_id w) user_id spotify_id access_token
         refresh_token expires_at now (spotify_credentials w) /\
     next_credential_id w' = next_credential_id w + 1).
Proof.
  cbn zeta. unfold spotify_callback.
  destruct (error_given error); [split; [| left]; repeat split |].
  destruct (int state) as [user_id|]; [| split; [| left]; repeat split].
  remember (snd _) as w' eqn:Hw.
  unfold try_except at 1 in Hw. unfold bind at 1 in Hw. unfold get at 1 in Hw.
  unfold bind at 1 in Hw.
  pose proof (quiet_get_access_token (sp_oauth w) code w) as F1.
  destruct (get_access_token (sp_oauth w) code w) as [[token_info|e] w1].
  2: { unfold bind, get, ret in Hw. cbn in Hw, F1. subst w'.
       destruct F1 as (Ftab & Fid & _ & Ffault & _).
       split; [exact Ffault | left; split; assumption]. }
  unfold bind at 1 in Hw.
  pose proof (quiet_current_user {| auth := tok_access_token token_info |} w1) as F2.
  destruct (current_user {| auth := tok_access_token token_info |} w1)
    as [[profile|e] w2].
  2: { unfold bind, get, ret in Hw. cbn in Hw, F1, F2. subst w'.
       pose proof (same_database_trans _ _ _ F1 F2) as (Ftab & Fid & _ & Ffault & _).
       split; [exact Ffault | left; split; assumption]. }
  cbn in F1, F2.
  pose proof (same_database_trans _ _ _ F1 F2) as (Ftab & Fid & _ & Ffault & _).
  unfold try_except, bind, lift, refresh_token_of, upsert_credentials, execute,
    bind, lift, get, emit, ret, raise, datetime_now, print, as_text in Hw.
  destruct (subscript profile "id") as [[]|]; cbn in Hw;
    destruct (tok_refresh_token token_info); cbn in Hw;
    destruct (db_fault w2 UpsertCredentials); cbn in Hw;
    destruct bg; cbn in Hw; subst w'; cbn;
    (split; [exact Ffault |]);
    rewrite ?Ftab, ?Fid;
    first [ left; split; reflexivity
          | right; do 6 eexists; split; reflexivity ].
Qed.

(** What [get_spotify_client] can have done to the table: nothing, or
    the one UPDATE of the user's row. *)
Lemma client_table (user : User) (w : World) :
  let w' := snd (get_spotify_client user w) in
  db_fault w' = db_fault w /\
  next_credential_id w' = next_credential_id w /\
  (spotify_credentials w' = spotify_credentials w \/
   exists access_token refresh_token expires_at now,
     spotify_credentials w'
     = map (fun r => if owned_by (uid user) r
                     then refreshed access_token refresh_token expires_at now r
                     else r)
           (spotify_credentials w)).
Proof.
  cbn zeta.
  unfold get_spotify_client, select_credentials, datetime_now. step.
  destruct (db_fault w SelectCredentials); cbn; [repeat split; left; reflexivity |].
  destruct (find (owned_by (uid user)) (spotify_credentials w)) as [row|]; cbn;
    [| repeat split; left; reflexivity].
  destruct (cred_token_expires_at row <=? clock w (clock_reads w)); cbn;
    [| repeat split; left; reflexivity].
  unfold MemoryCacheHandler, refresh_access_token, post_token, add_custom_values,
    save_token_to_cache, time_time, datetime_now, refresh_token_of, update_tokens.
  step.
  destruct (token_endpoint (provider w) (RefreshToken (cred_refresh_token row)));
    cbn; [| repeat split; left; reflexivity].
  destruct (db_fault w UpdateTokens); cbn; [repeat split; left; reflexivity |].
  repeat split. right. do 4 eexists. reflexivity.
Qed.

Lemma map_keeps_serial_ids (user_id : Z) (f : Credential -> Credential)
    (table : list Credential) :
  (forall r, cred_id (f r) = cred_id r) ->
  serial_ids table ->
  serial_ids (map (fun r => if owned_by user_id r then f r else r) table).
Proof.
  unfold serial_ids. intros Hid Hids.
  rewrite List.Forall_forall in *. intros r Hin.
  apply in_map_iff in Hin as (r0 & <- & Hin0).
  destruct (owned_by user_id r0); [rewrite Hid |]; apply Hids; exact Hin0.
Qed.

Lemma filter_keeps_unique (user_id : Z) (table : list Credential) :
  unique_users table ->
  unique_users (filter (fun r => negb (owned_by user_id r)) table).
Proof.
  unfold unique_users. induction table as [|r table IH]; [intros _; constructor |].
  cbn [map]. intros Hnd. apply NoDup_cons in Hnd as [Hfresh Hnd].
  rewrite filter_cons. destruct (decide _); [| apply IH; exact Hnd].
  cbn [map]. apply NoDup_cons. split; [| apply IH; exact Hnd].
  intros Hin. apply Hfresh.
  apply list_elem_of_fmap in Hin as (r' & Heq & Hin').
  apply list_elem_of_filter in Hin' as [_ Hin'].
  apply list_elem_of_fmap. exists r'. split; assumption.
Qed.

Lemma filter_keeps_serial_ids (user_id : Z) (table : list Credential) :
  serial_ids table ->
  serial_ids (filter (fun r => negb (owned_by user_id r)) table).
Proof.
  unfold serial_ids. intros Hids.
  rewrite List.Forall_forall in *. intros r Hin.
  apply list_elem_of_In, list_elem_of_filter in Hin as [_ Hin].
  apply Hids, list_elem_of_In. exact Hin.
Qed.

(** X18: every handler keeps the table consistent.  From a table with one
    row per owner, positive row ids and a positive sequence, the callback
    (whatever it answers), [get_spotify_client] (refresh or not),
    [/disconnect], [/connect] and [/status] leave such a table. *)
Theorem handlers_keep_the_table_consistent (w : World) :
  consistent w ->
  (forall code state error bg,
     consistent (snd (spotify_callback code state error bg w))) /\
  (forall user, consistent (snd (get_spotify_client user w))) /\
  (forall user, consistent (snd (spotify_disconnect user w))) /\
  (forall user, consistent (snd (spotify_connect user w))) /\
  (forall user, consistent (snd (spotify_connection_status user w))).
Proof.
  intros (Huniq & Hids & Hnext). unfold consistent.
  split; [| split; [| split; [| split]]].
  - intros code state error bg.
    destruct (callback_table code state error bg w)
      as (_ & [[-> ->] | (uid & sid & tok & rt & ex & now & -> & ->)]).
    + repeat split; assumption.
    + split; [apply upsert_unique; exact Huniq |].
      split; [apply upsert_serial_ids; assumption | lia].
  - intros user.
    destruct (client_table user w) as (_ & -> & [-> | (tok & rt & ex & now & ->)]).
    + repeat split; assumption.
    + split; [unfold unique_users; rewrite map_keeps_users by reflexivity;
              exact Huniq |].
      split; [apply map_keeps_serial_ids; [reflexivity | exact Hids] | exact Hnext].
  - intros user. unfold spotify_disconnect, delete_credentials. step.
    destruct (db_fault w DeleteCredentials); cbn; [repeat split; assumption |].
    split; [apply filter_keeps_unique; exact Huniq |].
    split; [apply filter_keeps_serial_ids; exact Hids | exact Hnext].
  - intros user. unfold spotify_connect, select_credential_id. step.
    destruct (db_fault w SelectCredentialId); cbn; [repeat split; assumption |].
    destruct (truthy_result _); cbn; repeat split; assumption.
  - intros user. unfold spotify_connection_status, select_credential_id. step.
    destruct (db_fault w SelectCredentialId); cbn; repeat split; assumption.
Qed.

Lemma handlers_keep_the_table_consistent_witness :
  let w := linked_world 0 (Some "completed") in
  consistent w /\
  consistent (snd (spotify_callback "c0de" "8" None true w)) /\
  consistent (snd (get_spotify_client ann w)) /\
  consistent (snd (spotify_disconnect ann w)).
Proof.
  cbn zeta.
  assert (H : consistent (linked_world 0 (Some "completed"))).
  { split; [apply NoDup_singleton |]. split; [repeat constructor | reflexivity]. }
  split; [exact H |].
  destruct (handlers_keep_the_table_consistent _ H) as (Hcb & Hcl & Hdis & _).
  split; [apply Hcb |]. split; [apply Hcl | apply Hdis].
Defined.

(** ** The upsert of the callback *)

Lemma relinked_status_settled (status : option string) :
  relinked_status status <> None /\
  relinked_status status <> Some "completed" /\
  relinked_status (relinked_status status) = relinked_status status.
Proof.
  unfold relinked_status, sql_eq, COALESCE.
  destruct status as [s|]; cbn; [| repeat split; discriminate].
  destruct (String.eqb_spec s "completed") as [-> | Hne]; cbn.
  - repeat split; discriminate.
  - split; [discriminate |]. split; [congruence |].
    destruct (String.eqb_spec s "completed"); [contradiction | reflexivity].
Qed.

(** X19: after the upsert (lines 163-184) the row of the user always
    exists and its sync status is neither NULL nor 'completed', whatever
    the table held before: a link event always leaves a sync to be done.
    The sync counter is the existing one on conflict and 0 on insert, and
    [id] and owner of an existing row are kept. *)
Theorem upsert_leaves_a_sync_due
    (id user_id : Z) (spotify_id access_token refresh_token : string)
    (expires_at now : Timestamp) (table : list Credential) :
  exists row',
    find (owned_by user_id)
         (upsert id user_id spotify_id access_token refresh_token
            expires_at now table) = Some row' /\
    cred_user_id row' = user_id /\
    cred_liked_songs_sync_status row' <> None /\
    cred_liked_songs_sync_status row' <> Some "completed" /\
    match find (owned_by user_id) table with
    | Some old =>
        cred_id row' = cred_id old /\
        cred_liked_songs_count row' = cred_liked_songs_count old /\
        cred_last_used_at row' = Some now
    | None =>
        cred_id row' = id /\
        cred_liked_songs_count row' = Some 0 /\
        cred_liked_songs_sync_status row' = Some "not_started"
    end.
Proof.
  eexists. split; [apply upsert_row |].
  destruct (find (owned_by user_id) table) as [old|] eqn:Hold; cbn.
  - apply find_owned in Hold as [_ Hkey].
    destruct (relinked_status_settled (cred_liked_songs_sync_status old))
      as (Hnull & Hdone & _).
    repeat split; assumption.
  - repeat split; discriminate.
Qed.

(** X20: linking twice.  Two upserts for the same user, with different
    tokens, leave exactly one row for the user; it is the row of the first
    upsert (same id) with the provider id, tokens and expiry of the
    second, and the status the first link left: a second link changes the
    status no further. *)
Theorem upsert_twice_keeps_one_row
    (id1 id2 user_id : Z)
    (spotify_id1 access_token1 refresh_token1 : string)
    (spotify_id2 access_token2 refresh_token2 : string)
    (expires_at1 now1 expires_at2 now2 : Timestamp) (table : list Credential) :
  unique_users table ->
  let table1 := upsert id1 user_id spotify_id1 access_token1 refresh_token1
                  expires_at1 now1 table in
  let table2 := upsert id2 user_id spotify_id2 access_token2 refresh_token2
                  expires_at2 now2 table1 in
  rows_of user_id table2 = 1%nat /\
  unique_users table2 /\
  length table2 = length table1 /\
  exists row1 row2,
    find (owned_by user_id) table1 = Some row1 /\
    find (owned_by user_id) table2 = Some row2 /\
    cred_id row2 = cred_id row1 /\
    cred_spotify_id row2 = spotify_id2 /\
    cred_access_token row2 = access_token2 /\
    cred_refresh_token row2 = refresh_token2 /\
    cred_token_expires_at row2 = expires_at2 /\
    cred_liked_songs_sync_status row2 = cred_liked_songs_sync_status row1 /\
    cred_liked_songs_count row2 = cred_liked_songs_count row1.
Proof.
  intros Huniq. cbn zeta.
  pose proof (upsert_unique id1 user_id spotify_id1 access_token1 refresh_token1
                expires_at1 now1 table Huniq) as Huniq1.
  split; [apply upsert_one_row; exact Huniq1 |].
  split; [apply upsert_unique; exact Huniq1 |].
  pose proof (upsert_row id1 user_id spotify_id1 access_token1 refresh_token1
                expires_at1 now1 table) as Hrow1.
  split.
  { unfold upsert at 1.
    assert (Hex : existsb (owned_by user_id)
                    (upsert id1 user_id spotify_id1 access_token1 refresh_token1
                       expires_at1 now1 table) = true).
    { apply existsb_exists. apply find_some in Hrow1 as [Hin Hown]. eauto. }
    rewrite Hex. apply length_map. }
  eexists. eexists. split; [exact Hrow1 |].
  split; [rewrite upsert_row, Hrow1; reflexivity |].
  cbn. repeat split.
  destruct (find (owned_by user_id) table) as [old|]; cbn.
  - apply relinked_status_settled.
  - reflexivity.
Qed.

Lemma upsert_twice_keeps_one_row_witness :
  let table := [linked_row 0 (Some "completed")] in
  unique_users table /\
  let table1 := upsert 2 7 "ann" "a1" "r1" 10 1 table in
  let table2 := upsert 3 7 "ann" "a2" "r2" 20 2 table1 in
  rows_of 7 table2 = 1%nat /\
  cred_access_token <$> find (owned_by 7) table2 = Some "a2" /\
  cred_liked_songs_sync_status <$> find (owned_by 7) table2
    = Some (Some "needs_update").
Proof.
  cbn zeta.
  assert (Huniq : unique_users [linked_row 0 (Some "completed")])
    by apply NoDup_singleton.
  split; [exact Huniq |].
  split; [| split; reflexivity].
  apply (upsert_twice_keeps_one_row 2 3 7 "ann" "a1" "r1" "ann" "a2" "r2"
           10 1 20 2 [linked_row 0 (Some "completed")] Huniq).
Defined.

(** ** Import of the module *)

(** X21: the module loads exactly when SPOTIFY_CLIENT_ID,
    SPOTIFY_CLIENT_SECRET and SPOTIFY_REDIRECT_URI are all set and not
    empty (lines 38-39); otherwise the import raises [ValueError].
    FRONTEND_URL is not checked.  A successful import creates the one
    cache handler of the process-wide helper, holding no token. *)
Theorem import_checks_the_environment (w : World) :
  let set_and_not_empty (v : option string) :=
    exists s, v = Some s /\ s <> EmptyString in
  ((set_and_not_empty (SPOTIFY_CLIENT_ID (config w)) /\
    set_and_not_empty (SPOTIFY_CLIENT_SECRET (config w)) /\
    set_and_not_empty (SPOTIFY_REDIRECT_URI (config w))) <->
   import_module w = Ok (set_handlers [None] w)) /\
  (import_module w = Ok (set_handlers [None] w) \/
   import_module w
   = Raise (ValueError "missing required spotify environment variables")) /\
  forall w', import_module w = Ok w' ->
             handlers w' !! sp_oauth_cache = Some None /\
             length (handlers w') = 1%nat /\
             spotify_credentials w' = spotify_credentials w.
Proof.
  cbn zeta. unfold import_module, all_set. cbn.
  assert (Hvar : forall v : option string,
            match v with
            | Some s => negb (String.eqb s EmptyString)
            | None => false
            end = true <-> exists s, v = Some s /\ s <> EmptyString).
  { intros [s|]; split.
    - intros H. exists s. split; [reflexivity |].
      destruct (String.eqb_spec s EmptyString); [discriminate H | assumption].
    - intros (s' & Heq & Hne). injection Heq as <-.
      destruct (String.eqb_spec s EmptyString); [contradiction | reflexivity].
    - discriminate.
    - intros (s' & Heq & _). discriminate Heq. }
  rewrite <- !Hvar.
  destruct (match SPOTIFY_CLIENT_ID (config w) with
            | Some s => negb (String.eqb s EmptyString) | None => false end);
  destruct (match SPOTIFY_CLIENT_SECRET (config w) with
            | Some s => negb (String.eqb s EmptyString) | None => false end);
  destruct (match SPOTIFY_REDIRECT_URI (config w) with
            | Some s => negb (String.eqb s EmptyString) | None => false end);
  cbn.
  all: split; [split; [intros (H1 & H2 & H3); try discriminate; reflexivity
                      | intros H; try discriminate H; repeat split] |].
  all: split; [first [left; reflexivity | right; reflexivity] |].
  all: intros w' H; try discriminate H; injection H as <-; repeat split.
Qed.

(** ** How the handlers compose *)

Lemma recently_played_world (limit : Z) (user : User) (sp : Spotify) (w : World) :
  snd (get_recently_played_tracks limit user sp w)
  = set_trace (trace w ++ [ApiRequest "me/player/recently-played" (auth sp)]) w.
Proof.
  unfold get_recently_played_tracks, current_user_recently_played.
  unfold try_except, bind, emit, get, lift, ret, raise. cbn.
  destruct (api_recently_played (provider w) (auth sp) limit) as [response|e];
    cbn; [| reflexivity].
  destruct (dict_get response "items" (JList [])) as [tracks|e]; cbn;
    [| reflexivity].
  destruct (iterate tracks) as [items|e]; cbn; [| reflexivity].
  destruct (traverse format_track items); reflexivity.
Qed.

(** X22: a route called with an expired token refreshes first.
    [/recently-played] for a user whose token has expired runs, in this
    order: the SELECT, one refresh grant with the stored refresh token,
    the save into the fresh cache handler, the UPDATE, and then the one
    API request, which carries the new access token, the one that was just
    stored in the user's row, not the expired one. *)
Theorem expired_token_is_refreshed_before_the_request
    (limit : Z) (user : User) (w : World) (row : Credential) (resp : TokenResponse) :
  db_fault w SelectCredentials = None ->
  db_fault w UpdateTokens = None ->
  credential_of (uid user) w = Some row ->
  cred_token_expires_at row <= clock w (clock_reads w) ->
  token_endpoint (provider w) (RefreshToken (cred_refresh_token row)) = Ok resp ->
  let w' := snd (GET_recently_played limit user w) in
  logged w w'
  = [ Database SelectCredentials (uid user);
      TokenRequest (RefreshToken (cred_refresh_token row));
      CacheWrite (length (handlers w));
      Database UpdateTokens (uid user);
      ApiRequest "me/player/recently-played" (resp_access_token resp) ] /\
  cred_access_token <$> credential_of (uid user) w'
  = Some (resp_access_token resp).
Proof.
  intros Hdb Hupd Hrow Hexp Hresp. cbn zeta.
  assert (Hclient : exists w1,
            get_spotify_client user w
            = (Ok {| auth := resp_access_token resp |}, w1) /\
            trace w1 = trace w
                       ++ [ Database SelectCredentials (uid user);
                            TokenRequest (RefreshToken (cred_refresh_token row));
                            CacheWrite (length (handlers w));
                            Database UpdateTokens (uid user) ] /\
            cred_access_token <$> credential_of (uid user) w1
            = Some (resp_access_token resp)).
  { unfold get_spotify_client, select_credentials, datetime_now. step.
    rewrite Hdb. cbn. unfold credential_of in Hrow. rewrite Hrow. cbn.
    destruct (Z.leb_spec (cred_token_expires_at row) (clock w (clock_reads w)));
      [| lia].
    unfold MemoryCacheHandler, refresh_access_token, post_token, add_custom_values,
      save_token_to_cache, time_time, datetime_now, refresh_token_of, update_tokens.
    step. rewrite Hresp. cbn. rewrite Hupd. cbn.
    eexists. split; [reflexivity |]. cbn.
    split; [rewrite <- !app_assoc; reflexivity |].
    unfold credential_of. cbn.
    rewrite find_owned_map by reflexivity. rewrite Hrow. reflexivity. }
  destruct Hclient as (w1 & Hrun & Htrace & Htoken).
  unfold GET_recently_played, bind. rewrite Hrun.
  rewrite (surjective_pairing (get_recently_played_tracks _ _ _ _)).
  destruct (fst (get_recently_played_tracks limit user
                   {| auth := resp_access_token resp |} w1)); cbn;
    rewrite recently_played_world; cbn.
  all: split; [unfold logged; cbn; rewrite Htrace, <- app_assoc, drop_app_length;
               reflexivity | exact Htoken].
Qed.

Lemma expired_token_is_refreshed_before_the_request_witness :
  let w := linked_world 0 (Some "completed") in
  let row := linked_row 0 (Some "completed") in
  let resp := {| resp_access_token := "renewed-refresh-old";
                 resp_refresh_token := None;
                 resp_expires_in := 3600 |} in
  (db_fault w SelectCredentials = None /\
   db_fault w UpdateTokens = None /\
   credential_of (uid ann) w = Some row /\
   cred_token_expires_at row <= clock w (clock_reads w) /\
   token_endpoint (provider w) (RefreshToken (cred_refresh_token row)) = Ok resp) /\
  let w' := snd (GET_recently_played 50 ann w) in
  logged w w'
  = [ Database SelectCredentials (uid ann);
      TokenRequest (RefreshToken (cred_refresh_token row));
      CacheWrite (length (handlers w));
      Database UpdateTokens (uid ann);
      ApiRequest "me/player/recently-played" (resp_access_token resp) ] /\
  cred_access_token <$> credential_of (uid ann) w'
  = Some (resp_access_token resp).
Proof.
  cbn zeta.
  assert (Hexp : cred_token_expires_at (linked_row 0 (Some "completed"))
                 <= clock (linked_world 0 (Some "completed"))
                      (clock_reads (linked_world 0 (Some "completed"))))
    by (cbn; unfold demo_clock, timedelta_seconds; lia).
  split; [repeat split; exact Hexp |].
  exact (expired_token_is_refreshed_before_the_request 50 ann
           (linked_world 0 (Some "completed"))
           (linked_row 0 (Some "completed"))
           {| resp_access_token := "renewed-refresh-old";
              resp_refresh_token := None;
              resp_expires_in := 3600 |}
           eq_refl eq_refl eq_refl Hexp eq_refl).
Defined.

(** X23: after [/disconnect] the account can be linked again: [/connect]
    no longer answers 400 but the authorize URL of the user, whatever row
    the user had before. *)
Theorem disconnect_then_connect (user : User) (w : World) :
  db_fault w DeleteCredentials = None ->
  db_fault w SelectCredentialId = None ->
  fst (spotify_connect user (snd (spotify_disconnect user w)))
  = Ok (ConnectUrl (get_authorize_url (sp_oauth w) (str (uid user)))).
Proof.
  intros Hdel Hsel.
  unfold spotify_disconnect, spotify_connect, delete_credentials,
    select_credential_id.
  step. rewrite Hdel. cbn. rewrite Hsel. cbn.
  rewrite find_filter_own. reflexivity.
Qed.

Lemma disconnect_then_connect_witness :
  let w := linked_world 0 (Some "completed") in
  (db_fault w DeleteCredentials = None /\
   db_fault w SelectCredentialId = None) /\
  fst (spotify_connect ann w)
    = Raise (HTTPException 400 "spotify already connected") /\
  fst (spotify_connect ann (snd (spotify_disconnect ann w)))
    = Ok (ConnectUrl (get_authorize_url (sp_oauth w) (str (uid ann)))).
Proof.
  cbn zeta. split; [split; reflexivity |]. split; [reflexivity |].
  exact (disconnect_then_connect ann (linked_world 0 (Some "completed"))
           eq_refl eq_refl).
Defined.

(** The table after a callback whose exchange, profile request and upsert
    all succeed. *)
Lemma callback_success_table
    (code state : string) (error : option string) (bg : bool) (w w1 w2 : World)
    (user_id : Z) (token_info : TokenInfo) (profile : JSON)
    (spotify_id refresh_token : string) :
  error_given error = false ->
  int state = Some user_id ->
  get_access_token (sp_oauth w) code w = (Ok token_info, w1) ->
  current_user {| auth := tok_access_token token_info |} w1 = (Ok profile, w2) ->
  subscript profile "id" = Ok (JStr spotify_id) ->
  tok_refresh_token token_info = Some refresh_token ->
  db_fault w UpsertCredentials = None ->
  spotify_credentials (snd (spotify_callback code state error bg w))
  = upsert (next_credential_id w) user_id spotify_id
      (tok_access_token token_info) refresh_token
      (datetime_fromtimestamp (tok_expires_at token_info))
      (clock w2 (clock_reads w2)) (spotify_credentials w).
Proof.
  intros Herr Hint Htok Hme Hid Hrt Hdb.
  pose proof (quiet_get_access_token (sp_oauth w) code w) as F1.
  rewrite Htok in F1. cbn in F1.
  pose proof (quiet_current_user {| auth := tok_access_token token_info |} w1) as F2.
  rewrite Hme in F2. cbn in F2.
  pose proof (same_database_trans _ _ _ F1 F2) as (Ftab & Fid & _ & Ffault & Fcfg).
  unfold spotify_callback. rewrite Herr, Hint.
  unfold try_except at 1. unfold bind at 1. unfold get at 1.
  unfold bind at 1. rewrite Htok.
  unfold bind at 1. rewrite Hme.
  unfold try_except, bind, lift, refresh_token_of, upsert_credentials, execute,
    bind, lift, get, emit, ret, datetime_now, print, as_text.
  rewrite Hid, Hrt. cbn. rewrite Ffault, Hdb. cbn.
  rewrite Ftab, Fid. destruct bg; reflexivity.
Qed.

(** X24: linking makes the account connected.  After a callback whose
    exchange, profile request and upsert succeed, on a consistent table,
    [/status] reports [is_connected = true] for the user of [state] and
    [/connect] refuses that user with HTTP 400. *)
Theorem callback_then_connected
    (code state : string) (error : option string) (bg : bool) (w w1 w2 : World)
    (user : User) (token_info : TokenInfo) (profile : JSON)
    (spotify_id refresh_token : string) :
  error_given error = false ->
  int state = Some (uid user) ->
  get_access_token (sp_oauth w) code w = (Ok token_info, w1) ->
  current_user {| auth := tok_access_token token_info |} w1 = (Ok profile, w2) ->
  subscript profile "id" = Ok (JStr spotify_id) ->
  tok_refresh_token token_info = Some refresh_token ->
  db_fault w UpsertCredentials = None ->
  db_fault w SelectCredentialId = None ->
  consistent w ->
  let w' := snd (spotify_callback code state error bg w) in
  fst (spotify_connection_status user w') = Ok (ConnectionStatus true) /\
  fst (spotify_connect user w')
    = Raise (HTTPException 400 "spotify already connected").
Proof.
  intros Herr Hint Htok Hme Hid Hrt Hdb Hsel (Huniq & Hids & Hnext). cbn zeta.
  pose proof (callback_success_table code state error bg w w1 w2 (uid user)
                token_info profile spotify_id refresh_token
                Herr Hint Htok Hme Hid Hrt Hdb) as Htab.
  destruct (callback_table code state error bg w) as (Hfault & _).
  cbn zeta in Hfault.
  set (w' := snd (spotify_callback code state error bg w)) in *.
  pose proof (upsert_row (next_credential_id w) (uid user) spotify_id
                (tok_access_token token_info) refresh_token
                (datetime_fromtimestamp (tok_expires_at token_info))
                (clock w2 (clock_reads w2)) (spotify_credentials w)) as Hrow.
  rewrite <- Htab in Hrow.
  assert (Hpos : forall row, find (owned_by (uid user)) (spotify_credentials w')
                             = Some row -> cred_id row <> 0).
  { intros row Hfind. apply find_owned in Hfind as [Hin _].
    assert (Hids' : serial_ids (spotify_credentials w'))
      by (rewrite Htab; apply upsert_serial_ids; assumption).
    unfold serial_ids in Hids'. rewrite List.Forall_forall in Hids'.
    specialize (Hids' row Hin). lia. }
  specialize (Hpos _ Hrow).
  unfold spotify_connection_status, spotify_connect, select_credential_id.
  step. rewrite Hfault, Hsel. cbn. rewrite Hrow. cbn.
  destruct (Z.eqb_spec
              (cred_id match find (owned_by (uid user)) (spotify_credentials w) with
                       | Some old =>
                           relinked spotify_id (tok_access_token token_info)
                             refresh_token
                             (datetime_fromtimestamp (tok_expires_at token_info))
                             (clock w2 (clock_reads w2)) old
                       | None =>
                           inserted (next_credential_id w) (uid user) spotify_id
                             (tok_access_token token_info) refresh_token
                             (datetime_fromtimestamp (tok_expires_at token_info))
                       end) 0) as [H0|_]; [contradiction |].
  cbn. split; reflexivity.
Qed.

Lemma callback_then_connected_witness :
  let w := fresh_world in
  let token_info :=
    {| tok_access_token := "access-c0de";
       tok_refresh_token := Some "refresh-c0de";
       tok_expires_in := 3600;
       tok_expires_at := 39600;
       tok_scope := SPOTIFY_SCOPES |} in
  let w1 := snd (get_access_token (sp_oauth w) "c0de" w) in
  let profile := JDict [("id", JStr "user-of-access-c0de")] in
  let w2 := snd (current_user {| auth := "access-c0de" |} w1) in
  (error_given None = false /\ int "7" = Some (uid ann) /\
   get_access_token (sp_oauth w) "c0de" w = (Ok token_info, w1) /\
   current_user {| auth := tok_access_token token_info |} w1 = (Ok profile, w2) /\
   subscript profile "id" = Ok (JStr "user-of-access-c0de") /\
   tok_refresh_token token_info = Some "refresh-c0de" /\
   db_fault w UpsertCredentials = None /\
   db_fault w SelectCredentialId = None /\
   consistent w) /\
  let w' := snd (spotify_callback "c0de" "7" None true w) in
  fst (spotify_connection_status ann w') = Ok (ConnectionStatus true) /\
  fst (spotify_connect ann w')
    = Raise (HTTPException 400 "spotify already connected").
Proof.
  cbn zeta.
  assert (H : consistent fresh_world).
  { split; [apply NoDup_nil_2 |]. split; [constructor | reflexivity]. }
  split; [repeat (split; [reflexivity |]); exact H |].
  exact (callback_then_connected "c0de" "7" None true fresh_world _ _ ann _ _
           "user-of-access-c0de" "refresh-c0de"
           eq_refl eq_refl eq_refl eq_refl eq_refl eq_refl eq_refl eq_refl H).
Defined.
